(** * Constitutional rules: inheritance resolver, validator and session store

    A shallow embedding of
    - [build/utils/.../rule-resolver] ([loadRuleSet], [resolveInheritanceChain],
      [resolveRules], [getEffectiveRules], [validateRules]),
    - [src/utils/constitutionalRules.ts] (path discovery, string projection,
      the check of the rules file),
    - [src/cli/validate.ts] ([validateConstitutionalRules]),
    - [src/tools/constitution.ts] (the per-session constitution store),
    - the hot-reload watcher ([watchInheritanceChain]),
    followed by the properties of these functions.

    Modelling conventions.
    - The file system is a finite map from absolute paths to the decoded
      rule documents ([JSON.parse] is outside the model).
    - Node's [path] functions and [os.homedir] are fields of the [World]:
      every statement holds whatever they compute.
    - A JavaScript object used as a dictionary whose enumeration order is
      observable ([Object.entries], [Object.values]) is an association list
      in insertion order with update in place ([obj]); rule ids are read as
      ordinary own-property keys (not array indices, not names of
      [Object.prototype] members).
    - A field that may be missing in a decoded document is an [option];
      truthiness tests ([!x], [if (x)]) are spelled out by [truthy_*].
    - A thrown exception is the [Throw] outcome. The recursion of
      [resolveInheritanceChain] is driven by a fuel counter; the top-level
      entry point supplies more fuel than any descent can use
      (see [resolveInheritanceChain_fuel_enough]). The recursion of
      [watchInheritanceChain] is driven by fuel as well; there the fuel can
      run out, which stands for a recursion deeper than any bound. *)

From Stdlib Require Import String List ZArith Lia Permutation Sorted.
From stdpp Require Import base option list gmap sets strings relations.

Set Warnings "-clear-no-such-hyp".

Local Open Scope string_scope.
Local Open Scope list_scope.

(** ** JavaScript helpers *)

Module JS.

(** Exceptions raised by the modelled code. *)
Inductive error :=
| RuleSetFileNotFound (filePath : string)
| CircularDependency (absolutePath : string)
| TypeError.

(** Outcome of a call: a value, an exception, or fuel exhausted. *)
Inductive result (A : Type) :=
| Ok (a : A)
| Throw (e : error)
| OutOfFuel.
Arguments Ok {A} a.
Arguments Throw {A} e.
Arguments OutOfFuel {A}.

Definition bind {A B} (r : result A) (k : A → result B) : result B :=
  match r with
  | Ok a => k a
  | Throw e => Throw e
  | OutOfFuel => OutOfFuel
  end.

(** [for (const x of xs) { acc = step(x, acc) }] with exceptions. *)
Fixpoint for_of {A S} (step : A → S → result S) (xs : list A) (acc : S)
  : result S :=
  match xs with
  | [] => Ok acc
  | x :: xs' => bind (step x acc) (for_of step xs')
  end.

(** Truthiness of an optional string / boolean / any object. *)
Definition truthy_string (o : option string) : bool :=
  match o with
  | Some s => negb (String.eqb s "")
  | None => false
  end.

Definition truthy_bool (o : option bool) : bool :=
  match o with
  | Some b => b
  | None => false
  end.

Definition truthy_object {A} (o : option A) : bool :=
  match o with
  | Some _ => true
  | None => false
  end.

(** Template-literal rendering of a possibly missing string. *)
Definition show (o : option string) : string :=
  match o with
  | Some s => s
  | None => "undefined"
  end.

(** [hay.includes(needle)]. *)
Fixpoint includes (needle hay : string) : bool :=
  String.prefix needle hay ||
  match hay with
  | EmptyString => false
  | String _ hay' => includes needle hay'
  end.

(** [xs.join(sep)]. *)
Fixpoint join (sep : string) (xs : list string) : string :=
  match xs with
  | [] => ""
  | [x] => x
  | x :: xs' => x +:+ sep +:+ join sep xs'
  end.

(** Objects as insertion-ordered dictionaries. *)
Definition obj (V : Type) := list (string * V).

Fixpoint obj_get {V} (k : string) (o : obj V) : option V :=
  match o with
  | [] => None
  | (k', v) :: o' => if String.eqb k' k then Some v else obj_get k o'
  end.

(** [o[k] = v]: an existing key keeps its position. *)
Fixpoint obj_set {V} (k : string) (v : V) (o : obj V) : obj V :=
  match o with
  | [] => [(k, v)]
  | (k', v') :: o' =>
      if String.eqb k' k then (k, v) :: o' else (k', v') :: obj_set k v o'
  end.

Definition entries {V} (o : obj V) : list (string * V) := o.
Definition keys {V} (o : obj V) : list string := map fst o.
Definition values {V} (o : obj V) : list V := map snd o.

(** The comparison step of [Array.prototype.sort]: the element [x] moves
    behind [y] only when the comparator is positive; [NaN] (here [None])
    counts as [+0]. *)
Definition comes_after (v : option Z) : bool :=
  match v with
  | Some z => (0 <? z)%Z
  | None => false
  end.

Fixpoint sort_insert {A} (cmp : A → A → option Z) (x : A) (l : list A)
  : list A :=
  match l with
  | [] => [x]
  | y :: l' =>
      if comes_after (cmp x y) then y :: sort_insert cmp x l' else x :: y :: l'
  end.

(** [xs.sort(cmp)]. The sort is stable (ECMAScript 2019), which fixes its
    result for every consistent comparator; insertion from the right is one
    such sort. *)
Fixpoint sort {A} (cmp : A → A → option Z) (xs : list A) : list A :=
  match xs with
  | [] => []
  | x :: xs' => sort_insert cmp x (sort cmp xs')
  end.

End JS.

(** ** The world the code runs in *)

Module RuleResolver.
Import JS.

Record RuleValidation := {
  automatable : bool;
  scriptPath : option string
}.

(** A rule as decoded from a document; [Partial<Rule> & { reason }] for
    overrides has the same shape. *)
Record Rule := {
  rule_id : option string;
  name : option string;
  description : option string;
  category : option string;
  severity : option string;
  enabled : option bool;
  rationale : option string;
  examples : option (list string);
  validation : option RuleValidation;
  reason : option string
}.

Record RuleSet := {
  version : string;
  extends : option (list string);
  rules : option (obj Rule);
  overrides : option (obj Rule)
}.

Record Conflict := {
  ruleId : string;
  conflict : string;
  conflict_sources : list (option string)
}.

Record ResolvedRuleSet := {
  resolved_rules : obj Rule;
  resolved_sources : obj (list string);
  conflicts : list Conflict
}.

Record ValidationResult := {
  valid : bool;
  errors : list string;
  warnings : list string
}.

(** Files, environment and the platform's path functions. *)
Record World := {
  files : gmap string RuleSet;
  env : gmap string string;
  homedir : string;
  path_resolve : list string → string;
  path_dirname : string → string;
  path_join : list string → string
}.

(** ** rule-resolver *)

Definition loadRuleSet (w : World) (filePath : string) : result RuleSet :=
  match files w !! filePath with
  | None => Throw (RuleSetFileNotFound filePath)
  | Some ruleSet => Ok ruleSet
  end.

(** The loop over [ruleSet.extends]: every parent chain is appended. *)
Fixpoint parent_chains (resolve : string → result (list string))
  (parents : list string) (chain : list string) : result (list string) :=
  match parents with
  | [] => Ok chain
  | parentPath :: rest =>
      bind (resolve parentPath) (fun parentChain =>
        parent_chains resolve rest (chain ++ parentChain))
  end.

Fixpoint resolveInheritanceChain_fuel (fuel : nat) (w : World)
  (ruleSetPath : string) (visited : gset string) : result (list string) :=
  match fuel with
  | O => OutOfFuel
  | S fuel' =>
      let absolutePath := path_resolve w [ruleSetPath] in
      if decide (absolutePath ∈ visited)
      then Throw (CircularDependency absolutePath)
      else
        let visited := {[absolutePath]} ∪ visited in
        bind (loadRuleSet w absolutePath) (fun ruleSet =>
          match extends ruleSet with
          | None | Some [] => Ok [absolutePath]
          | Some parents =>
              bind (parent_chains
                      (fun parentPath =>
                         let resolvedParentPath :=
                           path_resolve w [path_dirname w absolutePath; parentPath] in
                         resolveInheritanceChain_fuel fuel' w resolvedParentPath visited)
                      parents [])
                   (fun chain => Ok (chain ++ [absolutePath]))
          end)
  end.

(** A descent visits a new existing file at every level, so it is never
    deeper than the number of files plus the failing last call. *)
Definition resolveInheritanceChain (w : World) (ruleSetPath : string)
  : result (list string) :=
  resolveInheritanceChain_fuel (S (size (files w))) w ruleSetPath ∅.

(** [{ ...a, ...b }]: every own field of [b] replaces the one of [a]. *)
Definition or_else {A} (b a : option A) : option A :=
  match b with
  | Some _ => b
  | None => a
  end.

Definition spread (a b : Rule) : Rule := {|
  rule_id := or_else (rule_id b) (rule_id a);
  name := or_else (name b) (name a);
  description := or_else (description b) (description a);
  category := or_else (category b) (category a);
  severity := or_else (severity b) (severity a);
  enabled := or_else (enabled b) (enabled a);
  rationale := or_else (rationale b) (rationale a);
  examples := or_else (examples b) (examples a);
  validation := or_else (validation b) (validation a);
  reason := or_else (reason b) (reason a)
|}.

(** The three accumulators of [resolveRules]. *)
Record MergeState := {
  mergedRules : obj Rule;
  sources : obj (list string);
  merge_conflicts : list Conflict
}.

Definition empty_merge : MergeState :=
  {| mergedRules := []; sources := []; merge_conflicts := [] |}.

(** [sources[ruleId].push(entry)]; a missing array is a [TypeError]. *)
Definition sources_push (ruleId entry : string) (srcs : obj (list string))
  : result (obj (list string)) :=
  match obj_get ruleId srcs with
  | Some l => Ok (obj_set ruleId (l ++ [entry]) srcs)
  | None => Throw TypeError
  end.

(** Body of the loop over [Object.entries(ruleSet.rules)]. *)
Definition merge_rule (filePath : string) (entry : string * Rule)
  (st : MergeState) : result MergeState :=
  let '(ruleId, rule) := entry in
  bind (if truthy_object (obj_get ruleId (mergedRules st))
        then match obj_get ruleId (sources st) with
             | Some l =>
                 Ok (merge_conflicts st ++
                     [{| ruleId := ruleId;
                         conflict := "Rule redefined in " +:+ filePath;
                         conflict_sources := [head l; Some filePath] |}])
             | None => Throw TypeError
             end
        else Ok (merge_conflicts st))
    (fun conflicts =>
       let mergedRules := obj_set ruleId rule (mergedRules st) in
       let sources :=
         match obj_get ruleId (sources st) with
         | Some _ => sources st
         | None => obj_set ruleId [] (sources st)
         end in
       bind (sources_push ruleId filePath sources) (fun sources =>
         Ok {| mergedRules := mergedRules;
               sources := sources;
               merge_conflicts := conflicts |})).

(** Body of the loop over [Object.entries(ruleSet.overrides)]. *)
Definition apply_override (filePath : string) (entry : string * Rule)
  (st : MergeState) : result MergeState :=
  let '(ruleId, override) := entry in
  match obj_get ruleId (mergedRules st) with
  | None =>
      Ok {| mergedRules := mergedRules st;
            sources := sources st;
            merge_conflicts :=
              merge_conflicts st ++
              [{| ruleId := ruleId;
                  conflict := "Override for non-existent rule in " +:+ filePath;
                  conflict_sources := [Some filePath] |}] |}
  | Some existing =>
      bind (sources_push ruleId (filePath +:+ " (override)") (sources st))
        (fun sources =>
           Ok {| mergedRules := obj_set ruleId (spread existing override) (mergedRules st);
                 sources := sources;
                 merge_conflicts := merge_conflicts st |})
  end.

Definition entries_of (o : option (obj Rule)) : list (string * Rule) :=
  match o with
  | Some m => entries m
  | None => []
  end.

(** What one document of the chain contributes. *)
Definition merge_ruleSet (filePath : string) (ruleSet : RuleSet)
  (st : MergeState) : result MergeState :=
  bind (for_of (merge_rule filePath) (entries_of (rules ruleSet)) st)
    (for_of (apply_override filePath) (entries_of (overrides ruleSet))).

(** Body of the loop over the chain. *)
Definition merge_file (w : World) (filePath : string) (st : MergeState)
  : result MergeState :=
  bind (loadRuleSet w filePath) (fun ruleSet => merge_ruleSet filePath ruleSet st).

Definition merge_chain (w : World) (chain : list string) : result MergeState :=
  for_of (merge_file w) chain empty_merge.

Definition resolveRules (w : World) (ruleSetPath : string)
  : result ResolvedRuleSet :=
  bind (resolveInheritanceChain w ruleSetPath) (fun chain =>
    bind (merge_chain w chain) (fun st =>
      Ok {| resolved_rules := mergedRules st;
            resolved_sources := sources st;
            conflicts := merge_conflicts st |})).

(** [severityOrder[s]]: [undefined] outside the four literals. *)
Definition severityOrder (s : option string) : option Z :=
  match s with
  | Some s =>
      if String.eqb s "CRITICAL" then Some 0%Z
      else if String.eqb s "HIGH" then Some 1%Z
      else if String.eqb s "MEDIUM" then Some 2%Z
      else if String.eqb s "LOW" then Some 3%Z
      else None
  | None => None
  end.

(** [severityOrder[a.severity] - severityOrder[b.severity]]; [None] is [NaN]. *)
Definition by_severity (a b : Rule) : option Z :=
  match severityOrder (severity a), severityOrder (severity b) with
  | Some x, Some y => Some (x - y)%Z
  | _, _ => None
  end.

Definition effective (rules : obj Rule) : list Rule :=
  sort by_severity (List.filter (fun rule => truthy_bool (enabled rule)) (values rules)).

Definition getEffectiveRules (w : World) (ruleSetPath : string)
  : result (list Rule) :=
  bind (resolveRules w ruleSetPath) (fun r => Ok (effective (resolved_rules r))).

(** The three checks of [validateRules], each appending to [errors]. *)
Definition classify_conflict (c : Conflict) (ew : list string * list string)
  : list string * list string :=
  if includes "non-existent" (conflict c)
  then (ew.1 ++ [conflict c], ew.2)
  else (ew.1, ew.2 ++ [conflict c]).

Definition classify_conflicts (cs : list Conflict) (ew : list string * list string)
  : list string * list string :=
  fold_left (fun ew c => classify_conflict c ew) cs ew.

Fixpoint duplicate_ids (ids : list string) (seenIds : gset string)
  (errors : list string) : list string :=
  match ids with
  | [] => errors
  | ruleId :: ids' =>
      duplicate_ids ids' ({[ruleId]} ∪ seenIds)
        (if decide (ruleId ∈ seenIds)
         then errors ++ ["Duplicate rule ID: " +:+ ruleId]
         else errors)
  end.

Definition required_fields_of (ruleId : string) (rule : Rule) : list string :=
  (if truthy_string (name rule) then []
   else ["Rule " +:+ ruleId +:+ " missing required field: name"]) ++
  (if truthy_string (description rule) then []
   else ["Rule " +:+ ruleId +:+ " missing required field: description"]) ++
  (if truthy_string (severity rule) then []
   else ["Rule " +:+ ruleId +:+ " missing required field: severity"]).

Definition required_fields (rules : obj Rule) (errors : list string) : list string :=
  fold_left (fun errors '(ruleId, rule) => errors ++ required_fields_of ruleId rule)
    (entries rules) errors.

Definition validate_resolved (r : ResolvedRuleSet) : ValidationResult :=
  let '(errors, warnings) := classify_conflicts (conflicts r) ([], []) in
  let errors := duplicate_ids (keys (resolved_rules r)) ∅ errors in
  let errors := required_fields (resolved_rules r) errors in
  {| valid := Nat.eqb (length errors) 0;
     errors := errors;
     warnings := warnings |}.

Definition validateRules (w : World) (ruleSetPath : string)
  : result ValidationResult :=
  bind (resolveRules w ruleSetPath) (fun r => Ok (validate_resolved r)).

End RuleResolver.

(** ** constitutionalRules.ts: path discovery and string projection *)

Module ConstitutionalRules.
Import JS RuleResolver.

Record ConstitutionalRulesConfig := {
  rulesFile : option string;
  storageDir : option string
}.

Definition existsSync (w : World) (p : string) : bool :=
  truthy_object (files w !! p).

(** [config?.field]. *)
Definition config_field (config : option ConstitutionalRulesConfig)
  (field : ConstitutionalRulesConfig → option string) : option string :=
  match config with
  | Some c => field c
  | None => None
  end.

(** [a || b] on optional strings. *)
Definition or_string (a b : option string) : option string :=
  if truthy_string a then a else b.

(** One lookup step: the candidate path when it is set and exists. *)
Definition candidate (w : World) (setting : option string)
  (to_path : string → string) : option string :=
  match setting with
  | Some s =>
      if truthy_string setting
      then let rulesPath := to_path s in
           if existsSync w rulesPath then Some rulesPath else None
      else None
  | None => None
  end.

Definition getConstitutionalRulesPath (w : World)
  (config : option ConstitutionalRulesConfig) : option string :=
  match candidate w (env w !! "VIBE_CHECK_RULES_FILE")
          (fun s => path_resolve w [s]) with
  | Some rulesPath => Some rulesPath
  | None =>
  match candidate w (config_field config rulesFile)
          (fun s => path_resolve w [s]) with
  | Some rulesPath => Some rulesPath
  | None =>
  match candidate w
          (or_string (config_field config storageDir)
                     (env w !! "VIBE_CHECK_STORAGE_DIR"))
          (fun s => path_join w [s; "constitutional-rules.json"]) with
  | Some rulesPath => Some rulesPath
  | None =>
      let defaultPath :=
        path_join w [homedir w; ".vibe-check"; "constitutional-rules.json"] in
      if existsSync w defaultPath then Some defaultPath else None
  end end end.

(** Any exception of the resolver is caught and yields no rules. *)
Definition loadConstitutionalRules (w : World)
  (config : option ConstitutionalRulesConfig) : list Rule :=
  match getConstitutionalRulesPath w config with
  | Some rulesPath =>
      if truthy_string (Some rulesPath)
      then match getEffectiveRules w rulesPath with
           | Ok effectiveRules => effectiveRules
           | Throw _ | OutOfFuel => []
           end
      else []
  | None => []
  end.

Definition severity_icon (s : option string) : string :=
  match s with
  | Some s =>
      if String.eqb s "CRITICAL" then "🚨"
      else if String.eqb s "HIGH" then "⚠️"
      else if String.eqb s "MEDIUM" then "ℹ️"
      else "📝"
  | None => "📝"
  end.

Definition ruleToString (rule : Rule) : string :=
  let ruleString :=
    severity_icon (severity rule) +:+ " [" +:+ show (category rule) +:+ "] " +:+
    show (name rule) +:+ ": " +:+ show (description rule) in
  let ruleString :=
    if truthy_string (rationale rule)
    then ruleString +:+ " | Rationale: " +:+ show (rationale rule)
    else ruleString in
  match examples rule with
  | Some (_ :: _ as ex) => ruleString +:+ " | Examples: " +:+ join "; " (take 2 ex)
  | _ => ruleString
  end.

Definition rulesToStrings (rules : list Rule) : list string :=
  map ruleToString rules.

Definition loadConstitutionalRulesAsStrings (w : World)
  (config : option ConstitutionalRulesConfig) : list string :=
  rulesToStrings (loadConstitutionalRules w config).

End ConstitutionalRules.

(** ** tools/constitution.ts: the session constitution store *)

Module Constitution.
Import JS RuleResolver ConstitutionalRules.

Record ConstitutionEntry := {
  rules : list string;
  fileLoaded : bool;
  updated : Z
}.

Definition MAX_RULES_PER_SESSION : nat := 50.
Definition SESSION_TTL_MS : Z := 60 * 60 * 1000.

(** Every operation reads the world and the clock ([Date.now()]) of the
    moment it runs and maps the module-level [constitutionMap] to its next
    value. *)
Definition initializeSessionConstitution (w : World) (now : Z)
  (sessionId : string) (constitutionMap : gmap string ConstitutionEntry)
  : gmap string ConstitutionEntry :=
  if truthy_object (constitutionMap !! sessionId) then constitutionMap
  else
    let rulesPath := getConstitutionalRulesPath w None in
    if truthy_string rulesPath
    then
      let fileRules := loadConstitutionalRulesAsStrings w None in
      <[sessionId := {| rules := fileRules; fileLoaded := true; updated := now |}]>
        constitutionMap
    else
      <[sessionId := {| rules := []; fileLoaded := false; updated := now |}]>
        constitutionMap.

(** [if (!constitutionMap[sessionId]) initializeSessionConstitution(sessionId)]. *)
Definition ensure_session (w : World) (now : Z) (sessionId : string)
  (constitutionMap : gmap string ConstitutionEntry)
  : gmap string ConstitutionEntry :=
  if truthy_object (constitutionMap !! sessionId) then constitutionMap
  else initializeSessionConstitution w now sessionId constitutionMap.

(** [if (rules.length >= MAX) rules.shift(); rules.push(rule)]. *)
Definition push_capped (rule : string) (rules : list string) : list string :=
  (if (MAX_RULES_PER_SESSION <=? length rules)%nat then tail rules else rules) ++ [rule].

Definition updateConstitution (w : World) (now : Z) (sessionId rule : string)
  (constitutionMap : gmap string ConstitutionEntry)
  : gmap string ConstitutionEntry :=
  if negb (truthy_string (Some sessionId)) || negb (truthy_string (Some rule))
  then constitutionMap
  else
    let constitutionMap := ensure_session w now sessionId constitutionMap in
    match constitutionMap !! sessionId with
    | Some entry =>
        <[sessionId := {| rules := push_capped rule (rules entry);
                          fileLoaded := fileLoaded entry;
                          updated := now |}]> constitutionMap
    | None => constitutionMap
    end.

Definition resetConstitution (now : Z) (sessionId : string) (rules : list string)
  (constitutionMap : gmap string ConstitutionEntry)
  : gmap string ConstitutionEntry :=
  if negb (truthy_string (Some sessionId)) then constitutionMap
  else
    <[sessionId := {| rules := take MAX_RULES_PER_SESSION rules;
                      fileLoaded := false;
                      updated := now |}]> constitutionMap.

Definition getConstitution (w : World) (now : Z) (sessionId : string)
  (constitutionMap : gmap string ConstitutionEntry)
  : gmap string ConstitutionEntry * list string :=
  let constitutionMap := ensure_session w now sessionId constitutionMap in
  match constitutionMap !! sessionId with
  | Some entry =>
      (<[sessionId := {| rules := rules entry;
                         fileLoaded := fileLoaded entry;
                         updated := now |}]> constitutionMap,
       rules entry)
  | None => (constitutionMap, [])
  end.

(** The idle sweep run by [setInterval]. *)
Definition stale (now : Z) (entry : ConstitutionEntry) : bool :=
  (SESSION_TTL_MS <? now - updated entry)%Z.

Definition cleanup (now : Z) (constitutionMap : gmap string ConstitutionEntry)
  : gmap string ConstitutionEntry :=
  filter (fun kv => stale now kv.2 = false) constitutionMap.

(** The three mutators and the sweep, as commands of a run. *)
Inductive command :=
| Get (w : World) (now : Z) (sessionId : string)
| Update (w : World) (now : Z) (sessionId rule : string)
| Reset (now : Z) (sessionId : string) (rules : list string)
| Cleanup (now : Z).

Definition exec (c : command) (constitutionMap : gmap string ConstitutionEntry)
  : gmap string ConstitutionEntry :=
  match c with
  | Get w now sessionId => (getConstitution w now sessionId constitutionMap).1
  | Update w now sessionId rule => updateConstitution w now sessionId rule constitutionMap
  | Reset now sessionId rules => resetConstitution now sessionId rules constitutionMap
  | Cleanup now => cleanup now constitutionMap
  end.

Definition run (cs : list command) (constitutionMap : gmap string ConstitutionEntry)
  : gmap string ConstitutionEntry :=
  fold_left (fun m c => exec c m) cs constitutionMap.

End Constitution.

(** ** cli/validate.ts: the pre-flight validator *)

Module ValidateCli.
Import JS RuleResolver ConstitutionalRules.

Record Info := {
  info_rulesFile : string;
  totalRules : nat;
  enabledRules : nat;
  inheritanceChain : list string;
  severityBreakdown : obj nat;
  categoryBreakdown : obj nat
}.

Record ValidationResult := {
  valid : bool;
  errors : list string;
  warnings : list string;
  info : Info
}.

Definition empty_info : Info :=
  {| info_rulesFile := ""; totalRules := 0; enabledRules := 0;
     inheritanceChain := []; severityBreakdown := []; categoryBreakdown := [] |}.

(** [error.message] of a caught exception. *)
Definition message (e : error) : string :=
  match e with
  | RuleSetFileNotFound filePath => "Rule set file not found: " +:+ filePath
  | CircularDependency absolutePath => "Circular dependency detected: " +:+ absolutePath
  | TypeError => "Cannot read properties of undefined"
  end.

(** [new Set()] filled by [add], read back by [Array.from]. *)
Definition set_add (x : string) (s : list string) : list string :=
  if bool_decide (x ∈ s) then s else s ++ [x].

Definition unique_sources (sources : obj (list string)) : list string :=
  fold_left
    (fun uniqueSources sourceList =>
       fold_left
         (fun uniqueSources source =>
            if includes "(override)" source then uniqueSources
            else set_add source uniqueSources)
         sourceList uniqueSources)
    (values sources) [].

(** [breakdown[key] = (breakdown[key] || 0) + 1] for every enabled rule. *)
Definition count_key (key : string) (breakdown : obj nat) : obj nat :=
  obj_set key (S (default 0 (obj_get key breakdown))) breakdown.

Definition breakdown_by (field : Rule → option string) (rules : obj Rule)
  : obj nat :=
  fold_left
    (fun breakdown rule =>
       if truthy_bool (enabled rule) then count_key (show (field rule)) breakdown
       else breakdown)
    (values rules) [].

Definition allowed_severity (s : string) : bool :=
  bool_decide (s ∈ ["CRITICAL"; "HIGH"; "MEDIUM"; "LOW"]).

(** Step 5, errors of one rule. *)
Definition rule_errors (ruleId : string) (rule : Rule) : list string :=
  (if truthy_string (name rule) then []
   else ["Rule " +:+ ruleId +:+ ": missing required field 'name'"]) ++
  (if truthy_string (description rule) then []
   else ["Rule " +:+ ruleId +:+ ": missing required field 'description'"]) ++
  (if truthy_string (category rule) then []
   else ["Rule " +:+ ruleId +:+ ": missing required field 'category'"]) ++
  (if truthy_string (severity rule) then []
   else ["Rule " +:+ ruleId +:+ ": missing required field 'severity'"]) ++
  (if truthy_string (severity rule) && negb (allowed_severity (show (severity rule)))
   then ["Rule " +:+ ruleId +:+ ": invalid severity '" +:+ show (severity rule) +:+
         "' (must be CRITICAL, HIGH, MEDIUM, or LOW)"]
   else []).

(** Step 5, warnings of one rule. *)
Definition rule_warnings (ruleId : string) (rule : Rule) : list string :=
  (match examples rule with
   | Some [] => ["Rule " +:+ ruleId +:+
                 ": has empty examples array (consider removing or adding examples)"]
   | _ => []
   end) ++
  (match validation rule with
   | Some v =>
       if automatable v && negb (truthy_string (scriptPath v))
       then ["Rule " +:+ ruleId +:+ ": marked as automatable but no scriptPath provided"]
       else []
   | None => []
   end).

Definition check_rules (rules : obj Rule) (ew : list string * list string)
  : list string * list string :=
  fold_left
    (fun ew '(ruleId, rule) =>
       (ew.1 ++ rule_errors ruleId rule, ew.2 ++ rule_warnings ruleId rule))
    (entries rules) ew.

Definition report_conflict (c : Conflict) (ew : list string * list string)
  : list string * list string :=
  if includes "non-existent" (conflict c)
  then (ew.1 ++ [conflict c], ew.2)
  else (ew.1, ew.2 ++ [conflict c +:+ " (sources: " +:+
                        join ", " (map (default "") (conflict_sources c)) +:+ ")"]).

Definition report_conflicts (cs : list Conflict) (ew : list string * list string)
  : list string * list string :=
  fold_left (fun ew c => report_conflict c ew) cs ew.

(** Steps 3 to 5 once [validateRules] and [resolveRules] have returned. *)
Definition report (rulesPath : string) (validation : RuleResolver.ValidationResult)
  (r : ResolvedRuleSet) : ValidationResult :=
  let errors :=
    if RuleResolver.valid validation then [] else RuleResolver.errors validation in
  let warnings := RuleResolver.warnings validation in
  let info :=
    {| info_rulesFile := rulesPath;
       totalRules := length (keys (resolved_rules r));
       enabledRules :=
         length (List.filter (fun rule => truthy_bool (enabled rule))
                   (values (resolved_rules r)));
       inheritanceChain := unique_sources (resolved_sources r);
       severityBreakdown := breakdown_by severity (resolved_rules r);
       categoryBreakdown := breakdown_by category (resolved_rules r) |} in
  let '(errors, warnings) := report_conflicts (conflicts r) (errors, warnings) in
  let '(errors, warnings) := check_rules (resolved_rules r) (errors, warnings) in
  {| valid := Nat.eqb (length errors) 0;
     errors := errors;
     warnings := warnings;
     info := info |}.

Definition resolution_failed (rulesPath : string) (errors warnings : list string)
  (e : error) : ValidationResult :=
  {| valid := false;
     errors := errors ++ ["Error resolving rules: " +:+ message e];
     warnings := warnings;
     info := {| info_rulesFile := rulesPath; totalRules := 0; enabledRules := 0;
                inheritanceChain := []; severityBreakdown := [];
                categoryBreakdown := [] |} |}.

Definition validate_at (w : World) (rulesPath : string) : result ValidationResult :=
  match validateRules w rulesPath with
  | OutOfFuel => OutOfFuel
  | Throw e => Ok (resolution_failed rulesPath [] [] e)
  | Ok validation =>
      match resolveRules w rulesPath with
      | OutOfFuel => OutOfFuel
      | Throw e =>
          Ok (resolution_failed rulesPath
                (if RuleResolver.valid validation then []
                 else RuleResolver.errors validation)
                (RuleResolver.warnings validation) e)
      | Ok r => Ok (report rulesPath validation r)
      end
  end.

Definition validateConstitutionalRules (w : World) (rulesFilePath : option string)
  : result ValidationResult :=
  if truthy_string rulesFilePath
  then
    let rulesPath := path_resolve w [show rulesFilePath] in
    if existsSync w rulesPath then validate_at w rulesPath
    else Ok {| valid := false;
               errors := ["Specified rules file not found: " +:+ rulesPath];
               warnings := [];
               info := empty_info |}
  else
    let rulesPath := getConstitutionalRulesPath w None in
    if truthy_string rulesPath then validate_at w (show rulesPath)
    else
      Ok {| valid := true;
            errors := [];
            warnings := ["No constitutional rules file found (this is okay, will use empty rule set)"];
            info := empty_info |}.

End ValidateCli.

(** ** Notions used by the statements *)

Module Notions.
Import JS RuleResolver.

(** The path [resolveInheritanceChain] works on when called with [p]. *)
Definition absolute (w : World) (p : string) : string := path_resolve w [p].

(** The node reached from the document at [p] through the entry
    [parentPath] of its [extends] list. *)
Definition parent_node (w : World) (p parentPath : string) : string :=
  absolute w (path_resolve w [path_dirname w p; parentPath]).

(** [q] is a parent of [p] in the extends graph. *)
Definition parent_of (w : World) (p q : string) : Prop :=
  ∃ ruleSet parents parentPath,
    files w !! p = Some ruleSet ∧ extends ruleSet = Some parents ∧
    parentPath ∈ parents ∧ q = parent_node w p parentPath.

(** A document without parents: [extends] missing or empty. *)
Definition leaf (ruleSet : RuleSet) : Prop :=
  extends ruleSet = None ∨ extends ruleSet = Some [].

(** Every document reachable from [p] exists. *)
Definition all_present (w : World) (p : string) : Prop :=
  ∀ q, rtc (parent_of w) (absolute w p) q → is_Some (files w !! q).

(** No document reachable from [p] lies on a cycle. *)
Definition acyclic_from (w : World) (p : string) : Prop :=
  ∀ q, rtc (parent_of w) (absolute w p) q → ¬ tc (parent_of w) q q.




(** The two kinds of conflict records [resolveRules] produces. *)
Definition redefinition (ruleId filePath : string) (first : option string) : Conflict :=
  {| ruleId := ruleId;
     conflict := "Rule redefined in " +:+ filePath;
     conflict_sources := [first; Some filePath] |}.

Definition dangling_override (ruleId filePath : string) : Conflict :=
  {| ruleId := ruleId;
     conflict := "Override for non-existent rule in " +:+ filePath;
     conflict_sources := [Some filePath] |}.

(** The document at [filePath] has an entry for [ruleId] in its [rules]. *)
Definition defines (w : World) (filePath ruleId : string) : bool :=
  match files w !! filePath with
  | Some ruleSet => truthy_object (obj_get ruleId (entries_of (rules ruleSet)))
  | None => false
  end.

(** The first document of a chain that defines [ruleId]. *)
Fixpoint first_definer (w : World) (chain : list string) (ruleId : string)
  : option string :=
  match chain with
  | [] => None
  | filePath :: rest =>
      if defines w filePath ruleId then Some filePath
      else first_definer w rest ruleId
  end.

(** The document at [filePath] mentions [ruleId] in [rules] or [overrides]. *)
Definition mentions (w : World) (filePath ruleId : string) : bool :=
  match files w !! filePath with
  | Some ruleSet =>
      truthy_object (obj_get ruleId (entries_of (rules ruleSet))) ||
      truthy_object (obj_get ruleId (entries_of (overrides ruleSet)))
  | None => false
  end.

(** The accumulators stay in step. [first k] is the file that first
    defined [k] in what has been merged so far: exactly the keys with a
    first definer are in [mergedRules], and their [sources] array starts
    with it. *)
Definition in_step (first : string → option string) (st : MergeState) : Prop :=
  ∀ k, match first k with
       | None => obj_get k (mergedRules st) = None ∧ obj_get k (sources st) = None
       | Some g => is_Some (obj_get k (mergedRules st)) ∧
                   ∃ l, obj_get k (sources st) = Some (g :: l)
       end.

(** The first definer after the entries [ks] of [filePath] were merged. *)
Definition first_after (first : string → option string) (ks : list string)
  (filePath : string) (k : string) : option string :=
  match first k with
  | Some g => Some g
  | None => if bool_decide (k ∈ ks) then Some filePath else None
  end.

(** The shape of every conflict recorded while merging [chain]. *)
Definition conflict_of (chain : list string) (c : Conflict) : Prop :=
  ∃ k f, f ∈ chain ∧
    ((∃ g, c = redefinition k f (Some g)) ∨ c = dangling_override k f).

(** The kind of a conflict record, read off its message. *)
Definition is_redefinition (c : Conflict) : bool :=
  String.prefix "Rule redefined in " (conflict c).


(** The errors [validateRules] derives from the merged rules alone. *)
Definition rule_set_errors (rules : obj Rule) : list string :=
  required_fields rules (duplicate_ids (keys rules) ∅ []).

(** A comparator that subtracts numeric keys ([NaN] when one is
    missing), and the order it sorts by. *)
Definition cmp_by {A} (key : A → option Z) (a b : A) : option Z :=
  match key a, key b with
  | Some x, Some y => Some (x - y)%Z
  | _, _ => None
  end.


(** A required field is empty: missing, or the empty string. *)
Definition empty_field (o : option string) : Prop := o = None ∨ o = Some "".

(** The severity is one of the four literals. *)
Definition severity_literal (rule : Rule) : Prop :=
  ∃ s, severity rule = Some s ∧ s ∈ ["CRITICAL"; "HIGH"; "MEDIUM"; "LOW"].



(** The rules [Object.values] hands to the filter of [getEffectiveRules]
    that pass it, in that order. *)
Definition enabled_rules (rules : obj Rule) : list Rule :=
  List.filter (fun rule => truthy_bool (enabled rule)) (values rules).

(** The rule ids in the order in which the merge meets them for the first
    time, walking the chain and each document's [rules] in order. *)
Definition meet (seen : list string) (k : string) : list string :=
  if bool_decide (k ∈ seen) then seen else seen ++ [k].

Definition encounter_order (w : World) (chain : list string) : list string :=
  fold_left
    (fun seen filePath =>
       match files w !! filePath with
       | Some ruleSet => fold_left meet (keys (entries_of (rules ruleSet))) seen
       | None => seen
       end)
    chain [].

(** Decoded JSON objects have pairwise distinct keys. *)
Definition distinct_keys (ruleSet : RuleSet) : Prop :=
  NoDup (keys (entries_of (rules ruleSet))) ∧
  NoDup (keys (entries_of (overrides ruleSet))).

End Notions.

(** ** Concrete worlds *)

Module Examples.
Import JS RuleResolver Notions.

(** Paths of the examples are absolute and normalised, so [path.resolve]
    returns its last argument; all files sit in the root directory. *)
Definition resolve_last (segments : list string) : string :=
  default "" (last segments).

Definition world_of (fs : list (string * RuleSet)) : World :=
  {| files := list_to_map fs;
     env := ∅;
     homedir := "/home/user";
     path_resolve := resolve_last;
     path_dirname := fun _ => "/";
     path_join := join "/" |}.

Definition document (parents : option (list string)) (rs ov : obj Rule) : RuleSet :=
  {| version := "1.0.0"; extends := parents; rules := Some rs; overrides := Some ov |}.

(** A extends [B, C], B extends [D]. *)
Definition chain_world : World :=
  world_of [("/a.json", document (Some ["/b.json"; "/c.json"]) [] []);
            ("/b.json", document (Some ["/d.json"]) [] []);
            ("/c.json", document None [] []);
            ("/d.json", document (Some []) [] [])].

(** A extends B and B extends A; then B is edited to extend nothing. *)
Definition cyclic_world : World :=
  world_of [("/a.json", document (Some ["/b.json"]) [] []);
            ("/b.json", document (Some ["/a.json"]) [] [])].

Definition repaired_world : World :=
  world_of [("/a.json", document (Some ["/b.json"]) [] []);
            ("/b.json", document None [] [])].

Definition rule_named (n : string) (sev : string) (on : bool) : Rule :=
  {| rule_id := None; name := Some n; description := Some "text";
     category := Some "general"; severity := Some sev; enabled := Some on;
     rationale := None; examples := None; validation := None; reason := None |}.

Definition patch_enabled (on : bool) : Rule :=
  {| rule_id := None; name := None; description := None; category := None;
     severity := None; enabled := Some on; rationale := None; examples := None;
     validation := None; reason := None |}.

(** Z defines r1; A extends Z and defines r1; B extends A, redefines r1 and
    overrides it; C extends B and redefines r1 once more. *)
Definition layered_world : World :=
  world_of [("/z.json", document None [("r1", rule_named "from Z" "LOW" true)] []);
            ("/a.json", document (Some ["/z.json"])
                          [("r1", rule_named "from A" "LOW" true)] []);
            ("/b.json", document (Some ["/a.json"])
                          [("r1", rule_named "from B" "HIGH" true)]
                          [("r1", patch_enabled false)]);
            ("/c.json", document (Some ["/b.json"])
                          [("r1", rule_named "from C" "MEDIUM" true)] [])].

(** A extends [B, C]; B and C both extend D. *)
Definition diamond_world : World :=
  world_of [("/a.json", document (Some ["/b.json"; "/c.json"]) [] []);
            ("/b.json", document (Some ["/d.json"]) [] []);
            ("/c.json", document (Some ["/d.json"]) [] []);
            ("/d.json", document None [("r1", rule_named "one" "LOW" true)] [])].


(** The base document defines critical-rule; the project document extends
    it, adds proj-rule and disables critical-rule through an override. *)
Definition scenario_world : World :=
  world_of [("/base.json",
               document None [("critical-rule", rule_named "critical" "CRITICAL" true)] []);
            ("/project.json",
               document (Some ["/base.json"])
                 [("proj-rule", rule_named "proj" "HIGH" true)]
                 [("critical-rule", patch_enabled false)])].

(** A single document whose overrides name a rule nobody defines. *)
Definition dangling_world : World :=
  world_of [("/a.json", document None [("r1", rule_named "one" "LOW" true)]
                          [("ghost", patch_enabled false)])].

(** A plain redefinition in a file whose name contains "non-existent". *)
Definition misnamed_world : World :=
  world_of [("/base.json", document None [("r1", rule_named "one" "LOW" true)] []);
            ("/non-existent-team.json",
               document (Some ["/base.json"]) [("r1", rule_named "two" "LOW" true)] [])].

(** Five enabled rules with severities MEDIUM, CRITICAL, LOW, HIGH,
    CRITICAL and one disabled rule, spread over two documents. *)
Definition severity_world : World :=
  world_of [("/base.json",
               document None
                 [("m", rule_named "m" "MEDIUM" true);
                  ("c1", rule_named "c1" "CRITICAL" true);
                  ("off", rule_named "off" "CRITICAL" false)] []);
            ("/project.json",
               document (Some ["/base.json"])
                 [("l", rule_named "l" "LOW" true);
                  ("h", rule_named "h" "HIGH" true);
                  ("c2", rule_named "c2" "CRITICAL" true)] [])].

Definition severity_resolved : ResolvedRuleSet :=
  {| resolved_rules :=
       [("m", rule_named "m" "MEDIUM" true);
        ("c1", rule_named "c1" "CRITICAL" true);
        ("off", rule_named "off" "CRITICAL" false);
        ("l", rule_named "l" "LOW" true);
        ("h", rule_named "h" "HIGH" true);
        ("c2", rule_named "c2" "CRITICAL" true)];
     resolved_sources :=
       [("m", ["/base.json"]); ("c1", ["/base.json"]); ("off", ["/base.json"]);
        ("l", ["/project.json"]); ("h", ["/project.json"]); ("c2", ["/project.json"])];
     conflicts := [] |}.

(** Two rules that fail the checks: one with an empty name and an
    unknown severity, one without description and severity. *)
Definition odd_rule : Rule :=
  {| rule_id := None; name := Some ""; description := Some "text";
     category := Some "general"; severity := Some "URGENT";
     enabled := Some true; rationale := None; examples := None;
     validation := None; reason := None |}.

Definition bare_rule : Rule :=
  {| rule_id := None; name := Some "bare"; description := None;
     category := Some "general"; severity := None;
     enabled := Some true; rationale := None; examples := None;
     validation := None; reason := None |}.

Definition faulty_world : World :=
  world_of [("/a.json", document None [("odd", odd_rule); ("bare", bare_rule)] [])].

Definition faulty_resolved : ResolvedRuleSet :=
  {| resolved_rules := [("odd", odd_rule); ("bare", bare_rule)];
     resolved_sources := [("odd", ["/a.json"]); ("bare", ["/a.json"])];
     conflicts := [] |}.

(** A complete rule whose severity is not one of the four literals. *)
Definition urgent_world : World :=
  world_of [("/a.json", document None [("r1", rule_named "one" "URGENT" true)] [])].

Definition urgent_resolved : ResolvedRuleSet :=
  {| resolved_rules := [("r1", rule_named "one" "URGENT" true)];
     resolved_sources := [("r1", ["/a.json"])];
     conflicts := [] |}.

(** A rules file at the default location with [n] enabled rules. *)
Fixpoint rule_key (n : nat) : string :=
  match n with
  | O => "r"
  | S n' => "r" +:+ rule_key n'
  end.

Definition many_rules (n : nat) : obj Rule :=
  map (fun i => (rule_key i, rule_named (rule_key i) "LOW" true)) (seq 0 n).

Definition crowded_world : World :=
  world_of [("/home/user/.vibe-check/constitutional-rules.json",
               document None (many_rules 51) [])].

(** No rules file anywhere. *)
Definition bare_world : World := world_of [].

(** Fifty-one appended strings, named by their position. *)
Definition appended (n : nat) : list string := map rule_key (seq 0 n).

End Examples.

(** ** The claims that the code does not satisfy as worded *)

Module AsWorded.
Import JS RuleResolver Notions.



(** C4 as worded, second half: every redefinition conflict is reported as
    a warning, and redefinitions alone never make valid false. *)
Definition redefinitions_only_warn : Prop :=
  ∀ w p r v,
    resolveRules w p = Ok r → validateRules w p = Ok v →
    (∀ c, c ∈ conflicts r → is_redefinition c = true → conflict c ∈ warnings v) ∧
    ((∀ c, c ∈ conflicts r → is_redefinition c = true) →
     rule_set_errors (resolved_rules r) = [] → valid v = true).


(** C6 as worded, for [validateRules]: an error is reported for every rule
    with an empty required field or a severity outside the four literals. *)
Definition validator_checks_literals : Prop :=
  ∀ w p r,
    resolveRules w p = Ok r →
    ∃ v, validateRules w p = Ok v ∧
      (valid v = true ↔ errors v = []) ∧
      ∀ k rule, (k, rule) ∈ resolved_rules r →
        (empty_field (name rule) ∨ empty_field (description rule) ∨
         empty_field (severity rule) ∨ ¬ severity_literal rule) →
        errors v ≠ [].


End AsWorded.

Module StoreNotions.
Import JS RuleResolver ConstitutionalRules Constitution.

(** Appending rule strings one by one, each at its own time. *)
Definition append_all (w : World) (sessionId : string) (timed : list (Z * string))
  (constitutionMap : gmap string ConstitutionEntry) : gmap string ConstitutionEntry :=
  fold_left (fun m '(now, rule) => updateConstitution w now sessionId rule m)
    timed constitutionMap.

(** The session has an empty rule list: it was initialised without a rules
    file, or it has not been touched and no rules file will be found. *)
Definition starts_empty (w : World) (sessionId : string)
  (constitutionMap : gmap string ConstitutionEntry) : Prop :=
  match constitutionMap !! sessionId with
  | Some entry => rules entry = []
  | None => truthy_string (getConstitutionalRulesPath w None) = false
  end.

(** Every entry respects the capacity. *)
Definition bounded (constitutionMap : gmap string ConstitutionEntry) : Prop :=
  ∀ sessionId entry, constitutionMap !! sessionId = Some entry →
    (length (rules entry) ≤ MAX_RULES_PER_SESSION)%nat.

(** C7 as worded: the capacity is an invariant of every run. *)
Definition capacity_invariant : Prop :=
  ∀ cs constitutionMap, bounded constitutionMap → bounded (run cs constitutionMap).

(** C8 as worded: any fifty-one appended strings, any session. *)
Definition session_capacity_claim : Prop :=
  ∀ w sessionId timed constitutionMap,
    starts_empty w sessionId constitutionMap →
    length timed = S MAX_RULES_PER_SESSION →
    ∃ entry, append_all w sessionId timed constitutionMap !! sessionId = Some entry ∧
             rules entry = tail (map snd timed).

End StoreNotions.

(** ** constitutionalRules.ts: the check of the rules file *)

Module RulesFileCheck.
Import JS RuleResolver ConstitutionalRules.

Record Check := {
  valid : bool;
  path : option string;
  errorMessage : option string
}.

(** [validateConstitutionalRules(config)]. The call of
    [loadConstitutionalRules] inside its [try] cannot throw, since that
    function catches every exception of the resolver itself; the [catch]
    block is unreachable and has no counterpart here. *)
Definition validateConstitutionalRules (w : World)
  (config : option ConstitutionalRulesConfig) : Check :=
  let rulesPath := getConstitutionalRulesPath w config in
  if truthy_string rulesPath
  then
    let rules := loadConstitutionalRules w config in
    {| valid := true; path := rulesPath; errorMessage := None |}
  else
    {| valid := false; path := None;
       errorMessage := Some "No constitutional rules file found" |}.

End RulesFileCheck.

(** ** The conflicts a chain gives rise to *)

Module ConflictNotions.
Import JS RuleResolver Notions.

(** The conflicts of the document [f], merged after the documents [pre]:
    a redefinition for each of its rules that an earlier document defines,
    citing the first definer, then a dangling override for each of its
    overrides whose rule nobody has defined by then. *)
Definition doc_conflicts (w : World) (pre : list string) (f : string)
  : list Conflict :=
  match files w !! f with
  | Some ruleSet =>
      omap (fun k => match first_definer w pre k with
                     | Some g => Some (redefinition k f (Some g))
                     | None => None
                     end)
           (keys (entries_of (rules ruleSet))) ++
      omap (fun k => match first_definer w (pre ++ [f]) k with
                     | Some _ => None
                     | None => Some (dangling_override k f)
                     end)
           (keys (entries_of (overrides ruleSet)))
  | None => []
  end.

Fixpoint chain_conflicts (w : World) (pre rest : list string) : list Conflict :=
  match rest with
  | [] => []
  | f :: rest' => doc_conflicts w pre f ++ chain_conflicts w (pre ++ [f]) rest'
  end.

End ConflictNotions.

(** ** hot-reload: the watcher of the inheritance chain *)

Module HotReload.
Import JS RuleResolver ConstitutionalRules.

(** [watchInheritanceChain(rulesPath)], threading the list of the paths
    handed to [fs.watch], in order. A file that cannot be read ends the
    call in its own [catch], which only logs; the recursion has no visited
    set. *)
Fixpoint watchInheritanceChain_fuel (fuel : nat) (w : World)
  (rulesPath : string) (watched : list string) : result (list string) :=
  match fuel with
  | O => OutOfFuel
  | S fuel' =>
      match files w !! rulesPath with
      | None => Ok watched
      | Some parsed =>
          match extends parsed with
          | Some parents =>
              for_of
                (fun extendPath watched =>
                   let absoluteExtendPath :=
                     path_resolve w [path_dirname w rulesPath; extendPath] in
                   if existsSync w absoluteExtendPath
                   then watchInheritanceChain_fuel fuel' w absoluteExtendPath
                          (watched ++ [absoluteExtendPath])
                   else Ok watched)
                parents watched
          | None => Ok watched
          end
      end
  end.

(** [path.resolve] applied to its own result returns it unchanged. *)
Definition resolve_idempotent (w : World) : Prop :=
  ∀ segments, path_resolve w [path_resolve w segments] = path_resolve w segments.

End HotReload.

(** ** Further worlds *)

Module Scenarios.
Import JS RuleResolver Notions Examples.

(** A extends a file that does not exist. *)
Definition orphan_world : World :=
  world_of [("/a.json", document (Some ["/gone.json"]) [] [])].

(** The rules file at the default location extends itself. *)
Definition broken_default_world : World :=
  world_of [("/home/user/.vibe-check/constitutional-rules.json",
               document (Some ["/home/user/.vibe-check/constitutional-rules.json"])
                 [("r1", rule_named "one" "LOW" true)] [])].

(** A rules file at the default location with two enabled rules, one of
    them with an unknown severity, and a disabled rule. *)
Definition default_world : World :=
  world_of [("/home/user/.vibe-check/constitutional-rules.json",
               document None
                 [("a", rule_named "a" "LOW" true);
                  ("b", rule_named "b" "WEIRD" true);
                  ("c", rule_named "c" "HIGH" false)] [])].

Definition default_resolved : ResolvedRuleSet :=
  {| resolved_rules :=
       [("a", rule_named "a" "LOW" true);
        ("b", rule_named "b" "WEIRD" true);
        ("c", rule_named "c" "HIGH" false)];
     resolved_sources :=
       [("a", ["/home/user/.vibe-check/constitutional-rules.json"]);
        ("b", ["/home/user/.vibe-check/constitutional-rules.json"]);
        ("c", ["/home/user/.vibe-check/constitutional-rules.json"])];
     conflicts := [] |}.

(** A store with one session holding a single rule. *)
Definition one_session : gmap string Constitution.ConstitutionEntry :=
  {["session" := {| Constitution.rules := ["a"];
                    Constitution.fileLoaded := false;
                    Constitution.updated := 0 |}]}.

End Scenarios.

(** * Properties *)

Module ResolverFacts.
Import JS RuleResolver Notions.

(** Case analysis on an equation about [bind]. *)
Ltac bind_cases :=
  repeat match goal with
  | |- _ → _ => intro
  | H : _ ∨ _ |- _ => destruct H
  | H : ∃ _, _ |- _ => destruct H
  | H : _ ∧ _ |- _ => destruct H
  | H : Ok _ = Ok _ |- _ => injection H as H; subst
  | H : Throw _ = Throw _ |- _ => injection H as H; subst
  | H : _ = _ |- _ => discriminate H
  end; eauto.

Lemma bind_Ok {A B} (r : result A) (k : A → result B) b :
  bind r k = Ok b ↔ ∃ a, r = Ok a ∧ k a = Ok b.
Proof. destruct r; simpl; split; bind_cases. Qed.

Lemma bind_Throw {A B} (r : result A) (k : A → result B) e :
  bind r k = Throw e ↔ r = Throw e ∨ ∃ a, r = Ok a ∧ k a = Throw e.
Proof. destruct r; simpl; split; bind_cases. Qed.

Lemma bind_OutOfFuel {A B} (r : result A) (k : A → result B) :
  bind r k = OutOfFuel ↔ r = OutOfFuel ∨ ∃ a, r = Ok a ∧ k a = OutOfFuel.
Proof. destruct r; simpl; split; bind_cases. Qed.

(** *** The loop over the parents *)

Lemma parent_chains_Ok f parents chain out :
  parent_chains f parents chain = Ok out ↔
  ∃ chains, Forall2 (fun p c => f p = Ok c) parents chains ∧
            out = chain ++ concat chains.
Proof.
  revert chain out. induction parents as [|p ps IH]; intros chain out; simpl.
  - split.
    + intros [= <-]. exists []. split; [constructor | by rewrite app_nil_r].
    + intros (chains & HF & ->). inversion HF; subst. simpl. by rewrite app_nil_r.
  - rewrite bind_Ok. split.
    + intros (c & Hc & Hrest). apply IH in Hrest as (chains & HF & ->).
      exists (c :: chains). split; [by constructor |].
      simpl. by rewrite app_assoc.
    + intros (chains & HF & ->). inversion HF as [|? c ? cs Hc HF']; subst.
      exists c. split; [done |]. apply IH. exists cs. split; [done |].
      simpl. by rewrite app_assoc.
Qed.

Lemma parent_chains_Throw f parents chain e :
  parent_chains f parents chain = Throw e → ∃ p, p ∈ parents ∧ f p = Throw e.
Proof.
  revert chain. induction parents as [|p ps IH]; intros chain; simpl; [done |].
  rewrite bind_Throw. intros [H | (c & _ & H)].
  - exists p. split; [left | done].
  - apply IH in H as (q & Hq & Hf). exists q. split; [by right | done].
Qed.

Lemma parent_chains_OutOfFuel f parents chain :
  parent_chains f parents chain = OutOfFuel → ∃ p, p ∈ parents ∧ f p = OutOfFuel.
Proof.
  revert chain. induction parents as [|p ps IH]; intros chain; simpl; [done |].
  rewrite bind_OutOfFuel. intros [H | (c & _ & H)].
  - exists p. split; [left | done].
  - apply IH in H as (q & Hq & Hf). exists q. split; [by right | done].
Qed.

Lemma parent_chains_ext f g parents chain :
  (∀ p, p ∈ parents → f p ≠ OutOfFuel → g p = f p) →
  parent_chains f parents chain ≠ OutOfFuel →
  parent_chains g parents chain = parent_chains f parents chain.
Proof.
  revert chain. induction parents as [|p ps IH]; intros chain Hext Hne; simpl in *; [done |].
  assert (Hp : f p ≠ OutOfFuel) by (intros E; rewrite E in Hne; done).
  rewrite (Hext p); [| left | done].
  destruct (f p) as [c| |]; simpl in *; try done.
  apply IH; [| done]. intros q Hq. apply Hext. by right.
Qed.

(** *** One level of the recursion, unfolded *)

Lemma resolve_step fuel w p visited :
  resolveInheritanceChain_fuel (S fuel) w p visited =
  if decide (absolute w p ∈ visited) then Throw (CircularDependency (absolute w p))
  else
    match files w !! absolute w p with
    | None => Throw (RuleSetFileNotFound (absolute w p))
    | Some ruleSet =>
        match extends ruleSet with
        | None | Some [] => Ok [absolute w p]
        | Some parents =>
            bind (parent_chains
                    (fun parentPath =>
                       resolveInheritanceChain_fuel fuel w
                         (path_resolve w [path_dirname w (absolute w p); parentPath])
                         ({[absolute w p]} ∪ visited))
                    parents [])
                 (fun chain => Ok (chain ++ [absolute w p]))
        end
    end.
Proof.
  simpl. unfold absolute, loadRuleSet.
  destruct (decide _); [done |].
  destruct (files w !! _); simpl; done.
Qed.

(** *** Termination: the fuel of the entry point is never exhausted *)

Lemma resolveInheritanceChain_fuel_enough fuel w p visited :
  size (dom (files w) ∖ visited) < fuel →
  resolveInheritanceChain_fuel fuel w p visited ≠ OutOfFuel.
Proof.
  revert p visited. induction fuel as [|fuel IH]; intros p visited Hsz; [lia |].
  rewrite resolve_step.
  destruct (decide _) as [|Hin]; [done |].
  destruct (files w !! absolute w p) as [ruleSet|] eqn:Hfile; [| done].
  destruct (extends ruleSet) as [[|q qs]|]; try done.
  intros Hoof. apply bind_OutOfFuel in Hoof as [Hoof | (c & _ & ?)]; [| done].
  apply parent_chains_OutOfFuel in Hoof as (q' & _ & Hoof).
  revert Hoof. apply IH.
  assert (dom (files w) ∖ ({[absolute w p]} ∪ visited) ⊂ dom (files w) ∖ visited) as Hsub.
  { apply strict_spec_alt. split; [set_solver |].
    assert (absolute w p ∈ dom (files w)) by (apply elem_of_dom; eauto).
    intros Heq. assert (absolute w p ∈ dom (files w) ∖ visited) as Hx by set_solver.
    rewrite <- Heq in Hx. set_solver. }
  apply subset_size in Hsub. lia.
Qed.

Lemma resolveInheritanceChain_terminates w p :
  resolveInheritanceChain w p ≠ OutOfFuel.
Proof.
  apply resolveInheritanceChain_fuel_enough.
  rewrite difference_empty_L, size_dom. lia.
Qed.

(** More fuel never changes a result. *)
Lemma resolve_fuel_S fuel w p visited :
  resolveInheritanceChain_fuel fuel w p visited ≠ OutOfFuel →
  resolveInheritanceChain_fuel (S fuel) w p visited =
  resolveInheritanceChain_fuel fuel w p visited.
Proof.
  revert p visited. induction fuel as [|fuel IH]; intros p visited Hne; [done |].
  rewrite resolve_step in Hne. rewrite (resolve_step (S fuel)), (resolve_step fuel).
  destruct (decide _); [done |].
  destruct (files w !! absolute w p) as [ruleSet|]; [| done].
  destruct (extends ruleSet) as [[|q qs]|]; try done.
  rewrite (parent_chains_ext
             (fun parentPath => resolveInheritanceChain_fuel fuel w
                (path_resolve w [path_dirname w (absolute w p); parentPath])
                ({[absolute w p]} ∪ visited))); [done | |].
  - intros q' _ Hq'. by apply IH.
  - intros E. rewrite E in Hne. done.
Qed.

Lemma resolve_fuel_mono fuel fuel' w p visited :
  (fuel ≤ fuel')%nat →
  resolveInheritanceChain_fuel fuel w p visited ≠ OutOfFuel →
  resolveInheritanceChain_fuel fuel' w p visited =
  resolveInheritanceChain_fuel fuel w p visited.
Proof.
  induction 1 as [|m Hle IH]; intros Hne; [done |].
  rewrite resolve_fuel_S; [by apply IH |]. rewrite IH; done.
Qed.

(** A result computed with some fuel is the result of the entry point. *)
Lemma resolve_with_fuel fuel w p r :
  resolveInheritanceChain_fuel fuel w p ∅ = r → r ≠ OutOfFuel →
  resolveInheritanceChain w p = r.
Proof.
  intros <- Hne. unfold resolveInheritanceChain.
  destruct (Nat.le_ge_cases fuel (S (size (files w)))) as [Hle|Hle].
  - by apply resolve_fuel_mono.
  - symmetry. apply resolve_fuel_mono; [done |].
    apply resolveInheritanceChain_terminates.
Qed.

(** *** What a result says about the extends graph *)

Lemma parent_of_intro w p ruleSet parents parentPath :
  files w !! p = Some ruleSet → extends ruleSet = Some parents →
  parentPath ∈ parents → parent_of w p (parent_node w p parentPath).
Proof. intros. by exists ruleSet, parents, parentPath. Qed.

Lemma tc_first_step {A} (R : relation A) x z :
  tc R x z → ∃ y, R x y ∧ rtc R y z.
Proof.
  destruct 1 as [x z H | x y z H Htc].
  - exists z. split; [done | apply rtc_refl].
  - exists y. split; [done | by apply tc_rtc].
Qed.

(** Unfolding of a successful call. *)
Lemma resolve_Ok_inv fuel w p visited chain :
  resolveInheritanceChain_fuel (S fuel) w p visited = Ok chain →
  (absolute w p ∉ visited) ∧
  ∃ ruleSet, files w !! absolute w p = Some ruleSet ∧
    ((leaf ruleSet ∧ chain = [absolute w p]) ∨
     ∃ parents chains,
       extends ruleSet = Some parents ∧ parents ≠ [] ∧
       Forall2 (fun parentPath c =>
                  resolveInheritanceChain_fuel fuel w
                    (path_resolve w [path_dirname w (absolute w p); parentPath])
                    ({[absolute w p]} ∪ visited) = Ok c) parents chains ∧
       chain = concat chains ++ [absolute w p]).
Proof.
  rewrite resolve_step. destruct (decide _) as [|Hin]; [done |].
  destruct (files w !! absolute w p) as [ruleSet|]; [| done].
  intros H. split; [done |]. exists ruleSet. split; [done |].
  destruct (extends ruleSet) as [[|q qs]|] eqn:Hext.
  - left. injection H as <-. split; [by right | done].
  - right. apply bind_Ok in H as (c & Hc & [= <-]).
    apply parent_chains_Ok in Hc as (chains & HF & ->).
    exists (q :: qs), chains. done.
  - left. injection H as <-. split; [by left | done].
Qed.

(** Nothing reachable from a successfully resolved document is on the
    current descent. *)
Lemma resolve_Ok_unvisited fuel w p visited chain q :
  resolveInheritanceChain_fuel fuel w p visited = Ok chain →
  rtc (parent_of w) (absolute w p) q → q ∉ visited.
Proof.
  revert p visited chain. induction fuel as [|fuel IH]; intros p visited chain; [done |].
  intros Hok Hreach. apply resolve_Ok_inv in Hok as (Hnin & ruleSet & Hfile & Hcase).
  apply rtc_inv in Hreach as [<- | (p' & Hstep & Hreach)]; [done |].
  destruct Hstep as (ruleSet' & parents & parentPath & Hfile' & Hext & Hin & ->).
  rewrite Hfile in Hfile'. injection Hfile' as <-.
  destruct Hcase as [[[Hleaf|Hleaf] _] | (parents' & chains & Hext' & _ & HF & _)].
  - congruence.
  - rewrite Hext in Hleaf. injection Hleaf as ->. by apply elem_of_nil in Hin.
  - rewrite Hext in Hext'. injection Hext' as <-.
    apply list_elem_of_lookup in Hin as (i & Hi).
    destruct (Forall2_lookup_l _ _ _ _ _ HF Hi) as (c & _ & Hc).
    specialize (IH _ _ _ Hc Hreach). set_solver.
Qed.

(** A successful resolution certifies that no cycle is reachable. *)
Lemma resolve_Ok_acyclic fuel w p visited chain q :
  resolveInheritanceChain_fuel fuel w p visited = Ok chain →
  rtc (parent_of w) (absolute w p) q → ¬ tc (parent_of w) q q.
Proof.
  revert p visited chain. induction fuel as [|fuel IH]; intros p visited chain; [done |].
  intros Hok Hreach.
  pose proof Hok as Hok0.
  apply resolve_Ok_inv in Hok as (Hnin & ruleSet & Hfile & Hcase).
  assert (Hparent : ∀ p', parent_of w (absolute w p) p' →
            ∃ pp c, p' = absolute w pp ∧
              resolveInheritanceChain_fuel fuel w pp ({[absolute w p]} ∪ visited) = Ok c).
  { intros p' (ruleSet' & parents & parentPath & Hfile' & Hext & Hin & ->).
    rewrite Hfile in Hfile'. injection Hfile' as <-.
    destruct Hcase as [[[Hleaf|Hleaf] _] | (parents' & chains & Hext' & _ & HF & _)].
    - congruence.
    - rewrite Hext in Hleaf. injection Hleaf as ->. by apply elem_of_nil in Hin.
    - rewrite Hext in Hext'. injection Hext' as <-.
      apply list_elem_of_lookup in Hin as (i & Hi).
      destruct (Forall2_lookup_l _ _ _ _ _ HF Hi) as (c & _ & Hc).
      eexists _, c. split; [reflexivity | exact Hc]. }
  apply rtc_inv in Hreach as [<- | (p' & Hstep & Hreach)].
  - intros Hcyc. apply tc_first_step in Hcyc as (p' & Hstep & Hback).
    destruct (Hparent _ Hstep) as (pp & c & -> & Hc).
    pose proof (resolve_Ok_unvisited _ _ _ _ _ _ Hc Hback). set_solver.
  - destruct (Hparent _ Hstep) as (pp & c & -> & Hc). by eapply IH.
Qed.

(** Which path an exception names. *)
Lemma resolve_Throw_inv fuel w p visited e :
  resolveInheritanceChain_fuel fuel w p visited = Throw e →
  match e with
  | CircularDependency c =>
      rtc (parent_of w) (absolute w p) c ∧ (c ∈ visited ∨ tc (parent_of w) c c)
  | RuleSetFileNotFound c =>
      rtc (parent_of w) (absolute w p) c ∧ files w !! c = None
  | TypeError => False
  end.
Proof.
  revert p visited. induction fuel as [|fuel IH]; intros p visited; [done |].
  rewrite resolve_step. destruct (decide _) as [Hin|Hnin].
  { intros [= <-]. split; [done | by left]. }
  destruct (files w !! absolute w p) as [ruleSet|] eqn:Hfile.
  2:{ intros [= <-]. done. }
  destruct (extends ruleSet) as [[|q qs]|] eqn:Hext; try done.
  intros H. apply bind_Throw in H as [H | (c & _ & ?)]; [| done].
  apply parent_chains_Throw in H as (parentPath & Hin & H).
  assert (Hstep : parent_of w (absolute w p)
                    (absolute w (path_resolve w [path_dirname w (absolute w p); parentPath])))
    by (by eapply parent_of_intro).
  specialize (IH _ _ H). destruct e as [c|c|]; [| | done].
  - destruct IH as [Hreach Hnone]. split; [by eapply rtc_l | done].
  - destruct IH as [Hreach Hor]. split; [by eapply rtc_l |].
    destruct Hor as [Hor | Hor]; [| by right].
    apply elem_of_union in Hor as [Hor | Hor]; [| by left].
    apply elem_of_singleton in Hor as ->. right.
    eapply tc_rtc_r; [apply tc_once, Hstep | done].
Qed.

(** Resolution fails only on a cycle or a missing file. *)
Lemma resolve_acyclic_Ok w p :
  acyclic_from w p → all_present w p →
  ∃ chain, resolveInheritanceChain w p = Ok chain.
Proof.
  intros Hacyc Hpres.
  destruct (resolveInheritanceChain w p) as [chain|e|] eqn:Hres.
  - by exists chain.
  - apply resolve_Throw_inv in Hres. destruct e as [c|c|]; [| | done].
    + destruct Hres as [Hreach Hnone]. destruct (Hpres c Hreach) as [? ?]. congruence.
    + destruct Hres as [Hreach [Hin | Hcyc]]; [set_solver |].
      by destruct (Hacyc c Hreach).
  - by destruct (resolveInheritanceChain_terminates w p).
Qed.

(** C1. Chain order: for a document A whose extends list is [B, C], where B
    extends [D] and C and D have no parents (all four files present),
    resolving A returns the absolute paths [D, B, C, A]: the full chain of
    every parent in declared order, then the document itself. *)
Theorem chain_order w A pB pC pD docA docB docC docD :
  let a := absolute w A in
  let b := parent_node w a pB in
  let c := parent_node w a pC in
  let d := parent_node w b pD in
  files w !! a = Some docA → extends docA = Some [pB; pC] →
  files w !! b = Some docB → extends docB = Some [pD] →
  files w !! c = Some docC → leaf docC →
  files w !! d = Some docD → leaf docD →
  resolveInheritanceChain w A = Ok [d; b; c; a].
Proof.
  intros a b c d HA HextA HB HextB HC HleafC HD HleafD.
  assert (Hba : b ≠ a) by (intros E; rewrite E in HB; congruence).
  assert (Hca : c ≠ a).
  { intros E. rewrite E in HC. destruct HleafC; congruence. }
  assert (Hda : d ≠ a).
  { intros E. rewrite E in HD. destruct HleafD; congruence. }
  assert (Hdb : d ≠ b).
  { intros E. rewrite E in HD. destruct HleafD; congruence. }
  assert (Hleaf : ∀ fuel q doc visited,
            absolute w q ∉ visited → files w !! absolute w q = Some doc → leaf doc →
            resolveInheritanceChain_fuel (S fuel) w q visited = Ok [absolute w q]).
  { intros fuel q doc visited Hnin Hq Hl. rewrite resolve_step.
    destruct (decide _); [done |]. rewrite Hq. by destruct Hl as [-> | ->]. }
  apply (resolve_with_fuel 3); [| done].
  rewrite resolve_step. fold a. destruct (decide (a ∈ ∅)); [set_solver |].
  rewrite HA, HextA. cbn [parent_chains bind].
  rewrite resolve_step. change (absolute w (path_resolve w [path_dirname w a; pB])) with b.
  destruct (decide (b ∈ {[a]} ∪ ∅)); [set_solver |].
  rewrite HB, HextB. cbn [parent_chains bind].
  rewrite (Hleaf 0 _ docD); [| fold d; set_solver | done | done].
  cbn [bind app].
  rewrite (Hleaf 1 _ docC); [| fold c; set_solver | done | done].
  reflexivity.
Qed.

Lemma chain_order_witness :
  resolveInheritanceChain Examples.chain_world "/a.json" =
  Ok ["/d.json"; "/b.json"; "/c.json"; "/a.json"].
Proof.
  apply (chain_order Examples.chain_world "/a.json" "/b.json" "/c.json" "/d.json"
           (Examples.document (Some ["/b.json"; "/c.json"]) [] [])
           (Examples.document (Some ["/d.json"]) [] [])
           (Examples.document None [] [])
           (Examples.document (Some []) [] []));
    first [ reflexivity | by left | by right ].
Defined.

(** C2. Cycle detection: when a cycle of the extends graph is reachable
    from the starting document, resolution terminates with an exception
    that names a path: the path found again on the current descent, which
    is reachable and lies on a cycle (or a missing file met before it; when
    every reachable file exists the exception is the circular-dependency
    one). The visited set belongs to the call: in any edited world where no
    cycle is reachable and every reachable file exists, the next top-level
    call succeeds. *)
Theorem cycle_detected w start c :
  rtc (parent_of w) (absolute w start) c → tc (parent_of w) c c →
  (∃ e, resolveInheritanceChain w start = Throw e ∧
        match e with
        | CircularDependency p =>
            rtc (parent_of w) (absolute w start) p ∧ tc (parent_of w) p p
        | RuleSetFileNotFound p =>
            rtc (parent_of w) (absolute w start) p ∧ files w !! p = None
        | TypeError => False
        end ∧
        (all_present w start → ∃ p, e = CircularDependency p)) ∧
  (∀ w', acyclic_from w' start → all_present w' start →
         ∃ chain, resolveInheritanceChain w' start = Ok chain).
Proof.
  intros Hreach Hcyc. split; [| intros w'; apply resolve_acyclic_Ok].
  destruct (resolveInheritanceChain w start) as [chain|e|] eqn:Hres.
  - by destruct (resolve_Ok_acyclic _ _ _ _ _ _ Hres Hreach).
  - exists e. split; [done |].
    apply resolve_Throw_inv in Hres. destruct e as [p|p|]; [| | done].
    + split; [done |]. intros Hpres. destruct Hres as [Hp Hnone].
      destruct (Hpres p Hp) as [? ?]. congruence.
    + destruct Hres as [Hp [Hin | Hpp]]; [set_solver |].
      split; [done |]. intros _. by exists p.
  - by destruct (resolveInheritanceChain_terminates w start).
Qed.

Lemma cycle_detected_witness :
  (∃ e, resolveInheritanceChain Examples.cyclic_world "/a.json" = Throw e ∧
        match e with
        | CircularDependency p =>
            rtc (parent_of Examples.cyclic_world)
              (absolute Examples.cyclic_world "/a.json") p ∧
            tc (parent_of Examples.cyclic_world) p p
        | RuleSetFileNotFound p =>
            rtc (parent_of Examples.cyclic_world)
              (absolute Examples.cyclic_world "/a.json") p ∧
            files Examples.cyclic_world !! p = None
        | TypeError => False
        end ∧
        (all_present Examples.cyclic_world "/a.json" → ∃ p, e = CircularDependency p)) ∧
  (∀ w', acyclic_from w' "/a.json" → all_present w' "/a.json" →
         ∃ chain, resolveInheritanceChain w' "/a.json" = Ok chain).
Proof.
  apply (cycle_detected Examples.cyclic_world "/a.json" "/a.json").
  - apply rtc_refl.
  - apply tc_l with "/b.json"; [| apply tc_once].
    + apply (parent_of_intro Examples.cyclic_world "/a.json"
               (Examples.document (Some ["/b.json"]) [] []) ["/b.json"] "/b.json");
        first [ reflexivity | repeat constructor ].
    + apply (parent_of_intro Examples.cyclic_world "/b.json"
               (Examples.document (Some ["/a.json"]) [] []) ["/a.json"] "/a.json");
        first [ reflexivity | repeat constructor ].
Defined.

(** The two-document cycle and its repair, evaluated. *)
Example cyclic_world_fails :
  resolveInheritanceChain Examples.cyclic_world "/a.json" =
  Throw (CircularDependency "/a.json").
Proof. vm_compute. reflexivity. Qed.

Example repaired_world_resolves :
  resolveInheritanceChain Examples.repaired_world "/a.json" =
  Ok ["/b.json"; "/a.json"].
Proof. vm_compute. reflexivity. Qed.

End ResolverFacts.

Module MergeFacts.
Import JS RuleResolver Notions ResolverFacts.

(** *** Dictionaries *)

Lemma obj_get_set_eq {V} k (v : V) o : obj_get k (obj_set k v o) = Some v.
Proof.
  induction o as [|[k' v'] o IH]; simpl.
  - by rewrite String.eqb_refl.
  - destruct (String.eqb k' k) eqn:E; simpl.
    + by rewrite String.eqb_refl.
    + by rewrite E.
Qed.

Lemma obj_get_set_ne {V} k k' (v : V) o :
  k ≠ k' → obj_get k' (obj_set k v o) = obj_get k' o.
Proof.
  intros Hne. induction o as [|[k0 v0] o IH]; simpl.
  - destruct (String.eqb k k') eqn:E; [| done].
    apply String.eqb_eq in E. done.
  - destruct (String.eqb k0 k) eqn:E; simpl.
    + apply String.eqb_eq in E as ->.
      destruct (String.eqb k k') eqn:E'; [| done].
      apply String.eqb_eq in E'. done.
    + by rewrite IH.
Qed.

Lemma obj_get_Some_elem {V} k (v : V) o : obj_get k o = Some v → (k, v) ∈ o.
Proof.
  induction o as [|[k' v'] o IH]; simpl; [done |].
  destruct (String.eqb k' k) eqn:E.
  - apply String.eqb_eq in E as ->. intros [= ->]. left.
  - intros H. right. by apply IH.
Qed.


Lemma obj_get_None_keys {V} k (o : obj V) : obj_get k o = None ↔ k ∉ keys o.
Proof.
  unfold keys. induction o as [|[k' v'] o IH]; simpl.
  - split; [intros _ H; by apply elem_of_nil in H | done].
  - destruct (String.eqb k' k) eqn:E.
    + apply String.eqb_eq in E as ->. split; [done |].
      intros H. destruct H. left.
    + apply String.eqb_neq in E. rewrite IH. rewrite not_elem_of_cons. naive_solver.
Qed.

Lemma obj_get_NoDup_elem {V} k (v : V) o :
  NoDup (keys o) → (k, v) ∈ o → obj_get k o = Some v.
Proof.
  unfold keys. induction o as [|[k' v'] o IH]; simpl; intros Hnd Hin.
  - by apply elem_of_nil in Hin.
  - apply NoDup_cons in Hnd as [Hk' Hnd].
    apply elem_of_cons in Hin as [[= -> ->] | Hin].
    + by rewrite String.eqb_refl.
    + destruct (String.eqb k' k) eqn:E; [| by apply IH].
      apply String.eqb_eq in E as ->. destruct Hk'.
      apply list_elem_of_fmap. by exists (k, v).
Qed.

Lemma in_step_ext first first' st :
  (∀ k, first k = first' k) → in_step first st → in_step first' st.
Proof. intros Heq H k. rewrite <- Heq. apply H. Qed.

Lemma merge_rule_spec filePath k rule st first :
  in_step first st →
  ∃ st', merge_rule filePath (k, rule) st = Ok st' ∧
         in_step (first_after first [k] filePath) st' ∧
         mergedRules st' = obj_set k rule (mergedRules st) ∧
         merge_conflicts st' =
           merge_conflicts st ++
           match first k with
           | Some g => [redefinition k filePath (Some g)]
           | None => []
           end.
Proof.
  intros Hinv. pose proof (Hinv k) as Hk. unfold merge_rule.
  destruct (first k) as [g|] eqn:Hfirst.
  - destruct Hk as [[r Hr] [l Hl]]. rewrite Hr, Hl. simpl.
    unfold sources_push. rewrite Hl. simpl.
    eexists. split; [reflexivity |]. simpl. split; [| done].
    intros k'. unfold first_after. simpl.
    destruct (decide (k = k')) as [<- | Hne].
    + rewrite Hfirst, !obj_get_set_eq. split; [by eexists |]. by exists (l ++ [filePath]).
    + rewrite !obj_get_set_ne by done. pose proof (Hinv k') as Hk'.
      destruct (first k'); [done |].
      rewrite bool_decide_eq_false_2; [done |]. set_solver.
  - destruct Hk as [Hr Hl]. rewrite Hr, Hl. simpl.
    unfold sources_push. rewrite obj_get_set_eq. simpl.
    eexists. split; [reflexivity |]. simpl. split; [| by rewrite app_nil_r].
    intros k'. unfold first_after. simpl.
    destruct (decide (k = k')) as [<- | Hne].
    + rewrite Hfirst, !obj_get_set_eq. rewrite bool_decide_eq_true_2 by set_solver.
      split; [by eexists |]. by exists [].
    + rewrite !obj_get_set_ne by done. pose proof (Hinv k') as Hk'.
      destruct (first k'); [done |].
      rewrite bool_decide_eq_false_2; [done |]. set_solver.
Qed.

Lemma apply_override_spec filePath k override st first :
  in_step first st →
  ∃ st', apply_override filePath (k, override) st = Ok st' ∧
         in_step first st' ∧
         mergedRules st' =
           match obj_get k (mergedRules st) with
           | Some existing => obj_set k (spread existing override) (mergedRules st)
           | None => mergedRules st
           end ∧
         merge_conflicts st' =
           merge_conflicts st ++
           match first k with
           | Some _ => []
           | None => [dangling_override k filePath]
           end.
Proof.
  intros Hinv. pose proof (Hinv k) as Hk. unfold apply_override.
  destruct (first k) as [g|] eqn:Hfirst.
  - destruct Hk as [[r Hr] [l Hl]]. rewrite Hr.
    unfold sources_push. rewrite Hl. simpl.
    eexists. split; [reflexivity |]. simpl. split; [| by rewrite app_nil_r].
    intros k'. simpl. destruct (decide (k = k')) as [<- | Hne].
    + rewrite Hfirst, !obj_get_set_eq. split; [by eexists |].
      by exists (l ++ [filePath +:+ " (override)"]).
    + rewrite !obj_get_set_ne by done. apply Hinv.
  - destruct Hk as [Hr Hl]. rewrite Hr.
    eexists. split; [reflexivity |]. simpl. split; [| done].
    intros k'. simpl. apply Hinv.
Qed.

(** *** The two loops over one document *)


Lemma first_after_cons first k0 ks filePath k :
  first_after (first_after first [k0] filePath) ks filePath k =
  first_after first (k0 :: ks) filePath k.
Proof.
  unfold first_after. destruct (first k); [done |].
  destruct (decide (k = k0)) as [-> | Hne].
  - rewrite !bool_decide_eq_true_2; [done | left | left].
  - rewrite (bool_decide_eq_false_2 (k ∈ [k0])) by set_solver.
    apply option_eq; intros x. repeat case_bool_decide; set_solver.
Qed.

Lemma merge_rules_spec filePath es st first :
  in_step first st →
  ∃ st', for_of (merge_rule filePath) es st = Ok st' ∧
    in_step (first_after first (keys es) filePath) st' ∧
    (∃ extra, merge_conflicts st' = merge_conflicts st ++ extra ∧
              Forall (fun c => ∃ k g, c = redefinition k filePath (Some g)) extra) ∧
    (∀ k r g, (k, r) ∈ es → first k = Some g →
              redefinition k filePath (Some g) ∈ merge_conflicts st') ∧
    (∀ k, k ∉ keys es → obj_get k (mergedRules st') = obj_get k (mergedRules st)) ∧
    (∀ k r, NoDup (keys es) → (k, r) ∈ es → obj_get k (mergedRules st') = Some r).
Proof.
  revert st first. induction es as [|[k0 r0] es IH]; intros st first Hinv.
  - exists st. simpl. split; [done |]. split.
    { eapply in_step_ext; [| exact Hinv]. intros k. unfold first_after.
      destruct (first k); [done |]. by rewrite bool_decide_eq_false_2 by set_solver. }
    split; [exists []; by rewrite app_nil_r |].
    split; [intros k r g H; by apply elem_of_nil in H |].
    split; [done |]. intros k r _ H. by apply elem_of_nil in H.
  - destruct (merge_rule_spec filePath k0 r0 st first Hinv)
      as (st1 & Hstep & Hinv1 & Hm1 & Hc1).
    destruct (IH st1 _ Hinv1) as (st' & Hloop & Hinv' & (extra & Hc' & Hshape) & Hredef & Hother & Hlast).
    exists st'. cbn [for_of]. rewrite Hstep. cbn [bind]. split; [done |]. split.
    { eapply in_step_ext; [| exact Hinv']. intros k. apply first_after_cons. }
    split.
    { eexists. rewrite Hc', Hc1, <- app_assoc. split; [done |].
      apply Forall_app. split; [| done]. destruct (first k0); [| done].
      constructor; [by eexists _, _ | done]. }
    split.
    { intros k r g Hin Hk. apply elem_of_cons in Hin as [[= -> ->] | Hin].
      - rewrite Hc', Hc1, Hk. set_solver.
      - apply (Hredef k r g Hin). unfold first_after. by rewrite Hk. }
    split.
    { intros k Hk. unfold keys in Hk. simpl in Hk. apply not_elem_of_cons in Hk as [Hne Hk].
      rewrite Hother by done. rewrite Hm1. by apply obj_get_set_ne. }
    intros k r Hnd Hin. unfold keys in Hnd. simpl in Hnd.
    apply NoDup_cons in Hnd as [Hk0 Hnd].
    apply elem_of_cons in Hin as [[= -> ->] | Hin].
    + rewrite Hother by done. rewrite Hm1. apply obj_get_set_eq.
    + by apply Hlast.
Qed.

Lemma apply_overrides_spec filePath os st first :
  in_step first st →
  ∃ st', for_of (apply_override filePath) os st = Ok st' ∧
    in_step first st' ∧
    (∃ extra, merge_conflicts st' = merge_conflicts st ++ extra ∧
              Forall (fun c => ∃ k, c = dangling_override k filePath) extra) ∧
    (∀ k o, (k, o) ∈ os → first k = None →
            dangling_override k filePath ∈ merge_conflicts st') ∧
    (∀ k, k ∉ keys os → obj_get k (mergedRules st') = obj_get k (mergedRules st)) ∧
    (∀ k o existing, NoDup (keys os) → (k, o) ∈ os →
            obj_get k (mergedRules st) = Some existing →
            obj_get k (mergedRules st') = Some (spread existing o)).
Proof.
  revert st. induction os as [|[k0 o0] os IH]; intros st Hinv.
  - exists st. simpl. split; [done |]. split; [done |].
    split; [exists []; by rewrite app_nil_r |].
    split; [intros k o H; by apply elem_of_nil in H |].
    split; [done |]. intros k o e _ H. by apply elem_of_nil in H.
  - destruct (apply_override_spec filePath k0 o0 st first Hinv)
      as (st1 & Hstep & Hinv1 & Hm1 & Hc1).
    destruct (IH st1 Hinv1) as (st' & Hloop & Hinv' & (extra & Hc' & Hshape) & Hdang & Hother & Hlast).
    exists st'. cbn [for_of]. rewrite Hstep. cbn [bind]. split; [done |]. split; [done |].
    assert (Hne1 : ∀ k, k ≠ k0 → obj_get k (mergedRules st1) = obj_get k (mergedRules st)).
    { intros k Hne. rewrite Hm1. destruct (obj_get k0 (mergedRules st)); [| done].
      by apply obj_get_set_ne. }
    split.
    { eexists. rewrite Hc', Hc1, <- app_assoc. split; [done |].
      apply Forall_app. split; [| done]. destruct (first k0); [done |].
      constructor; [by eexists | done]. }
    split.
    { intros k o Hin Hk. apply elem_of_cons in Hin as [[= -> ->] | Hin].
      - rewrite Hc', Hc1, Hk. set_solver.
      - by apply (Hdang k o Hin). }
    split.
    { intros k Hk. unfold keys in Hk. simpl in Hk. apply not_elem_of_cons in Hk as [Hne Hk].
      rewrite Hother by done. by apply Hne1. }
    intros k o e Hnd Hin He. unfold keys in Hnd. simpl in Hnd.
    apply NoDup_cons in Hnd as [Hk0 Hnd].
    apply elem_of_cons in Hin as [[= -> ->] | Hin].
    + rewrite Hother by done. rewrite Hm1, He. apply obj_get_set_eq.
    + apply Hlast; [done | done |]. rewrite Hne1; [done |].
      intros ->. destruct Hk0. apply list_elem_of_fmap. by exists (k0, o).
Qed.

Lemma merge_ruleSet_spec filePath ruleSet st first :
  in_step first st →
  let rs := entries_of (rules ruleSet) in
  let os := entries_of (overrides ruleSet) in
  ∃ st', merge_ruleSet filePath ruleSet st = Ok st' ∧
    in_step (first_after first (keys rs) filePath) st' ∧
    (∃ extra, merge_conflicts st' = merge_conflicts st ++ extra ∧
              Forall (conflict_of [filePath]) extra) ∧
    (∀ k r g, (k, r) ∈ rs → first k = Some g →
              redefinition k filePath (Some g) ∈ merge_conflicts st') ∧
    (∀ k o, (k, o) ∈ os → first_after first (keys rs) filePath k = None →
            dangling_override k filePath ∈ merge_conflicts st') ∧
    (∀ k, k ∉ keys rs → k ∉ keys os →
          obj_get k (mergedRules st') = obj_get k (mergedRules st)) ∧
    (∀ k r o, distinct_keys ruleSet → (k, r) ∈ rs → (k, o) ∈ os →
              obj_get k (mergedRules st') = Some (spread r o)).
Proof.
  intros Hinv rs os. unfold merge_ruleSet. fold rs os.
  destruct (merge_rules_spec filePath rs st first Hinv)
    as (st1 & Hloop1 & Hinv1 & (extra1 & Hc1 & Hsh1) & Hredef & Hother1 & Hlast1).
  destruct (apply_overrides_spec filePath os st1 _ Hinv1)
    as (st' & Hloop2 & Hinv' & (extra2 & Hc2 & Hsh2) & Hdang & Hother2 & Hlast2).
  exists st'. rewrite Hloop1. cbn [bind]. split; [done |]. split; [done |].
  split.
  { exists (extra1 ++ extra2). rewrite Hc2, Hc1, <- app_assoc. split; [done |].
    apply Forall_app. split.
    - eapply Forall_impl; [exact Hsh1 |]. intros c (k & g & ->).
      exists k, filePath. split; [left | left; by exists g].
    - eapply Forall_impl; [exact Hsh2 |]. intros c (k & ->).
      exists k, filePath. split; [left | by right]. }
  split.
  { intros k r g Hin Hk. rewrite Hc2. apply elem_of_app. left. by eapply Hredef. }
  split; [done |]. split.
  { intros k Hk1 Hk2. rewrite Hother2 by done. by apply Hother1. }
  intros k r o [Hnd1 Hnd2] Hr Ho. eapply Hlast2; [done | done |]. by apply Hlast1.
Qed.

(** *** The loop over the chain *)

Lemma first_definer_app w P Q k :
  first_definer w (P ++ Q) k =
  match first_definer w P k with
  | Some g => Some g
  | None => first_definer w Q k
  end.
Proof.
  induction P as [|f P IH]; simpl; [done |]. by destruct (defines w f k).
Qed.

Lemma first_definer_snoc w P f ruleSet k :
  files w !! f = Some ruleSet →
  first_after (first_definer w P) (keys (entries_of (rules ruleSet))) f k =
  first_definer w (P ++ [f]) k.
Proof.
  intros Hf. rewrite first_definer_app. unfold first_after.
  destruct (first_definer w P k); [done |]. simpl. unfold defines. rewrite Hf.
  destruct (obj_get k (entries_of (rules ruleSet))) eqn:E; simpl.
  - rewrite bool_decide_eq_true_2; [done |].
    destruct (decide (k ∈ keys (entries_of (rules ruleSet)))) as [|Hn]; [done |].
    apply obj_get_None_keys in Hn. congruence.
  - rewrite bool_decide_eq_false_2; [done |]. by apply obj_get_None_keys.
Qed.

Lemma first_definer_elem w P k g : first_definer w P k = Some g → g ∈ P.
Proof.
  induction P as [|f P IH]; simpl; [done |].
  destruct (defines w f k); [intros [= ->]; left | intros H; right; auto].
Qed.

Lemma conflict_of_mono chain chain' c :
  chain ⊆ chain' → conflict_of chain c → conflict_of chain' c.
Proof. intros Hsub (k & f & Hf & H). exists k, f. split; [by apply Hsub | done]. Qed.

Lemma not_mentioned w f ruleSet k :
  files w !! f = Some ruleSet → mentions w f k = false →
  (k ∉ keys (entries_of (rules ruleSet))) ∧ (k ∉ keys (entries_of (overrides ruleSet))).
Proof.
  unfold mentions. intros -> H. apply orb_false_iff in H as [H1 H2].
  split; apply obj_get_None_keys.
  - by destruct (obj_get k (entries_of (rules ruleSet))).
  - by destruct (obj_get k (entries_of (overrides ruleSet))).
Qed.

Lemma merge_files_spec w rest :
  Forall (fun f => is_Some (files w !! f)) rest →
  ∀ P st, in_step (first_definer w P) st →
  ∃ st', for_of (merge_file w) rest st = Ok st' ∧
    in_step (first_definer w (P ++ rest)) st' ∧
    (∃ extra, merge_conflicts st' = merge_conflicts st ++ extra ∧
              Forall (conflict_of rest) extra) ∧
    (∀ P1 f P2 ruleSet k r g,
        rest = P1 ++ f :: P2 → files w !! f = Some ruleSet →
        (k, r) ∈ entries_of (rules ruleSet) →
        first_definer w (P ++ P1) k = Some g →
        redefinition k f (Some g) ∈ merge_conflicts st') ∧
    (∀ P1 f P2 ruleSet k o,
        rest = P1 ++ f :: P2 → files w !! f = Some ruleSet →
        (k, o) ∈ entries_of (overrides ruleSet) →
        first_definer w (P ++ P1 ++ [f]) k = None →
        dangling_override k f ∈ merge_conflicts st') ∧
    (∀ k, Forall (fun f => mentions w f k = false) rest →
          obj_get k (mergedRules st') = obj_get k (mergedRules st)).
Proof.
  induction 1 as [|f0 rest [rs0 Hf0] Hpres IH]; intros P st Hinv.
  - exists st. simpl. rewrite app_nil_r. split; [done |]. split; [done |].
    split; [exists []; by rewrite app_nil_r |].
    split; [intros [|??] ???????; discriminate |].
    split; [intros [|??] ??????; discriminate | done].
  - destruct (merge_ruleSet_spec f0 rs0 st _ Hinv)
      as (st1 & Hdoc & Hinv1 & (extra1 & Hc1 & Hsh1) & Hredef & Hdang & Hother & _).
    assert (Hinv1' : in_step (first_definer w (P ++ [f0])) st1).
    { eapply in_step_ext; [| exact Hinv1]. intros k. by apply first_definer_snoc. }
    destruct (IH _ _ Hinv1')
      as (st' & Hloop & Hinv' & (extra & Hc' & Hsh) & Hredef' & Hdang' & Hother').
    exists st'. cbn [for_of]. unfold merge_file at 1, loadRuleSet. rewrite Hf0.
    cbn [bind]. rewrite Hdoc. cbn [bind]. split; [done |].
    split; [by rewrite <- app_assoc in Hinv' |].
    split.
    { exists (extra1 ++ extra). rewrite Hc', Hc1, <- app_assoc. split; [done |].
      apply Forall_app. split.
      - eapply Forall_impl; [exact Hsh1 |]. intros c. apply conflict_of_mono. set_solver.
      - eapply Forall_impl; [exact Hsh |]. intros c. apply conflict_of_mono. set_solver. }
    split.
    { intros [|f1 P1] f P2 ruleSet k r g Heq Hf Hin Hk; simplify_eq/=.
      - rewrite app_nil_r in Hk. rewrite Hc'. apply elem_of_app. left. by eapply Hredef.
      - eapply (Hredef' P1); [done | done | done |]. by rewrite <- app_assoc. }
    split.
    { intros [|f1 P1] f P2 ruleSet k o Heq Hf Hin Hk; simplify_eq/=.
      - rewrite Hc'. apply elem_of_app. left. eapply Hdang; [done |].
        by erewrite first_definer_snoc.
      - eapply (Hdang' P1); [done | done | done |]. by rewrite <- app_assoc. }
    intros k Hk. apply Forall_cons in Hk as [Hk0 Hk].
    rewrite Hother' by done. destruct (not_mentioned _ _ _ _ Hf0 Hk0). by apply Hother.
Qed.

Lemma in_step_empty w : in_step (first_definer w []) empty_merge.
Proof. intros k. done. Qed.

(** Every path of a resolved chain was loaded during resolution. *)
Lemma resolve_chain_present fuel w p visited chain :
  resolveInheritanceChain_fuel fuel w p visited = Ok chain →
  Forall (fun f => is_Some (files w !! f)) chain.
Proof.
  revert p visited chain. induction fuel as [|fuel IH]; intros p visited chain; [done |].
  intros Hok. apply resolve_Ok_inv in Hok as (_ & ruleSet & Hfile & Hcase).
  destruct Hcase as [[_ ->] | (parents & chains & _ & _ & HF & ->)].
  - constructor; [by eexists | done].
  - apply Forall_app. split; [| constructor; [by eexists | done]].
    apply Forall_concat. clear -HF IH.
    induction HF as [|q c qs cs Hc HF IH']; constructor; [by eapply IH | done].
Qed.

(** Merging a resolved chain never throws. *)
Lemma resolveRules_Ok w p chain :
  resolveInheritanceChain w p = Ok chain →
  ∃ st, merge_chain w chain = Ok st ∧
        resolveRules w p =
          Ok {| resolved_rules := mergedRules st;
                resolved_sources := sources st;
                conflicts := merge_conflicts st |}.
Proof.
  intros Hchain. pose proof (resolve_chain_present _ _ _ _ _ Hchain) as Hpres.
  destruct (merge_files_spec w chain Hpres [] empty_merge (in_step_empty w))
    as (st & Hst & _).
  exists st. split; [done |]. unfold resolveRules. rewrite Hchain. cbn [bind].
  unfold merge_chain. rewrite Hst. done.
Qed.






End MergeFacts.

Module ValidationFacts.
Import JS RuleResolver Notions ResolverFacts MergeFacts.

(** *** Classification of the conflicts *)

Lemma classify_conflicts_spec cs es ws :
  classify_conflicts cs (es, ws) =
  (es ++ map conflict (List.filter (fun c => includes "non-existent" (conflict c)) cs),
   ws ++ map conflict (List.filter (fun c => negb (includes "non-existent" (conflict c))) cs)).
Proof.
  unfold classify_conflicts. revert es ws.
  induction cs as [|c cs IH]; intros es ws; simpl.
  - by rewrite !app_nil_r.
  - unfold classify_conflict at 2. simpl.
    destruct (includes "non-existent" (conflict c)); simpl; rewrite IH;
      by rewrite <- ?app_assoc.
Qed.

Lemma duplicate_ids_app ids seen es :
  duplicate_ids ids seen es = es ++ duplicate_ids ids seen [].
Proof.
  revert seen es. induction ids as [|k ids IH]; intros seen es; simpl.
  - by rewrite app_nil_r.
  - destruct (decide (k ∈ seen)).
    + rewrite IH, (IH _ [_]). by rewrite <- app_assoc.
    + apply IH.
Qed.

Lemma required_fields_app rules es :
  required_fields rules es =
  es ++ flat_map (fun '(ruleId, rule) => required_fields_of ruleId rule) rules.
Proof.
  unfold required_fields, entries. revert es.
  induction rules as [|[k r] rules IH]; intros es; simpl.
  - by rewrite app_nil_r.
  - rewrite IH. by rewrite <- app_assoc.
Qed.

Lemma validate_resolved_errors r :
  errors (validate_resolved r) =
  map conflict (List.filter (fun c => includes "non-existent" (conflict c)) (conflicts r)) ++
  rule_set_errors (resolved_rules r).
Proof.
  unfold validate_resolved, rule_set_errors. rewrite classify_conflicts_spec. simpl.
  rewrite duplicate_ids_app, required_fields_app.
  rewrite (required_fields_app _ (duplicate_ids _ _ _)). by rewrite <- app_assoc.
Qed.


Lemma validate_resolved_valid r :
  valid (validate_resolved r) = true ↔ errors (validate_resolved r) = [].
Proof.
  unfold validate_resolved. destruct (classify_conflicts _ _) as [es ws]. simpl.
  rewrite Nat.eqb_eq. apply length_zero_iff_nil.
Qed.





(** The conflicts of a resolved chain, with what the merge guarantees. *)
Lemma resolveRules_conflicts w p chain :
  resolveInheritanceChain w p = Ok chain →
  ∃ r, resolveRules w p = Ok r ∧
    Forall (conflict_of chain) (conflicts r) ∧
    (∀ pre F post ruleSet k o,
        chain = pre ++ F :: post → files w !! F = Some ruleSet →
        (k, o) ∈ entries_of (overrides ruleSet) →
        first_definer w (pre ++ [F]) k = None →
        dangling_override k F ∈ conflicts r) ∧
    (∀ pre F post ruleSet k rule g,
        chain = pre ++ F :: post → files w !! F = Some ruleSet →
        (k, rule) ∈ entries_of (rules ruleSet) →
        first_definer w pre k = Some g →
        redefinition k F (Some g) ∈ conflicts r).
Proof.
  intros Hchain. destruct (resolveRules_Ok _ _ _ Hchain) as (st & Hmerge & Hres).
  eexists. split; [exact Hres |]. cbn [conflicts].
  pose proof (resolve_chain_present _ _ _ _ _ Hchain) as Hpres.
  destruct (merge_files_spec w _ Hpres [] empty_merge (in_step_empty w))
    as (st' & Hst' & _ & (extra & Hextra & Hshape) & Hredef & Hdang & _).
  unfold merge_chain in Hmerge. rewrite Hmerge in Hst'. injection Hst' as <-.
  simpl in Hextra. rewrite Hextra. split; [done |]. rewrite <- Hextra. split.
  - intros pre F post ruleSet k o -> HF Hin Hnone. by eapply (Hdang pre F post).
  - intros pre F post ruleSet k rule g -> HF Hin Hfirst. by eapply (Hredef pre F post).
Qed.


Example misnamed_world_validation :
  validateRules Examples.misnamed_world "/non-existent-team.json" =
  Ok {| valid := false;
        errors := ["Rule redefined in /non-existent-team.json"];
        warnings := [] |}.
Proof. vm_compute. reflexivity. Qed.

Example misnamed_world_rules :
  resolveRules Examples.misnamed_world "/non-existent-team.json" =
  Ok {| resolved_rules := [("r1", Examples.rule_named "two" "LOW" true)];
        resolved_sources := [("r1", ["/base.json"; "/non-existent-team.json"])];
        conflicts := [redefinition "r1" "/non-existent-team.json" (Some "/base.json")] |}.
Proof. vm_compute. reflexivity. Qed.


Example redefinition_reported_as_error : ¬ AsWorded.redefinitions_only_warn.
Proof.
  intros H.
  destruct (H _ _ _ _ misnamed_world_rules misnamed_world_validation) as [Hw _].
  specialize (Hw (redefinition "r1" "/non-existent-team.json" (Some "/base.json"))).
  simpl in Hw. by apply elem_of_nil in Hw; [| left |].
Qed.



End ValidationFacts.

Module SortFacts.
Import JS RuleResolver Notions ResolverFacts MergeFacts.

(** *** The sort, for a comparator that subtracts numeric keys *)

Section by_key.
Context {A : Type} (key : A → option Z).


Lemma sort_insert_perm x l : sort_insert (cmp_by key) x l ≡ₚ x :: l.
Proof.
  induction l as [|y l IH]; simpl; [done |].
  destruct (comes_after _); [| done]. rewrite IH. apply Permutation_swap.
Qed.

Lemma sort_perm l : sort (cmp_by key) l ≡ₚ l.
Proof.
  induction l as [|x l IH]; simpl; [done |]. by rewrite sort_insert_perm, IH.
Qed.




End by_key.

(** *** The effective rules *)

Lemma by_severity_key a b :
  by_severity a b = cmp_by (fun rule => severityOrder (severity rule)) a b.
Proof. reflexivity. Qed.

Lemma sort_ext {A} (cmp cmp' : A → A → option Z) l :
  (∀ a b, cmp a b = cmp' a b) → sort cmp l = sort cmp' l.
Proof.
  intros Heq. induction l as [|x l IH]; simpl; [done |]. rewrite IH.
  generalize (sort cmp' l). intros l'. induction l' as [|y l' IH']; simpl; [done |].
  by rewrite Heq, IH'.
Qed.


(** A key assigned for the first time goes to the end of the enumeration;
    a key assigned again keeps its place. *)
Lemma obj_set_keys {V} k (v : V) o :
  keys (obj_set k v o) = if bool_decide (k ∈ keys o) then keys o else keys o ++ [k].
Proof.
  unfold keys. induction o as [|[k' v'] o IH]; simpl; [done |].
  destruct (String.eqb k' k) eqn:E.
  - apply String.eqb_eq in E as ->. simpl. rewrite bool_decide_eq_true_2; [done | left].
  - apply String.eqb_neq in E. simpl. rewrite IH.
    destruct (decide (k ∈ map fst o)).
    + rewrite !bool_decide_eq_true_2; [done | by right | done].
    + rewrite !bool_decide_eq_false_2; [done | | done].
      rewrite not_elem_of_cons. naive_solver.
Qed.

(** *** The enumeration order of the merged rules *)

Lemma merge_rule_rules filePath k rule st st' :
  merge_rule filePath (k, rule) st = Ok st' →
  mergedRules st' = obj_set k rule (mergedRules st).
Proof.
  unfold merge_rule. intros H.
  apply bind_Ok in H as (cs & _ & H). apply bind_Ok in H as (srcs & _ & H).
  by injection H as <-.
Qed.

Lemma apply_override_keys filePath k override st st' :
  apply_override filePath (k, override) st = Ok st' →
  keys (mergedRules st') = keys (mergedRules st).
Proof.
  unfold apply_override. destruct (obj_get k (mergedRules st)) as [existing|] eqn:Hget.
  - intros H. apply bind_Ok in H as (srcs & _ & H). injection H as <-. simpl.
    rewrite obj_set_keys, bool_decide_eq_true_2; [done |].
    destruct (decide (k ∈ keys (mergedRules st))) as [|Hn]; [done |].
    apply obj_get_None_keys in Hn. congruence.
  - by intros [= <-].
Qed.

Lemma merge_rules_keys filePath es st st' :
  for_of (merge_rule filePath) es st = Ok st' →
  keys (mergedRules st') = fold_left meet (keys es) (keys (mergedRules st)).
Proof.
  revert st. induction es as [|[k rule] es IH]; intros st; simpl.
  - by intros [= <-].
  - intros H. apply bind_Ok in H as (st1 & Hstep & Hrest).
    rewrite (IH _ Hrest), (merge_rule_rules _ _ _ _ _ Hstep), obj_set_keys. done.
Qed.

Lemma apply_overrides_keys filePath os st st' :
  for_of (apply_override filePath) os st = Ok st' →
  keys (mergedRules st') = keys (mergedRules st).
Proof.
  revert st. induction os as [|[k override] os IH]; intros st; simpl.
  - by intros [= <-].
  - intros H. apply bind_Ok in H as (st1 & Hstep & Hrest).
    by rewrite (IH _ Hrest), (apply_override_keys _ _ _ _ _ Hstep).
Qed.

Lemma merge_files_keys w chain st st' :
  for_of (merge_file w) chain st = Ok st' →
  keys (mergedRules st') =
  fold_left
    (fun seen filePath =>
       match files w !! filePath with
       | Some ruleSet => fold_left meet (keys (entries_of (rules ruleSet))) seen
       | None => seen
       end)
    chain (keys (mergedRules st)).
Proof.
  revert st. induction chain as [|f chain IH]; intros st; simpl.
  - by intros [= <-].
  - intros H. apply bind_Ok in H as (st1 & Hstep & Hrest).
    rewrite (IH _ Hrest). f_equal.
    unfold merge_file, loadRuleSet in Hstep.
    destruct (files w !! f) as [ruleSet|]; [| done]. simpl in Hstep.
    unfold merge_ruleSet in Hstep. apply bind_Ok in Hstep as (st0 & Hrules & Hover).
    by rewrite (apply_overrides_keys _ _ _ _ Hover), (merge_rules_keys _ _ _ _ Hrules).
Qed.

(** [Object.values] enumerates the merged rules in merge-encounter order. *)
Lemma resolved_rules_order w p r :
  resolveRules w p = Ok r →
  ∃ chain, resolveInheritanceChain w p = Ok chain ∧
           keys (resolved_rules r) = encounter_order w chain.
Proof.
  unfold resolveRules. intros H. apply bind_Ok in H as (chain & Hchain & H).
  apply bind_Ok in H as (st & Hst & H). injection H as <-.
  exists chain. split; [done |]. simpl. by apply merge_files_keys in Hst.
Qed.

Example severity_world_rules :
  resolveRules Examples.severity_world "/project.json" = Ok Examples.severity_resolved.
Proof. vm_compute. reflexivity. Qed.

(** MEDIUM, CRITICAL, (disabled), LOW, HIGH, CRITICAL come out as
    CRITICAL, CRITICAL, HIGH, MEDIUM, LOW, the two CRITICAL rules in the
    order they were merged. *)
Example severity_world_effective :
  getEffectiveRules Examples.severity_world "/project.json" =
  Ok [Examples.rule_named "c1" "CRITICAL" true;
      Examples.rule_named "c2" "CRITICAL" true;
      Examples.rule_named "h" "HIGH" true;
      Examples.rule_named "m" "MEDIUM" true;
      Examples.rule_named "l" "LOW" true].
Proof. vm_compute. reflexivity. Qed.

(** The project layer disables the base rule: only proj-rule is
    effective, and validation reports neither errors nor warnings. *)
Example scenario_world_effective :
  getEffectiveRules Examples.scenario_world "/project.json" =
    Ok [Examples.rule_named "proj" "HIGH" true] ∧
  validateRules Examples.scenario_world "/project.json" =
    Ok {| valid := true; errors := []; warnings := [] |}.
Proof. split; vm_compute; reflexivity. Qed.



End SortFacts.

Module CliFacts.
Import JS RuleResolver ConstitutionalRules Notions ResolverFacts MergeFacts ValidationFacts.

(** *** Nothing after chain resolution can run out of fuel *)

Lemma for_of_fuel {A S} (step : A → S → result S) xs acc :
  (∀ x acc, step x acc ≠ OutOfFuel) → for_of step xs acc ≠ OutOfFuel.
Proof.
  intros Hstep. revert acc. induction xs as [|x xs IH]; intros acc; simpl; [done |].
  destruct (step x acc) eqn:E; simpl; [apply IH | done |]. by destruct (Hstep x acc).
Qed.

Lemma merge_rule_fuel filePath entry st : merge_rule filePath entry st ≠ OutOfFuel.
Proof.
  destruct entry as [k rule]. unfold merge_rule, sources_push.
  destruct (obj_get k (sources st)) eqn:E; destruct (truthy_object _); simpl;
    rewrite ?E, ?obj_get_set_eq; done.
Qed.

Lemma apply_override_fuel filePath entry st : apply_override filePath entry st ≠ OutOfFuel.
Proof.
  destruct entry as [k override]. unfold apply_override, sources_push.
  destruct (obj_get k (mergedRules st)); [| done].
  by destruct (obj_get k (sources st)).
Qed.

Lemma merge_chain_fuel w chain : merge_chain w chain ≠ OutOfFuel.
Proof.
  apply for_of_fuel. intros f st. unfold merge_file, loadRuleSet.
  destruct (files w !! f) as [ruleSet|]; [| done]. simpl. unfold merge_ruleSet.
  intros H. apply bind_OutOfFuel in H as [H | (st' & _ & H)]; revert H.
  - apply for_of_fuel, merge_rule_fuel.
  - apply for_of_fuel, apply_override_fuel.
Qed.

Lemma resolveRules_fuel w p : resolveRules w p ≠ OutOfFuel.
Proof.
  unfold resolveRules. intros H.
  apply bind_OutOfFuel in H as [H | (chain & _ & H)].
  - by destruct (resolveInheritanceChain_terminates w p).
  - apply bind_OutOfFuel in H as [H | (st & _ & H)]; [| done].
    by destruct (merge_chain_fuel w chain).
Qed.

(** *** The checks of the command-line validator *)

Lemma check_rules_spec rules es ws :
  ValidateCli.check_rules rules (es, ws) =
  (es ++ flat_map (fun '(k, rule) => ValidateCli.rule_errors k rule) rules,
   ws ++ flat_map (fun '(k, rule) => ValidateCli.rule_warnings k rule) rules).
Proof.
  unfold ValidateCli.check_rules, entries. revert es ws.
  induction rules as [|[k rule] rules IH]; intros es ws; simpl.
  - by rewrite !app_nil_r.
  - rewrite IH. by rewrite <- !app_assoc.
Qed.

Lemma report_errors rulesPath validation r :
  ∃ before,
    ValidateCli.errors (ValidateCli.report rulesPath validation r) =
    before ++ flat_map (fun '(k, rule) => ValidateCli.rule_errors k rule) (resolved_rules r).
Proof.
  unfold ValidateCli.report.
  destruct (ValidateCli.report_conflicts _ _) as [es ws].
  rewrite check_rules_spec. simpl. by exists es.
Qed.

Lemma report_valid rulesPath validation r :
  ValidateCli.valid (ValidateCli.report rulesPath validation r) = true ↔
  ValidateCli.errors (ValidateCli.report rulesPath validation r) = [].
Proof.
  unfold ValidateCli.report.
  destruct (ValidateCli.report_conflicts _ _) as [es ws].
  destruct (ValidateCli.check_rules _ _) as [es' ws']. simpl.
  rewrite Nat.eqb_eq. apply length_zero_iff_nil.
Qed.

Lemma validate_at_valid w rulesPath :
  ∃ cv, ValidateCli.validate_at w rulesPath = Ok cv ∧
        (ValidateCli.valid cv = true ↔ ValidateCli.errors cv = []).
Proof.
  unfold ValidateCli.validate_at, validateRules.
  destruct (resolveRules w rulesPath) as [r|e|] eqn:Hr; simpl.
  - eexists. split; [reflexivity |]. apply report_valid.
  - eexists. split; [reflexivity |]. simpl. split; done.
  - by destruct (resolveRules_fuel w rulesPath).
Qed.

Lemma flat_map_elem {A B} (f : A → list B) l x y :
  x ∈ l → y ∈ f x → y ∈ flat_map f l.
Proof.
  intros Hx Hy. apply list_elem_of_In, in_flat_map. exists x.
  split; by apply list_elem_of_In.
Qed.

Lemma empty_field_falsy o : empty_field o → truthy_string o = false.
Proof. by intros [-> | ->]. Qed.

Lemma allowed_severity_literal rule s :
  severity rule = Some s → ValidateCli.allowed_severity s = true → severity_literal rule.
Proof.
  intros Hs Hin. exists s. split; [done |]. by apply bool_decide_eq_true in Hin.
Qed.

(** What the faulty example validates to, in both validators. *)
Example faulty_world_rules :
  resolveRules Examples.faulty_world "/a.json" = Ok Examples.faulty_resolved.
Proof. vm_compute. reflexivity. Qed.

Example faulty_world_validateRules :
  validateRules Examples.faulty_world "/a.json" =
  Ok {| valid := false;
        errors := ["Rule odd missing required field: name";
                   "Rule bare missing required field: description";
                   "Rule bare missing required field: severity"];
        warnings := [] |}.
Proof. vm_compute. reflexivity. Qed.

Example faulty_world_cli_errors :
  ∃ cv, ValidateCli.validateConstitutionalRules Examples.faulty_world (Some "/a.json") = Ok cv ∧
        ValidateCli.valid cv = false ∧
        ValidateCli.errors cv =
          ["Rule odd missing required field: name";
           "Rule bare missing required field: description";
           "Rule bare missing required field: severity";
           "Rule odd: missing required field 'name'";
           "Rule odd: invalid severity 'URGENT' (must be CRITICAL, HIGH, MEDIUM, or LOW)";
           "Rule bare: missing required field 'description'";
           "Rule bare: missing required field 'severity'"].
Proof. eexists. split; [vm_compute; reflexivity |]. split; reflexivity. Qed.

Example urgent_world_rules :
  resolveRules Examples.urgent_world "/a.json" = Ok Examples.urgent_resolved.
Proof. vm_compute. reflexivity. Qed.

Example urgent_world_validateRules :
  validateRules Examples.urgent_world "/a.json" =
  Ok {| valid := true; errors := []; warnings := [] |}.
Proof. vm_compute. reflexivity. Qed.

(** C6, as worded, fails for [validateRules]: a rule that is complete but
    carries the severity "URGENT" validates without any error. *)
Lemma validation_counterexample : ¬ AsWorded.validator_checks_literals.
Proof.
  intros H.
  destruct (H Examples.urgent_world "/a.json" Examples.urgent_resolved urgent_world_rules)
    as (v & Hv & _ & Herr).
  rewrite urgent_world_validateRules in Hv. injection Hv as <-.
  apply (Herr "r1" (Examples.rule_named "one" "URGENT" true)); [left | | done].
  right. right. right. intros (s & [= <-] & Hs).
  repeat (apply elem_of_cons in Hs as [Hs | Hs]; [discriminate Hs |]).
  by apply elem_of_nil in Hs.
Qed.

(** C6, amended. For every merged rule set, [validateRules] reports an
    error for each rule whose name, description or severity is empty, and
    the command-line validator built on it ([validateConstitutionalRules])
    reports these and an error for each rule whose severity is not one of
    CRITICAL, HIGH, MEDIUM, LOW (the missing-severity error when it is
    empty, the invalid-severity error otherwise); in both, valid is true
    exactly when the error list is empty. *)
Theorem validation_reports_fields w p r :
  resolveRules w p = Ok r →
  (validateRules w p = Ok (validate_resolved r) ∧
   (valid (validate_resolved r) = true ↔ errors (validate_resolved r) = []) ∧
   ∀ k rule, (k, rule) ∈ resolved_rules r →
     (empty_field (name rule) →
        ("Rule " +:+ k +:+ " missing required field: name") ∈ errors (validate_resolved r)) ∧
     (empty_field (description rule) →
        ("Rule " +:+ k +:+ " missing required field: description") ∈ errors (validate_resolved r)) ∧
     (empty_field (severity rule) →
        ("Rule " +:+ k +:+ " missing required field: severity") ∈ errors (validate_resolved r))) ∧
  (∃ cv, ValidateCli.validate_at w p = Ok cv ∧
     (∀ f, f ≠ "" → path_resolve w [f] = p → existsSync w p = true →
           ValidateCli.validateConstitutionalRules w (Some f) = Ok cv) ∧
     (p ≠ "" → getConstitutionalRulesPath w None = Some p →
           ValidateCli.validateConstitutionalRules w None = Ok cv) ∧
     (ValidateCli.valid cv = true ↔ ValidateCli.errors cv = []) ∧
     ∀ k rule, (k, rule) ∈ resolved_rules r →
       (empty_field (name rule) →
          ("Rule " +:+ k +:+ ": missing required field 'name'") ∈ ValidateCli.errors cv) ∧
       (empty_field (description rule) →
          ("Rule " +:+ k +:+ ": missing required field 'description'") ∈ ValidateCli.errors cv) ∧
       (empty_field (severity rule) →
          ("Rule " +:+ k +:+ ": missing required field 'severity'") ∈ ValidateCli.errors cv) ∧
       (¬ severity_literal rule → ¬ empty_field (severity rule) →
          ("Rule " +:+ k +:+ ": invalid severity '" +:+ show (severity rule) +:+
           "' (must be CRITICAL, HIGH, MEDIUM, or LOW)") ∈ ValidateCli.errors cv)) ∧
  (∀ rulesFilePath, ∃ cv,
     ValidateCli.validateConstitutionalRules w rulesFilePath = Ok cv ∧
     (ValidateCli.valid cv = true ↔ ValidateCli.errors cv = [])).
Proof.
  intros Hr. split; [| split].
  - split; [unfold validateRules; by rewrite Hr |].
    split; [apply validate_resolved_valid |].
    intros k rule Hin. rewrite validate_resolved_errors.
    unfold rule_set_errors. rewrite required_fields_app.
    repeat split; intros Hempty%empty_field_falsy; apply elem_of_app; right;
      apply elem_of_app; right;
      apply (flat_map_elem _ _ (k, rule)); [done | | done | | done |];
      unfold required_fields_of; rewrite Hempty; set_solver.
  - exists (ValidateCli.report p (validate_resolved r) r).
    assert (Hat : ValidateCli.validate_at w p =
                  Ok (ValidateCli.report p (validate_resolved r) r)).
    { unfold ValidateCli.validate_at, validateRules. by rewrite Hr. }
    split; [done |]. split.
    { intros f Hf Hp Hex. unfold ValidateCli.validateConstitutionalRules. simpl.
      destruct (String.eqb f "") eqn:E; [by apply String.eqb_eq in E |].
      simpl. by rewrite Hp, Hex. }
    split.
    { intros Hp Hpath. unfold ValidateCli.validateConstitutionalRules. simpl.
      rewrite Hpath. simpl. apply String.eqb_neq in Hp. by rewrite Hp. }
    split; [apply report_valid |].
    intros k rule Hin.
    destruct (report_errors p (validate_resolved r) r) as (before & ->).
    repeat split.
    1-3: intros Hempty%empty_field_falsy; apply elem_of_app; right;
      apply (flat_map_elem _ _ (k, rule)); [done |];
      unfold ValidateCli.rule_errors; rewrite Hempty; set_solver.
    intros Hlit Hne. apply elem_of_app. right.
    apply (flat_map_elem _ _ (k, rule)); [done |].
    unfold ValidateCli.rule_errors.
    assert (truthy_string (severity rule) = true) as ->.
    { destruct (severity rule) as [s|] eqn:Hs; [| destruct Hne; by left].
      simpl. destruct (String.eqb s "") eqn:E; [| done].
      apply String.eqb_eq in E as ->. destruct Hne. by right. }
    assert (ValidateCli.allowed_severity (show (severity rule)) = false) as ->.
    { destruct (severity rule) as [s|] eqn:Hs; [| destruct Hne; by left].
      simpl. destruct (ValidateCli.allowed_severity s) eqn:E; [| done].
      destruct Hlit. by eapply allowed_severity_literal. }
    simpl. set_solver.
  - intros rulesFilePath. unfold ValidateCli.validateConstitutionalRules.
    destruct (truthy_string rulesFilePath).
    + destruct (existsSync w _); [apply validate_at_valid |].
      eexists. split; [reflexivity |]. simpl. split; done.
    + destruct (truthy_string (getConstitutionalRulesPath w None));
        [apply validate_at_valid |].
      eexists. split; [reflexivity |]. simpl. split; done.
Qed.

Lemma validation_reports_fields_witness :
  validateRules Examples.faulty_world "/a.json" =
    Ok (validate_resolved Examples.faulty_resolved) ∧
  "Rule odd missing required field: name"
    ∈ errors (validate_resolved Examples.faulty_resolved) ∧
  ∃ cv, ValidateCli.validateConstitutionalRules Examples.faulty_world (Some "/a.json") = Ok cv ∧
        "Rule odd: invalid severity 'URGENT' (must be CRITICAL, HIGH, MEDIUM, or LOW)"
          ∈ ValidateCli.errors cv ∧
        "Rule bare: missing required field 'severity'" ∈ ValidateCli.errors cv.
Proof.
  destruct (validation_reports_fields Examples.faulty_world "/a.json"
              Examples.faulty_resolved)
    as ((Hcore & _ & Hfields) & (cv & _ & Hcli & _ & _ & Hcv) & _).
  { vm_compute. reflexivity. }
  assert (Hodd : ("odd", Examples.odd_rule) ∈ resolved_rules Examples.faulty_resolved)
    by left.
  assert (Hbare : ("bare", Examples.bare_rule) ∈ resolved_rules Examples.faulty_resolved)
    by (right; left).
  split; [exact Hcore |]. split.
  - apply (proj1 (Hfields "odd" Examples.odd_rule Hodd)). by right.
  - exists cv. split; [apply Hcli; [discriminate | reflexivity | reflexivity] |]. split.
    + apply (proj2 (proj2 (proj2 (Hcv "odd" Examples.odd_rule Hodd)))).
      * intros (s & [= <-] & Hs).
        repeat (apply elem_of_cons in Hs as [Hs | Hs]; [discriminate Hs |]).
        by apply elem_of_nil in Hs.
      * intros [H | H]; discriminate H.
    + apply (proj1 (proj2 (proj2 (Hcv "bare" Examples.bare_rule Hbare)))). by left.
Defined.

End CliFacts.

Module StoreFacts.
Import JS RuleResolver ConstitutionalRules Constitution Notions StoreNotions.

(** *** Append, reset and sweep *)

Lemma push_capped_length rule l :
  (length l ≤ MAX_RULES_PER_SESSION)%nat →
  (length (push_capped rule l) ≤ MAX_RULES_PER_SESSION)%nat.
Proof.
  intros Hle. unfold push_capped.
  destruct (Nat.leb_spec MAX_RULES_PER_SESSION (length l)) as [Hfull | Hroom];
    rewrite length_app; cbn [length].
  - destruct l as [|x l]; [unfold MAX_RULES_PER_SESSION in Hfull; cbn [length] in Hfull; lia |].
    cbn [tail length] in *. lia.
  - lia.
Qed.

(** A full list loses its oldest entry; a list with room loses nothing. *)
Lemma push_capped_full rule oldest l :
  length (oldest :: l) = MAX_RULES_PER_SESSION →
  push_capped rule (oldest :: l) = l ++ [rule].
Proof.
  intros Hlen. unfold push_capped. rewrite Hlen.
  by rewrite Nat.leb_refl.
Qed.

Lemma push_capped_room rule l :
  (length l < MAX_RULES_PER_SESSION)%nat → push_capped rule l = l ++ [rule].
Proof.
  intros Hlen. unfold push_capped.
  destruct (Nat.leb_spec MAX_RULES_PER_SESSION (length l)); [lia | done].
Qed.

Lemma ensure_session_lookup w now sessionId m entry :
  m !! sessionId = Some entry → ensure_session w now sessionId m = m.
Proof. intros H. unfold ensure_session. by rewrite H. Qed.

(** The entry a session gets on first touch. *)
Lemma ensure_session_fresh w now sessionId m :
  m !! sessionId = None →
  ensure_session w now sessionId m =
  <[sessionId :=
      if truthy_string (getConstitutionalRulesPath w None)
      then {| rules := loadConstitutionalRulesAsStrings w None;
              fileLoaded := true; updated := now |}
      else {| rules := []; fileLoaded := false; updated := now |}]> m.
Proof.
  intros H. unfold ensure_session, initializeSessionConstitution. rewrite H. simpl.
  by destruct (truthy_string (getConstitutionalRulesPath w None)).
Qed.

Lemma updateConstitution_existing w now sessionId rule m entry :
  sessionId ≠ "" → rule ≠ "" → m !! sessionId = Some entry →
  updateConstitution w now sessionId rule m =
  <[sessionId := {| rules := push_capped rule (rules entry);
                    fileLoaded := fileLoaded entry;
                    updated := now |}]> m.
Proof.
  intros Hs Hr Hm. unfold updateConstitution. simpl.
  apply String.eqb_neq in Hs, Hr. rewrite Hs, Hr. simpl.
  by rewrite (ensure_session_lookup _ _ _ _ _ Hm), Hm.
Qed.

Lemma getConstitution_existing w now sessionId m entry :
  m !! sessionId = Some entry →
  getConstitution w now sessionId m =
  (<[sessionId := {| rules := rules entry;
                     fileLoaded := fileLoaded entry;
                     updated := now |}]> m,
   rules entry).
Proof.
  intros Hm. unfold getConstitution.
  by rewrite (ensure_session_lookup _ _ _ _ _ Hm), Hm.
Qed.

Lemma cleanup_lookup now m sessionId :
  cleanup now m !! sessionId =
  match m !! sessionId with
  | Some entry => if stale now entry then None else Some entry
  | None => None
  end.
Proof.
  unfold cleanup. destruct (m !! sessionId) as [entry|] eqn:Hm.
  - destruct (stale now entry) eqn:Hs.
    + apply map_lookup_filter_None. right. intros e He. simpl.
      rewrite Hm in He. injection He as <-. congruence.
    + apply map_lookup_filter_Some. done.
  - apply map_lookup_filter_None. by left.
Qed.

(** *** Runs of appends *)

Lemma fold_push_room rs l :
  (length l + length rs ≤ MAX_RULES_PER_SESSION)%nat →
  fold_left (fun l rule => push_capped rule l) rs l = l ++ rs.
Proof.
  revert l. induction rs as [|r rs IH]; intros l Hlen; simpl.
  - by rewrite app_nil_r.
  - simpl in Hlen. rewrite push_capped_room by lia.
    rewrite IH; [by rewrite <- app_assoc |]. rewrite length_app. simpl. lia.
Qed.

Lemma append_all_existing w sessionId timed m entry :
  sessionId ≠ "" → Forall (fun tr => tr.2 ≠ "") timed →
  m !! sessionId = Some entry →
  ∃ entry', append_all w sessionId timed m !! sessionId = Some entry' ∧
            rules entry' =
              fold_left (fun l rule => push_capped rule l) (map snd timed) (rules entry) ∧
            fileLoaded entry' = fileLoaded entry.
Proof.
  intros Hs Hne. revert m entry.
  induction Hne as [|[now rule] timed Hr Hne IH]; intros m entry Hm; simpl.
  - by exists entry.
  - rewrite (updateConstitution_existing _ _ _ _ _ _ Hs Hr Hm).
    edestruct IH as (entry' & Hlook & Hrules & Hfile); [apply lookup_insert_eq |].
    exists entry'. done.
Qed.

Lemma first_append w now sessionId rule m :
  sessionId ≠ "" → rule ≠ "" → starts_empty w sessionId m →
  ∃ entry, updateConstitution w now sessionId rule m !! sessionId = Some entry ∧
           rules entry = [rule].
Proof.
  intros Hs Hr Hstart. unfold starts_empty in Hstart.
  destruct (m !! sessionId) as [entry|] eqn:Hm.
  - rewrite (updateConstitution_existing _ _ _ _ _ _ Hs Hr Hm).
    rewrite lookup_insert_eq. eexists. split; [done |]. simpl.
    rewrite Hstart. reflexivity.
  - unfold updateConstitution. simpl.
    pose proof Hs as Hs'. pose proof Hr as Hr'.
    apply String.eqb_neq in Hs', Hr'. rewrite Hs', Hr'. simpl.
    rewrite (ensure_session_fresh _ _ _ _ Hm), Hstart, lookup_insert_eq.
    rewrite lookup_insert_eq. eexists. split; [done |]. reflexivity.
Qed.

(** *** The capacity *)

Lemma updateConstitution_bounded w now sessionId rule m :
  (length (loadConstitutionalRulesAsStrings w None) ≤ MAX_RULES_PER_SESSION)%nat →
  bounded m → bounded (updateConstitution w now sessionId rule m).
Proof.
  intros Hfile Hm. unfold updateConstitution.
  destruct (_ || _); [done |].
  assert (Hens : bounded (ensure_session w now sessionId m)).
  { destruct (m !! sessionId) as [entry|] eqn:Hlook.
    - by rewrite (ensure_session_lookup _ _ _ _ _ Hlook).
    - rewrite (ensure_session_fresh _ _ _ _ Hlook).
      intros sid e He. apply lookup_insert_Some in He as [[_ <-] | [_ He]]; [| by eapply Hm].
      destruct (truthy_string (getConstitutionalRulesPath w None)); simpl; [done | lia]. }
  destruct (ensure_session w now sessionId m !! sessionId) as [entry|] eqn:Hlook; [| done].
  intros sid e He. apply lookup_insert_Some in He as [[_ <-] | [_ He]]; [| by eapply Hens].
  simpl. apply push_capped_length. by eapply Hens.
Qed.

Lemma resetConstitution_bounded now sessionId rs m :
  bounded m → bounded (resetConstitution now sessionId rs m).
Proof.
  intros Hm. unfold resetConstitution. destruct (negb _); [done |].
  intros sid e He. apply lookup_insert_Some in He as [[_ <-] | [_ He]]; [| by eapply Hm].
  simpl. rewrite length_take. lia.
Qed.

Lemma getConstitution_bounded w now sessionId m :
  (length (loadConstitutionalRulesAsStrings w None) ≤ MAX_RULES_PER_SESSION)%nat →
  bounded m → bounded (getConstitution w now sessionId m).1.
Proof.
  intros Hfile Hm. unfold getConstitution.
  assert (Hens : bounded (ensure_session w now sessionId m)).
  { destruct (m !! sessionId) as [entry|] eqn:Hlook.
    - by rewrite (ensure_session_lookup _ _ _ _ _ Hlook).
    - rewrite (ensure_session_fresh _ _ _ _ Hlook).
      intros sid e He. apply lookup_insert_Some in He as [[_ <-] | [_ He]]; [| by eapply Hm].
      destruct (truthy_string (getConstitutionalRulesPath w None)); simpl; [done | lia]. }
  destruct (ensure_session w now sessionId m !! sessionId) as [entry|] eqn:Hlook; [| done].
  simpl. intros sid e He.
  apply lookup_insert_Some in He as [[_ <-] | [_ He]]; [| by eapply Hens].
  simpl. by eapply Hens.
Qed.

Lemma cleanup_bounded now m : bounded m → bounded (cleanup now m).
Proof.
  intros Hm sid e He. rewrite cleanup_lookup in He.
  destruct (m !! sid) as [e'|] eqn:Hlook; [| done].
  destruct (stale now e'); [done |]. injection He as <-. by eapply Hm.
Qed.

(** The capacity is kept by every run whose file-sourced rule lists fit. *)
Lemma run_bounded cs m :
  Forall (fun c => match c with
                   | Get w _ _ | Update w _ _ _ =>
                       (length (loadConstitutionalRulesAsStrings w None)
                        ≤ MAX_RULES_PER_SESSION)%nat
                   | _ => True
                   end) cs →
  bounded m → bounded (run cs m).
Proof.
  intros Hcs. revert m. unfold run.
  induction Hcs as [|c cs Hc Hcs IH]; intros m Hm; simpl; [done |].
  apply IH. destruct c as [w now sid | w now sid rule | now sid rs | now]; simpl.
  - by apply getConstitution_bounded.
  - by apply updateConstitution_bounded.
  - by apply resetConstitution_bounded.
  - by apply cleanup_bounded.
Qed.

(** C7. The capacity bound is broken by lazy initialisation: a rules file
    with 51 enabled rules seeds a session entry of 51 rule strings, and a
    later append shifts one out and pushes one in, so the entry stays at 51.
    (Append and reset alone keep the bound, see [run_bounded],
    [push_capped_full] and [resetConstitution_bounded].) *)
Theorem file_rules_exceed_capacity :
  ∃ entry entry',
    (getConstitution Examples.crowded_world 0 "session" ∅).1 !! "session" = Some entry ∧
    length (rules entry) = 51 ∧
    updateConstitution Examples.crowded_world 1 "session" "one more"
      (getConstitution Examples.crowded_world 0 "session" ∅).1 !! "session" = Some entry' ∧
    length (rules entry') = 51 ∧
    ¬ capacity_invariant.
Proof.
  assert (Hget : ∃ entry,
            (getConstitution Examples.crowded_world 0 "session" ∅).1 !! "session" = Some entry ∧
            length (rules entry) = 51).
  { eexists. split; [vm_compute; reflexivity | reflexivity]. }
  destruct Hget as (entry & Hentry & Hlen).
  exists entry,
    {| rules := push_capped "one more" (rules entry);
       fileLoaded := fileLoaded entry; updated := 1 |}.
  split; [done |]. split; [done |]. split.
  { rewrite (updateConstitution_existing Examples.crowded_world 1 "session" "one more"
               _ entry); [apply lookup_insert_eq | discriminate | discriminate | done]. }
  split.
  { simpl. unfold push_capped. rewrite Hlen. simpl.
    rewrite length_app. simpl. destruct (rules entry); simpl in *; lia. }
  intros Hinv.
  assert (Hb : bounded (run [Get Examples.crowded_world 0 "session"] ∅)).
  { apply Hinv. intros sid e He. by rewrite lookup_empty in He. }
  specialize (Hb "session" entry Hentry). rewrite Hlen in Hb.
  unfold MAX_RULES_PER_SESSION in Hb. lia.
Qed.

(** C8, as worded, fails: an empty rule string is ignored by the guard of
    [updateConstitution], so fifty strings followed by the empty string
    leave all fifty in place. *)
Lemma session_capacity_counterexample : ¬ session_capacity_claim.
Proof.
  intros H.
  destruct (H Examples.bare_world "session"
              (map (fun r => (0%Z, r)) (Examples.appended 50 ++ [""])) ∅)
    as (entry & Hentry & Hrules).
  - vm_compute. reflexivity.
  - vm_compute. reflexivity.
  - vm_compute in Hentry. injection Hentry as <-.
    vm_compute in Hrules. discriminate Hrules.
Qed.

(** C8, amended. For a non-empty session id, a session that starts with
    an empty rule list, and fifty-one non-empty rule strings appended one by
    one, the session's rule list has length exactly fifty and consists of
    the last fifty appended strings in append order: the first-appended
    string has been evicted. *)
Theorem session_capacity w sessionId timed m :
  sessionId ≠ "" → Forall (fun tr => tr.2 ≠ "") timed →
  starts_empty w sessionId m →
  length timed = S MAX_RULES_PER_SESSION →
  ∃ entry, append_all w sessionId timed m !! sessionId = Some entry ∧
           rules entry = tail (map snd timed) ∧
           length (rules entry) = MAX_RULES_PER_SESSION.
Proof.
  intros Hs Hne Hstart Hlen.
  destruct timed as [|[now0 r0] rest]; [done |].
  apply Forall_cons in Hne as [Hr0 Hrest]. simpl in Hr0.
  destruct (first_append w now0 sessionId r0 m Hs Hr0 Hstart) as (e1 & He1 & Hrules1).
  destruct (append_all_existing w sessionId rest _ e1 Hs Hrest He1)
    as (entry & Hentry & Hrules & _).
  exists entry. split; [exact Hentry |].
  assert (Hlen' : length rest = MAX_RULES_PER_SESSION) by (simpl in Hlen; lia).
  destruct rest as [|[now rule] front _] using rev_ind; [done |].
  rewrite length_app in Hlen'. simpl in Hlen'.
  rewrite Hrules, Hrules1, map_app, fold_left_app.
  rewrite (fold_push_room (map snd front) [r0]) by (simpl; rewrite length_map; lia).
  simpl. rewrite push_capped_full by (simpl; rewrite length_map; lia).
  split; [by rewrite map_app |]. rewrite length_app, length_map. simpl. lia.
Qed.

Lemma session_capacity_witness :
  ∃ entry, append_all Examples.bare_world "session"
             (map (fun r => (0%Z, r)) (Examples.appended 51)) ∅ !! "session" = Some entry ∧
           rules entry = tail (map snd (map (fun r => (0%Z, r)) (Examples.appended 51))) ∧
           length (rules entry) = MAX_RULES_PER_SESSION.
Proof.
  apply (session_capacity Examples.bare_world "session"
           (map (fun r => (0%Z, r)) (Examples.appended 51)) ∅).
  - discriminate.
  - vm_compute. repeat constructor; discriminate.
  - vm_compute. reflexivity.
  - reflexivity.
Defined.



End StoreFacts.

Module DiamondFacts.
Import JS RuleResolver Notions ResolverFacts MergeFacts ValidationFacts.

(** *** Counting paths *)











Lemma first_definer_is_Some w P f k :
  f ∈ P → defines w f k = true → is_Some (first_definer w P k).
Proof.
  induction P as [|g P IH]; intros Hin Hdef; [by apply elem_of_nil in Hin |].
  simpl. destruct (defines w g k) eqn:Hg; [by eexists |].
  apply elem_of_cons in Hin as [-> | Hin]; [congruence | by apply IH].
Qed.


(** A successful resolution shows the graph below the root to be acyclic
    and complete. *)
Lemma resolve_Ok_present fuel w p visited chain q :
  resolveInheritanceChain_fuel fuel w p visited = Ok chain →
  rtc (parent_of w) (absolute w p) q → is_Some (files w !! q).
Proof.
  revert p visited chain. induction fuel as [|fuel IH]; intros p visited chain; [done |].
  intros Hok Hreach. apply resolve_Ok_inv in Hok as (_ & ruleSet & Hfile & Hcase).
  apply rtc_inv in Hreach as [<- | (p' & Hstep & Hreach)]; [by eexists |].
  destruct Hstep as (ruleSet' & parents & parentPath & Hfile' & Hext & Hin & ->).
  rewrite Hfile in Hfile'. injection Hfile' as <-.
  destruct Hcase as [[[Hleaf|Hleaf] _] | (parents' & chains & Hext' & _ & HF & _)].
  - congruence.
  - rewrite Hext in Hleaf. injection Hleaf as ->. by apply elem_of_nil in Hin.
  - rewrite Hext in Hext'. injection Hext' as <-.
    apply list_elem_of_lookup in Hin as (i & Hi).
    destruct (Forall2_lookup_l _ _ _ _ _ HF Hi) as (c & _ & Hc).
    by eapply IH.
Qed.

Lemma resolve_Ok_graph w p chain :
  resolveInheritanceChain w p = Ok chain → acyclic_from w p ∧ all_present w p.
Proof.
  intros Hok. split; intros q Hq.
  - by eapply resolve_Ok_acyclic.
  - by eapply resolve_Ok_present.
Qed.







End DiamondFacts.

(** ** The chain as a traversal of the extends graph *)

Module ChainFacts.
Import JS RuleResolver Notions ResolverFacts DiamondFacts.

(** A successful call, seen through the parent relation: the result is
    the chains of the parents followed by the document itself. *)
Lemma resolve_Ok_parents fuel w p visited chain :
  resolveInheritanceChain_fuel (S fuel) w p visited = Ok chain →
  ∃ chains, chain = concat chains ++ [absolute w p] ∧
    (∀ c, c ∈ chains → ∃ pp,
       parent_of w (absolute w p) (absolute w pp) ∧
       resolveInheritanceChain_fuel fuel w pp ({[absolute w p]} ∪ visited) = Ok c) ∧
    (∀ q, parent_of w (absolute w p) q → ∃ pp c,
       q = absolute w pp ∧ c ∈ chains ∧
       resolveInheritanceChain_fuel fuel w pp ({[absolute w p]} ∪ visited) = Ok c).
Proof.
  intros Hok. apply resolve_Ok_inv in Hok as (_ & ruleSet & Hfile & Hcase).
  destruct Hcase as [[Hleaf ->] | (parents & chains & Hext & _ & HF & ->)].
  - exists []. split; [done |]. split.
    + intros c Hc. by apply elem_of_nil in Hc.
    + intros q (ruleSet' & parents & parentPath & Hfile' & Hext & Hin & _).
      rewrite Hfile in Hfile'. injection Hfile' as <-.
      destruct Hleaf as [Hleaf|Hleaf]; [congruence |].
      rewrite Hext in Hleaf. injection Hleaf as ->. by apply elem_of_nil in Hin.
  - exists chains. split; [done |]. split.
    + intros c Hc. apply list_elem_of_lookup in Hc as (i & Hi).
      destruct (Forall2_lookup_r _ _ _ _ _ HF Hi) as (parentPath & Hpp & Hc).
      eexists. split; [| exact Hc].
      eapply parent_of_intro; [done | done |]. by eapply list_elem_of_lookup_2.
    + intros q (ruleSet' & parents' & parentPath & Hfile' & Hext' & Hin & ->).
      rewrite Hfile in Hfile'. injection Hfile' as <-.
      rewrite Hext in Hext'. injection Hext' as <-.
      apply list_elem_of_lookup in Hin as (i & Hi).
      destruct (Forall2_lookup_l _ _ _ _ _ HF Hi) as (c & Hci & Hc).
      eexists _, c. split; [reflexivity |]. split; [| exact Hc].
      by eapply list_elem_of_lookup_2.
Qed.

Lemma elem_of_concat {A} (x : A) (ls : list (list A)) :
  x ∈ concat ls ↔ ∃ l, l ∈ ls ∧ x ∈ l.
Proof.
  rewrite list_elem_of_In, in_concat. split; intros (l & Hl & Hx); exists l.
  - by rewrite !list_elem_of_In.
  - by rewrite <- !list_elem_of_In.
Qed.

(** The chain ends with the document asked for and holds exactly the
    documents reachable from it. *)
Lemma chain_members fuel w p visited chain :
  resolveInheritanceChain_fuel fuel w p visited = Ok chain →
  last chain = Some (absolute w p) ∧
  ∀ f, f ∈ chain ↔ rtc (parent_of w) (absolute w p) f.
Proof.
  revert p visited chain. induction fuel as [|fuel IH]; intros p visited chain; [done |].
  intros Hok. apply resolve_Ok_parents in Hok as (chains & -> & Hchains & Hparents).
  split; [apply last_snoc |]. intros f.
  rewrite elem_of_app, elem_of_concat, list_elem_of_singleton. split.
  - intros [(c & Hc & Hf) | ->]; [| apply rtc_refl].
    destruct (Hchains c Hc) as (pp & Hstep & Hpp).
    eapply rtc_l; [exact Hstep |]. by apply (IH _ _ _ Hpp).
  - intros Hreach. apply rtc_inv in Hreach as [<- | (q & Hstep & Hreach)]; [by right |].
    destruct (Hparents q Hstep) as (pp & c & -> & Hc & Hpp).
    left. exists c. split; [done |]. by apply (IH _ _ _ Hpp).
Qed.

(** An element of a concatenation lies in one of the parts, after
    everything that precedes it there. *)
Lemma concat_split {A} (ls : list (list A)) l1 x l2 :
  concat ls = l1 ++ x :: l2 →
  ∃ pre c m1 m2, c ∈ ls ∧ c = m1 ++ x :: m2 ∧ l1 = pre ++ m1.
Proof.
  revert l1. induction ls as [|c ls IH]; intros l1; simpl.
  - by destruct l1.
  - intros H. apply app_eq_inv in H as [(k & Hc & Hk) | (k & Hl1 & Hk)].
    + destruct k as [|y k].
      * simpl in Hk. symmetry in Hk. rewrite app_nil_r in Hc. subst c.
        destruct (IH [] Hk) as (pre & c' & m1 & m2 & Hin & Hc' & Hpre).
        exists (l1 ++ pre), c', m1, m2. split; [by right |]. split; [done |].
        destruct pre, m1; try done. by rewrite !app_nil_r.
      * injection Hk as <- ->. exists [], c, l1, k. split; [by left | done].
    + destruct (IH k Hk) as (pre & c' & m1 & m2 & Hin & Hc' & Hpre).
      exists (c ++ pre), c', m1, m2. split; [by right |]. split; [done |].
      by rewrite Hl1, Hpre, app_assoc.
Qed.

(** Wherever a document stands in the chain, its parents stand before it. *)
Lemma parents_first fuel w p visited chain l1 f l2 g :
  resolveInheritanceChain_fuel fuel w p visited = Ok chain →
  chain = l1 ++ f :: l2 → parent_of w f g → g ∈ l1.
Proof.
  revert p visited chain l1 l2.
  induction fuel as [|fuel IH]; intros p visited chain l1 l2; [done |].
  intros Hok Hsplit Hstep.
  apply resolve_Ok_parents in Hok as (chains & -> & Hchains & Hparents).
  destruct l2 as [|y l2 _] using rev_ind.
  - apply (app_inj_tail (concat chains) l1) in Hsplit as [<- <-].
    destruct (Hparents g Hstep) as (pp & c & -> & Hc & Hpp).
    apply elem_of_concat. exists c. split; [done |].
    apply (chain_members _ _ _ _ _ Hpp), rtc_refl.
  - rewrite app_comm_cons, app_assoc in Hsplit.
    apply app_inj_tail in Hsplit as [Hsplit _].
    apply concat_split in Hsplit as (pre & c & m1 & m2 & Hc & -> & ->).
    destruct (Hchains _ Hc) as (pp & _ & Hpp).
    apply elem_of_app. right. by eapply IH.
Qed.

(** X1. Resolution succeeds exactly on the well-formed graphs: a chain is
    returned if and only if no document reachable from the starting one lies
    on a cycle of the extends graph and every reachable document exists. *)
Theorem resolution_succeeds_iff w p :
  (∃ chain, resolveInheritanceChain w p = Ok chain) ↔
  acyclic_from w p ∧ all_present w p.
Proof.
  split.
  - intros [chain Hok]. by eapply resolve_Ok_graph.
  - intros [Hacyc Hpres]. by apply resolve_acyclic_Ok.
Qed.

(** X2. What the chain holds: a returned chain ends with the absolute path
    of the starting document, and its members are exactly the documents
    reachable from it through extends references (itself included); so
    nothing unrelated is merged and nothing reachable is skipped. *)
Theorem chain_is_reachable_set w p chain :
  resolveInheritanceChain w p = Ok chain →
  last chain = Some (absolute w p) ∧
  ∀ f, f ∈ chain ↔ rtc (parent_of w) (absolute w p) f.
Proof. apply chain_members. Qed.

Lemma chain_is_reachable_set_witness :
  last ["/d.json"; "/b.json"; "/c.json"; "/a.json"] =
    Some (absolute Examples.chain_world "/a.json") ∧
  ∀ f, f ∈ ["/d.json"; "/b.json"; "/c.json"; "/a.json"] ↔
       rtc (parent_of Examples.chain_world) (absolute Examples.chain_world "/a.json") f.
Proof.
  apply (chain_is_reachable_set Examples.chain_world "/a.json").
  vm_compute. reflexivity.
Defined.

(** X3. Base first: at every position of a returned chain, all parents of
    the document standing there occur earlier in the chain. A document is
    therefore merged only after everything it extends, at each of its
    occurrences. *)
Theorem parents_come_first w p chain l1 f l2 g :
  resolveInheritanceChain w p = Ok chain →
  chain = l1 ++ f :: l2 → parent_of w f g → g ∈ l1.
Proof. apply parents_first. Qed.

Lemma parents_come_first_witness :
  "/d.json" ∈ ["/d.json"].
Proof.
  apply (parents_come_first Examples.chain_world "/a.json"
           ["/d.json"; "/b.json"; "/c.json"; "/a.json"]
           ["/d.json"] "/b.json" ["/c.json"; "/a.json"] "/d.json").
  - vm_compute. reflexivity.
  - reflexivity.
  - apply (parent_of_intro Examples.chain_world "/b.json"
             (Examples.document (Some ["/d.json"]) [] []) ["/d.json"] "/d.json");
      first [ reflexivity | repeat constructor ].
Defined.

(** X4. A missing document is fatal: when some document reachable from
    the starting one does not exist, resolution throws; unless a cycle is
    reachable as well, the exception is the file-not-found one and names a
    reachable path at which no file exists. *)
Theorem missing_file_fails w p q :
  rtc (parent_of w) (absolute w p) q → files w !! q = None →
  ∃ e, resolveInheritanceChain w p = Throw e ∧
       (acyclic_from w p →
        ∃ q', e = RuleSetFileNotFound q' ∧ files w !! q' = None ∧
              rtc (parent_of w) (absolute w p) q').
Proof.
  intros Hreach Hnone.
  destruct (resolveInheritanceChain w p) as [chain|e|] eqn:Hres.
  - destruct (resolve_Ok_present _ _ _ _ _ _ Hres Hreach) as [? ?]. congruence.
  - exists e. split; [done |]. intros Hacyc.
    apply resolve_Throw_inv in Hres. destruct e as [c|c|]; [| | done].
    + destruct Hres as [Hc Hfile]. by exists c.
    + destruct Hres as [Hc [Hin | Hcyc]]; [set_solver |].
      by destruct (Hacyc c Hc).
  - by destruct (resolveInheritanceChain_terminates w p).
Qed.

Lemma missing_file_fails_witness :
  ∃ e, resolveInheritanceChain Scenarios.orphan_world "/a.json" = Throw e ∧
       (acyclic_from Scenarios.orphan_world "/a.json" →
        ∃ q', e = RuleSetFileNotFound q' ∧ files Scenarios.orphan_world !! q' = None ∧
              rtc (parent_of Scenarios.orphan_world)
                (absolute Scenarios.orphan_world "/a.json") q').
Proof.
  apply (missing_file_fails Scenarios.orphan_world "/a.json" "/gone.json").
  - apply rtc_once.
    apply (parent_of_intro Scenarios.orphan_world "/a.json"
             (Examples.document (Some ["/gone.json"]) [] []) ["/gone.json"] "/gone.json");
      first [ reflexivity | repeat constructor ].
  - reflexivity.
Defined.

End ChainFacts.

(** ** What the merge does with a resolved chain *)

Module LayerFacts.
Import JS RuleResolver Notions ResolverFacts MergeFacts ValidationFacts SortFacts DiamondFacts.


Lemma first_definer_defines w P k g :
  first_definer w P k = Some g → defines w g k = true.
Proof.
  induction P as [|f P IH]; simpl; [done |].
  destruct (defines w f k) eqn:Hf; [by intros [= <-] | done].
Qed.

Lemma meet_NoDup seen k : NoDup seen → NoDup (meet seen k).
Proof.
  intros Hnd. unfold meet. case_bool_decide; [done |].
  apply NoDup_app. split; [done |]. split; [| apply NoDup_singleton].
  intros x Hx ->%list_elem_of_singleton. done.
Qed.

Lemma fold_meet_NoDup ks seen : NoDup seen → NoDup (fold_left meet ks seen).
Proof.
  revert seen. induction ks as [|k ks IH]; intros seen Hnd; simpl; [done |].
  by apply IH, meet_NoDup.
Qed.

Lemma encounter_order_NoDup w chain : NoDup (encounter_order w chain).
Proof.
  unfold encounter_order. generalize (NoDup_nil_2 (A := string)).
  generalize (@nil string). induction chain as [|f chain IH]; intros seen Hnd; simpl.
  - done.
  - apply IH. destruct (files w !! f); [by apply fold_meet_NoDup | done].
Qed.

Lemma duplicate_ids_NoDup ids seen es :
  NoDup ids → (∀ k, k ∈ ids → k ∉ seen) → duplicate_ids ids seen es = es.
Proof.
  revert seen es. induction ids as [|k ids IH]; intros seen es Hnd Hfresh; simpl; [done |].
  apply NoDup_cons in Hnd as [Hk Hnd].
  destruct (decide (k ∈ seen)) as [Hin|_].
  - destruct (Hfresh k); [left | done].
  - apply IH; [done |]. intros k' Hk'. apply not_elem_of_union. split.
    + intros ->%elem_of_singleton. done.
    + apply Hfresh. by right.
Qed.

Lemma filter_nil_iff {A} (f : A → bool) l :
  List.filter f l = [] ↔ ∀ x, x ∈ l → f x = false.
Proof.
  induction l as [|y l IH]; simpl.
  - split; [by intros _ x ?%elem_of_nil | done].
  - destruct (f y) eqn:Hy.
    + split; [done |]. intros H. rewrite (H y) in Hy; [done | left].
    + rewrite IH. split.
      * intros H x [-> | Hx]%elem_of_cons; auto.
      * intros H x Hx. apply H. by right.
Qed.

Lemma flat_map_nil_iff {A B} (f : A → list B) l :
  flat_map f l = [] ↔ ∀ x, x ∈ l → f x = [].
Proof.
  induction l as [|y l IH]; simpl.
  - split; [by intros _ x ?%elem_of_nil | done].
  - split.
    + intros [Hy Hl]%app_eq_nil x [-> | Hx]%elem_of_cons; [done |]. by apply IH.
    + intros H. rewrite (H y) by left. apply IH. intros x Hx. apply H. by right.
Qed.

Lemma required_fields_of_nil k rule :
  required_fields_of k rule = [] ↔
  truthy_string (name rule) = true ∧ truthy_string (description rule) = true ∧
  truthy_string (severity rule) = true.
Proof.
  unfold required_fields_of.
  destruct (truthy_string (name rule)), (truthy_string (description rule)),
    (truthy_string (severity rule)); simpl; naive_solver.
Qed.

(** The exceptions of resolveRules are those of the chain resolution. *)
Lemma resolveRules_Throw w p e :
  resolveRules w p = Throw e ↔ resolveInheritanceChain w p = Throw e.
Proof.
  destruct (resolveInheritanceChain w p) as [chain|e'|] eqn:Hres.
  - destruct (resolveRules_Ok _ _ _ Hres) as (st & _ & ->). by split.
  - unfold resolveRules. rewrite Hres. simpl. split; by intros [= ->].
  - unfold resolveRules. rewrite Hres. simpl. by split.
Qed.


(** X6. The merged rule ids: a rule id is present in the resolved rules
    exactly when some document of the chain lists it under rules (an
    override never creates a rule); the sources map has the same ids; and
    the sources entry of an id starts with the first document of the chain
    that defines it. *)
Theorem merged_ids w p chain r :
  resolveInheritanceChain w p = Ok chain → resolveRules w p = Ok r →
  (∀ k, is_Some (obj_get k (resolved_rules r)) ↔
        ∃ f, f ∈ chain ∧ defines w f k = true) ∧
  (∀ k, is_Some (obj_get k (resolved_sources r)) ↔
        is_Some (obj_get k (resolved_rules r))) ∧
  (∀ k g, first_definer w chain k = Some g →
        ∃ l, obj_get k (resolved_sources r) = Some (g :: l)).
Proof.
  intros Hchain Hr.
  destruct (resolveRules_Ok _ _ _ Hchain) as (st & Hmerge & Hres).
  rewrite Hres in Hr. injection Hr as <-. cbn [resolved_rules resolved_sources].
  pose proof (resolve_chain_present _ _ _ _ _ Hchain) as Hpres.
  destruct (merge_files_spec w chain Hpres [] empty_merge (in_step_empty w))
    as (st' & Hst' & Hinv & _).
  unfold merge_chain in Hmerge. rewrite Hmerge in Hst'. injection Hst' as <-.
  simpl in Hinv. split; [| split].
  - intros k. specialize (Hinv k). split.
    + intros Hk. destruct (first_definer w chain k) as [g|] eqn:Hg.
      * exists g. split; [by eapply first_definer_elem | by eapply first_definer_defines].
      * destruct Hinv as [Hnone _]. rewrite Hnone in Hk. by destruct Hk.
    + intros (f & Hf & Hdef).
      destruct (first_definer_is_Some w chain f k Hf Hdef) as [g Hg].
      rewrite Hg in Hinv. apply Hinv.
  - intros k. specialize (Hinv k).
    destruct (first_definer w chain k) as [g|].
    + destruct Hinv as [Hrule [l Hl]]. rewrite Hl. split; [done | by eexists].
    + destruct Hinv as [-> ->]. done.
  - intros k g Hg. specialize (Hinv k). rewrite Hg in Hinv. apply Hinv.
Qed.

Lemma merged_ids_witness :
  (∀ k, is_Some (obj_get k (resolved_rules Examples.severity_resolved)) ↔
        ∃ f, f ∈ ["/base.json"; "/project.json"] ∧
             defines Examples.severity_world f k = true) ∧
  (∀ k, is_Some (obj_get k (resolved_sources Examples.severity_resolved)) ↔
        is_Some (obj_get k (resolved_rules Examples.severity_resolved))) ∧
  (∀ k g, first_definer Examples.severity_world ["/base.json"; "/project.json"] k = Some g →
        ∃ l, obj_get k (resolved_sources Examples.severity_resolved) = Some (g :: l)).
Proof.
  apply (merged_ids Examples.severity_world "/project.json").
  - vm_compute. reflexivity.
  - vm_compute. reflexivity.
Defined.

(** *** The conflict list, exactly *)

Lemma omap_ext_elem {A B} (f g : A → option B) (l : list A) :
  (∀ x, x ∈ l → f x = g x) → omap f l = omap g l.
Proof.
  intros H. apply list_omap_ext. induction l as [|x l IH]; constructor.
  - apply H. left.
  - apply IH. intros y Hy. apply H. by right.
Qed.

Lemma merge_rules_conflicts f es st st' first :
  in_step first st → NoDup (keys es) →
  for_of (merge_rule f) es st = Ok st' →
  merge_conflicts st' =
  merge_conflicts st ++
  omap (fun k => match first k with
                 | Some g => Some (redefinition k f (Some g))
                 | None => None
                 end) (keys es).
Proof.
  revert st first. induction es as [|[k0 rule] es IH]; intros st first Hinv Hnd Hok.
  - injection Hok as <-. by rewrite app_nil_r.
  - change (keys ((k0, rule) :: es)) with (k0 :: keys es) in *.
    apply NoDup_cons in Hnd as [Hk0 Hnd].
    destruct (merge_rule_spec f k0 rule st first Hinv) as (st1 & Hstep & Hinv1 & _ & Hc1).
    cbn [for_of] in Hok. rewrite Hstep in Hok. cbn [bind] in Hok.
    rewrite (IH _ _ Hinv1 Hnd Hok), Hc1, <- app_assoc. f_equal.
    rewrite (omap_ext_elem _
               (fun k => match first k with
                         | Some g => Some (redefinition k f (Some g))
                         | None => None
                         end) (keys es)).
    + csimpl. by destruct (first k0).
    + intros k Hk. unfold first_after. destruct (first k); [done |].
      rewrite bool_decide_eq_false_2; [done |].
      intros ->%list_elem_of_singleton. done.
Qed.

Lemma apply_overrides_conflicts f os st st' first :
  in_step first st →
  for_of (apply_override f) os st = Ok st' →
  merge_conflicts st' =
  merge_conflicts st ++
  omap (fun k => match first k with
                 | Some _ => None
                 | None => Some (dangling_override k f)
                 end) (keys os).
Proof.
  revert st. induction os as [|[k0 override] os IH]; intros st Hinv Hok.
  - injection Hok as <-. by rewrite app_nil_r.
  - change (keys ((k0, override) :: os)) with (k0 :: keys os).
    destruct (apply_override_spec f k0 override st first Hinv)
      as (st1 & Hstep & Hinv1 & _ & Hc1).
    cbn [for_of] in Hok. rewrite Hstep in Hok. cbn [bind] in Hok.
    rewrite (IH _ Hinv1 Hok), Hc1, <- app_assoc. f_equal.
    csimpl. by destruct (first k0).
Qed.

Lemma merge_files_conflicts w rest :
  Forall (fun f => ∃ ruleSet, files w !! f = Some ruleSet ∧
                              NoDup (keys (entries_of (rules ruleSet)))) rest →
  ∀ P st st', in_step (first_definer w P) st →
    for_of (merge_file w) rest st = Ok st' →
    merge_conflicts st' =
    merge_conflicts st ++ ConflictNotions.chain_conflicts w P rest.
Proof.
  induction 1 as [|f rest (ruleSet & Hf & Hnd) _ IH]; intros P st st' Hinv Hok.
  - injection Hok as <-. by rewrite app_nil_r.
  - cbn [for_of ConflictNotions.chain_conflicts] in *.
    unfold merge_file at 1, loadRuleSet in Hok. rewrite Hf in Hok. cbn [bind] in Hok.
    unfold merge_ruleSet in Hok.
    destruct (merge_rules_spec f (entries_of (rules ruleSet)) st _ Hinv)
      as (st1 & Hloop1 & Hinv1 & _).
    destruct (apply_overrides_spec f (entries_of (overrides ruleSet)) st1 _ Hinv1)
      as (st2 & Hloop2 & Hinv2 & _).
    rewrite Hloop1 in Hok. cbn [bind] in Hok. rewrite Hloop2 in Hok. cbn [bind] in Hok.
    rename Hok into Hrest.
    assert (Hinv2' : in_step (first_definer w (P ++ [f])) st2).
    { eapply in_step_ext; [| exact Hinv2]. intros k. by apply first_definer_snoc. }
    rewrite (IH _ _ _ Hinv2' Hrest).
    rewrite (apply_overrides_conflicts _ _ _ _ _ Hinv1 Hloop2).
    rewrite (merge_rules_conflicts _ _ _ _ _ Hinv Hnd Hloop1).
    rewrite <- !app_assoc. f_equal.
    unfold ConflictNotions.doc_conflicts. rewrite Hf, <- app_assoc. f_equal. f_equal.
    apply omap_ext_elem. intros k _. by rewrite (first_definer_snoc w P f ruleSet k Hf).
Qed.

(** X7. The conflict list, exactly: when the rules of every document of
    the chain have pairwise distinct ids, the conflicts of resolveRules are,
    document by document in chain order, one redefinition for each rule
    that an earlier document of the chain defines (citing the first
    definer), followed by one dangling override for each override whose rule
    no document up to this one defines; nothing else is ever recorded. *)
Theorem conflicts_exact w p chain r :
  resolveInheritanceChain w p = Ok chain → resolveRules w p = Ok r →
  (∀ f ruleSet, f ∈ chain → files w !! f = Some ruleSet →
                NoDup (keys (entries_of (rules ruleSet)))) →
  conflicts r = ConflictNotions.chain_conflicts w [] chain.
Proof.
  intros Hchain Hr Hdistinct.
  destruct (resolveRules_Ok _ _ _ Hchain) as (st & Hmerge & Hres).
  rewrite Hres in Hr. injection Hr as <-. cbn [conflicts].
  pose proof (resolve_chain_present _ _ _ _ _ Hchain) as Hpres.
  rewrite (merge_files_conflicts w chain) with (P := []) (st := empty_merge);
    [done | | apply in_step_empty | exact Hmerge].
  apply Forall_forall. intros f Hf. rewrite Forall_forall in Hpres.
  destruct (Hpres f Hf) as [ruleSet Hfile]. exists ruleSet. split; [done |].
  by eapply Hdistinct.
Qed.

Lemma conflicts_exact_witness :
  conflicts {| resolved_rules := [("r1", Examples.rule_named "from A" "LOW" true)];
               resolved_sources := [("r1", ["/z.json"; "/a.json"])];
               conflicts := [redefinition "r1" "/a.json" (Some "/z.json")] |} =
  ConflictNotions.chain_conflicts Examples.layered_world [] ["/z.json"; "/a.json"].
Proof.
  apply (conflicts_exact Examples.layered_world "/a.json").
  - vm_compute. reflexivity.
  - vm_compute. reflexivity.
  - intros f ruleSet Hf Hfile.
    repeat (apply elem_of_cons in Hf as [-> | Hf];
            [vm_compute in Hfile; injection Hfile as <-;
             repeat constructor; by intros ?%elem_of_nil |]).
    by apply elem_of_nil in Hf.
Defined.





End LayerFacts.

(** ** What validateRules can and cannot report *)

Module VerdictFacts.
Import JS RuleResolver Notions ResolverFacts MergeFacts ValidationFacts SortFacts LayerFacts.

Lemma validateRules_inv w p v :
  validateRules w p = Ok v →
  ∃ chain r, resolveInheritanceChain w p = Ok chain ∧ resolveRules w p = Ok r ∧
             v = validate_resolved r.
Proof.
  unfold validateRules. intros H. apply bind_Ok in H as (r & Hr & [= <-]).
  destruct (resolved_rules_order _ _ _ Hr) as (chain & Hchain & _).
  by exists chain, r.
Qed.

Lemma resolved_rules_NoDup w p r :
  resolveRules w p = Ok r → NoDup (keys (resolved_rules r)).
Proof.
  intros Hr. destruct (resolved_rules_order _ _ _ Hr) as (chain & _ & ->).
  apply encounter_order_NoDup.
Qed.

(** The errors of a validation, with the duplicate check gone. *)
Lemma validateRules_errors w p r :
  resolveRules w p = Ok r →
  errors (validate_resolved r) =
  map conflict (List.filter (fun c => includes "non-existent" (conflict c)) (conflicts r)) ++
  flat_map (fun '(ruleId, rule) => required_fields_of ruleId rule) (resolved_rules r).
Proof.
  intros Hr. rewrite validate_resolved_errors. f_equal.
  unfold rule_set_errors. rewrite required_fields_app.
  rewrite duplicate_ids_NoDup; [done | exact (resolved_rules_NoDup _ _ _ Hr) |].
  intros k _. apply not_elem_of_empty.
Qed.

(** X10. The duplicate-id check is dead code: the ids of a merged rule
    set are pairwise distinct, so validateRules never reports a duplicate
    rule id; its errors are exactly the messages of the conflicts
    containing the marker, followed by the missing-field messages in rule
    order. *)
Theorem duplicate_check_never_fires w p v :
  validateRules w p = Ok v →
  ∃ r, resolveRules w p = Ok r ∧
    NoDup (keys (resolved_rules r)) ∧
    duplicate_ids (keys (resolved_rules r)) ∅ [] = [] ∧
    errors v =
      map conflict
        (List.filter (fun c => includes "non-existent" (conflict c)) (conflicts r)) ++
      flat_map (fun '(ruleId, rule) => required_fields_of ruleId rule) (resolved_rules r) ∧
    ∀ e, e ∈ errors v → String.prefix "Duplicate rule ID: " e = false.
Proof.
  intros Hv. apply validateRules_inv in Hv as (chain & r & Hchain & Hr & ->).
  exists r. split; [done |].
  pose proof (resolved_rules_NoDup _ _ _ Hr) as Hnd.
  split; [done |]. split.
  { apply duplicate_ids_NoDup; [done |]. intros k _. apply not_elem_of_empty. }
  split; [exact (validateRules_errors _ _ _ Hr) |].
  intros e. rewrite (validateRules_errors _ _ _ Hr).
  intros [He | He]%elem_of_app.
  - apply list_elem_of_fmap in He as (c & -> & Hc).
    apply list_elem_of_In, filter_In in Hc as [Hc _]. apply list_elem_of_In in Hc.
    destruct (resolveRules_conflicts _ _ _ Hchain) as (r' & Hr' & Hshape & _).
    rewrite Hr in Hr'. injection Hr' as <-.
    rewrite Forall_forall in Hshape.
    destruct (Hshape c Hc) as (k & f & _ & [[g ->] | ->]); reflexivity.
  - apply list_elem_of_In, in_flat_map in He as ([k rule] & _ & He).
    unfold required_fields_of in He.
    destruct (truthy_string (name rule)), (truthy_string (description rule)),
      (truthy_string (severity rule)); simpl in He;
      repeat (destruct He as [<- | He]; [reflexivity |]); done.
Qed.

Lemma duplicate_check_never_fires_witness :
  ∃ r, resolveRules Examples.faulty_world "/a.json" = Ok r ∧
    NoDup (keys (resolved_rules r)) ∧
    duplicate_ids (keys (resolved_rules r)) ∅ [] = [] ∧
    errors (validate_resolved Examples.faulty_resolved) =
      map conflict
        (List.filter (fun c => includes "non-existent" (conflict c)) (conflicts r)) ++
      flat_map (fun '(ruleId, rule) => required_fields_of ruleId rule) (resolved_rules r) ∧
    ∀ e, e ∈ errors (validate_resolved Examples.faulty_resolved) →
         String.prefix "Duplicate rule ID: " e = false.
Proof.
  apply (duplicate_check_never_fires Examples.faulty_world "/a.json").
  vm_compute. reflexivity.
Defined.

(** X11. When validateRules passes: the result is valid exactly when no
    recorded conflict message contains the marker and every merged rule
    has a non-empty name, description and severity. Nothing else (category,
    enabled, the severity literal, redefinitions) influences the verdict. *)
Theorem validateRules_valid_iff w p v :
  validateRules w p = Ok v →
  ∃ r, resolveRules w p = Ok r ∧
    (valid v = true ↔
     (∀ c, c ∈ conflicts r → includes "non-existent" (conflict c) = false) ∧
     (∀ k rule, (k, rule) ∈ resolved_rules r →
        truthy_string (name rule) = true ∧ truthy_string (description rule) = true ∧
        truthy_string (severity rule) = true)).
Proof.
  intros Hv. apply validateRules_inv in Hv as (chain & r & Hchain & Hr & ->).
  exists r. split; [done |].
  rewrite validate_resolved_valid, (validateRules_errors _ _ _ Hr).
  split.
  - intros [Hc Hf]%app_eq_nil. split.
    + apply filter_nil_iff. by destruct (List.filter _ _).
    + intros k rule Hin. apply (required_fields_of_nil k).
      rewrite flat_map_nil_iff in Hf. apply (Hf (k, rule) Hin).
  - intros [Hc Hf]. apply filter_nil_iff in Hc. rewrite Hc. simpl.
    apply flat_map_nil_iff. intros [k rule] Hin.
    apply required_fields_of_nil. exact (Hf k rule Hin).
Qed.

Lemma validateRules_valid_iff_witness :
  ∃ r, resolveRules Examples.urgent_world "/a.json" = Ok r ∧
    (valid (validate_resolved Examples.urgent_resolved) = true ↔
     (∀ c, c ∈ conflicts r → includes "non-existent" (conflict c) = false) ∧
     (∀ k rule, (k, rule) ∈ resolved_rules r →
        truthy_string (name rule) = true ∧ truthy_string (description rule) = true ∧
        truthy_string (severity rule) = true)).
Proof.
  apply (validateRules_valid_iff Examples.urgent_world "/a.json").
  vm_compute. reflexivity.
Defined.

End VerdictFacts.

(** ** The report of the command-line validator *)

Module ReportFacts.
Import JS RuleResolver ConstitutionalRules Notions ResolverFacts MergeFacts.
Import ValidationFacts SortFacts CliFacts LayerFacts VerdictFacts.

Lemma report_conflicts_spec cs es ws :
  ValidateCli.report_conflicts cs (es, ws) =
  (es ++ map conflict (List.filter (fun c => includes "non-existent" (conflict c)) cs),
   ws ++ map (fun c => conflict c +:+ " (sources: " +:+
                       join ", " (map (default "") (conflict_sources c)) +:+ ")")
          (List.filter (fun c => negb (includes "non-existent" (conflict c))) cs)).
Proof.
  unfold ValidateCli.report_conflicts. revert es ws.
  induction cs as [|c cs IH]; intros es ws; simpl.
  - by rewrite !app_nil_r.
  - unfold ValidateCli.report_conflict at 2. simpl.
    destruct (includes "non-existent" (conflict c)); simpl; rewrite IH;
      by rewrite <- ?app_assoc.
Qed.

Lemma report_errors_exact rulesPath validation r :
  ValidateCli.errors (ValidateCli.report rulesPath validation r) =
  (if valid validation then [] else errors validation) ++
  map conflict (List.filter (fun c => includes "non-existent" (conflict c)) (conflicts r)) ++
  flat_map (fun '(k, rule) => ValidateCli.rule_errors k rule) (resolved_rules r).
Proof.
  unfold ValidateCli.report. rewrite report_conflicts_spec, check_rules_spec. simpl.
  by rewrite <- app_assoc.
Qed.

Lemma validate_at_Ok w p r :
  resolveRules w p = Ok r →
  ValidateCli.validate_at w p = Ok (ValidateCli.report p (validate_resolved r) r).
Proof.
  intros Hr. unfold ValidateCli.validate_at, validateRules. rewrite Hr. done.
Qed.

Lemma allowed_iff_literal rule :
  ValidateCli.allowed_severity (show (severity rule)) = true ↔ severity_literal rule.
Proof.
  unfold ValidateCli.allowed_severity. rewrite bool_decide_eq_true. split.
  - intros H. destruct (severity rule) as [s|] eqn:E; [by exists s |].
    simpl in H. repeat (apply elem_of_cons in H as [H | H]; [discriminate |]).
    by apply elem_of_nil in H.
  - intros (s & -> & Hs). done.
Qed.

Lemma rule_errors_nil k rule :
  ValidateCli.rule_errors k rule = [] ↔
  truthy_string (name rule) = true ∧ truthy_string (description rule) = true ∧
  truthy_string (category rule) = true ∧ truthy_string (severity rule) = true ∧
  ValidateCli.allowed_severity (show (severity rule)) = true.
Proof.
  unfold ValidateCli.rule_errors.
  destruct (truthy_string (name rule)), (truthy_string (description rule)),
    (truthy_string (category rule)), (truthy_string (severity rule)),
    (ValidateCli.allowed_severity (show (severity rule))); simpl; naive_solver.
Qed.

(** X12. The command-line validator is the core validator plus two
    checks: for a rule set that resolves, its verdict is valid exactly when
    validateRules is valid and every merged rule has a non-empty category
    and a severity among the four literals. *)
Theorem cli_valid_iff w p r :
  resolveRules w p = Ok r →
  ∃ cv, ValidateCli.validate_at w p = Ok cv ∧
    (ValidateCli.valid cv = true ↔
     valid (validate_resolved r) = true ∧
     ∀ k rule, (k, rule) ∈ resolved_rules r →
       truthy_string (category rule) = true ∧ severity_literal rule).
Proof.
  intros Hr. eexists. split; [by apply validate_at_Ok |].
  rewrite report_valid, report_errors_exact.
  pose proof (validate_resolved_valid r) as Hvalid.
  pose proof (validateRules_errors _ _ _ Hr) as Herrors.
  split.
  - intros [Hcore [_ Hrules]%app_eq_nil]%app_eq_nil.
    assert (Hv : valid (validate_resolved r) = true).
    { destruct (valid (validate_resolved r)); [done |]. by apply Hvalid. }
    split; [done |]. intros k rule Hin.
    rewrite flat_map_nil_iff in Hrules.
    pose proof (Hrules (k, rule) Hin) as Hrule.
    apply (rule_errors_nil k) in Hrule as (_ & _ & Hcat & _ & Hsev).
    split; [done | by apply allowed_iff_literal].
  - intros [Hv Hrules]. rewrite Hv. simpl.
    pose proof Hv as Hnil. apply Hvalid in Hnil. rewrite Herrors in Hnil.
    apply app_eq_nil in Hnil as [-> Hreq]. simpl.
    apply flat_map_nil_iff. intros [k rule] Hin. apply rule_errors_nil.
    rewrite flat_map_nil_iff in Hreq.
    pose proof (Hreq (k, rule) Hin) as Hrule.
    apply (required_fields_of_nil k) in Hrule as (Hn & Hd & Hs).
    destruct (Hrules k rule Hin) as [Hcat Hlit].
    by apply allowed_iff_literal in Hlit.
Qed.

Lemma cli_valid_iff_witness :
  ∃ cv, ValidateCli.validate_at Examples.urgent_world "/a.json" = Ok cv ∧
    (ValidateCli.valid cv = true ↔
     valid (validate_resolved Examples.urgent_resolved) = true ∧
     ∀ k rule, (k, rule) ∈ resolved_rules Examples.urgent_resolved →
       truthy_string (category rule) = true ∧ severity_literal rule).
Proof.
  apply (cli_valid_iff Examples.urgent_world "/a.json").
  vm_compute. reflexivity.
Defined.

(** X13. A chain that does not resolve is reported, not thrown: when the
    given rules file exists but resolving its chain throws (a cycle or a
    missing parent), the command-line validator returns an invalid result
    whose only error is the resolver's message behind the prefix
    "Error resolving rules: ", with no warnings and empty statistics. *)
Theorem cli_reports_resolution_failure w path e :
  path ≠ "" → existsSync w (path_resolve w [path]) = true →
  resolveInheritanceChain w (path_resolve w [path]) = Throw e →
  ValidateCli.validateConstitutionalRules w (Some path) =
  Ok {| ValidateCli.valid := false;
        ValidateCli.errors := ["Error resolving rules: " +:+ ValidateCli.message e];
        ValidateCli.warnings := [];
        ValidateCli.info :=
          {| ValidateCli.info_rulesFile := path_resolve w [path];
             ValidateCli.totalRules := 0;
             ValidateCli.enabledRules := 0;
             ValidateCli.inheritanceChain := [];
             ValidateCli.severityBreakdown := [];
             ValidateCli.categoryBreakdown := [] |} |}.
Proof.
  intros Hpath Hexists Hthrow.
  unfold ValidateCli.validateConstitutionalRules. simpl.
  apply String.eqb_neq in Hpath. rewrite Hpath. simpl. rewrite Hexists.
  apply resolveRules_Throw in Hthrow.
  unfold ValidateCli.validate_at, validateRules. rewrite Hthrow. done.
Qed.

Lemma cli_reports_resolution_failure_witness :
  ValidateCli.validateConstitutionalRules Examples.cyclic_world (Some "/a.json") =
  Ok {| ValidateCli.valid := false;
        ValidateCli.errors :=
          ["Error resolving rules: " +:+
           ValidateCli.message (CircularDependency "/a.json")];
        ValidateCli.warnings := [];
        ValidateCli.info :=
          {| ValidateCli.info_rulesFile := path_resolve Examples.cyclic_world ["/a.json"];
             ValidateCli.totalRules := 0;
             ValidateCli.enabledRules := 0;
             ValidateCli.inheritanceChain := [];
             ValidateCli.severityBreakdown := [];
             ValidateCli.categoryBreakdown := [] |} |}.
Proof.
  apply (cli_reports_resolution_failure Examples.cyclic_world "/a.json"
           (CircularDependency "/a.json")).
  - discriminate.
  - reflexivity.
  - vm_compute. reflexivity.
Defined.

(** *** The sources map and the inheritance chain of the report *)

Lemma includes_override f : includes "(override)" (f +:+ " (override)") = true.
Proof.
  induction f as [|a f IH]; [reflexivity |].
  change (String.prefix "(override)" (String a (f +:+ " (override)")) ||
          includes "(override)" (f +:+ " (override)") = true).
  rewrite IH. apply orb_true_r.
Qed.

Lemma obj_set_NoDup {V} k (v : V) o : NoDup (keys o) → NoDup (keys (obj_set k v o)).
Proof. intros Hnd. rewrite obj_set_keys. by apply (meet_NoDup (keys o) k). Qed.

Lemma merge_rule_sources f k0 rule st st' :
  merge_rule f (k0, rule) st = Ok st' →
  (NoDup (keys (sources st)) → NoDup (keys (sources st'))) ∧
  ∀ k, default [] (obj_get k (sources st')) =
       if decide (k = k0) then default [] (obj_get k (sources st)) ++ [f]
       else default [] (obj_get k (sources st)).
Proof.
  unfold merge_rule. intros H. apply bind_Ok in H as (cs & _ & H).
  apply bind_Ok in H as (srcs & Hpush & H). injection H as <-. simpl.
  unfold sources_push in Hpush.
  destruct (obj_get k0 (sources st)) as [l|] eqn:E.
  - rewrite E in Hpush. injection Hpush as <-. split; [apply obj_set_NoDup |].
    intros k. destruct (decide (k = k0)) as [-> | Hne].
    + by rewrite obj_get_set_eq, E.
    + by rewrite obj_get_set_ne.
  - rewrite obj_get_set_eq in Hpush. injection Hpush as <-. split.
    + intros Hnd. by do 2 apply obj_set_NoDup.
    + intros k. destruct (decide (k = k0)) as [-> | Hne].
      * by rewrite obj_get_set_eq, E.
      * by rewrite !obj_get_set_ne.
Qed.

Lemma apply_override_sources f k0 override st st' :
  apply_override f (k0, override) st = Ok st' →
  (NoDup (keys (sources st)) → NoDup (keys (sources st'))) ∧
  ∀ k s, includes "(override)" s = false →
         (s ∈ default [] (obj_get k (sources st')) ↔
          s ∈ default [] (obj_get k (sources st))).
Proof.
  unfold apply_override. destruct (obj_get k0 (mergedRules st)) as [existing|].
  - intros H. apply bind_Ok in H as (srcs & Hpush & H). injection H as <-. simpl.
    unfold sources_push in Hpush.
    destruct (obj_get k0 (sources st)) as [l|] eqn:E; [| done].
    injection Hpush as <-. split; [apply obj_set_NoDup |].
    intros k s Hs. destruct (decide (k = k0)) as [-> | Hne].
    + rewrite obj_get_set_eq, E. simpl. rewrite elem_of_app, list_elem_of_singleton.
      split; [| by left]. intros [? | ->]; [done |].
      by rewrite includes_override in Hs.
    + by rewrite obj_get_set_ne.
  - by intros [= <-].
Qed.

Lemma merge_rules_sources f es st st' :
  for_of (merge_rule f) es st = Ok st' →
  (NoDup (keys (sources st)) → NoDup (keys (sources st'))) ∧
  ∀ k s, s ∈ default [] (obj_get k (sources st')) ↔
         s ∈ default [] (obj_get k (sources st)) ∨ (s = f ∧ k ∈ keys es).
Proof.
  revert st. induction es as [|[k0 rule] es IH]; intros st; simpl.
  - intros [= <-]. split; [done |]. intros k s. split; [by left |].
    intros [? | [_ ?%elem_of_nil]]; done.
  - intros H. apply bind_Ok in H as (st1 & Hstep & Hrest).
    destruct (merge_rule_sources _ _ _ _ _ Hstep) as [Hnd1 Hget1].
    destruct (IH _ Hrest) as [Hnd Hget]. split; [by intros ?; apply Hnd, Hnd1 |].
    intros k s. rewrite Hget, Hget1, elem_of_cons.
    destruct (decide (k = k0)) as [-> | Hne].
    + rewrite elem_of_app, list_elem_of_singleton. naive_solver.
    + naive_solver.
Qed.

Lemma apply_overrides_sources f os st st' :
  for_of (apply_override f) os st = Ok st' →
  (NoDup (keys (sources st)) → NoDup (keys (sources st'))) ∧
  ∀ k s, includes "(override)" s = false →
         (s ∈ default [] (obj_get k (sources st')) ↔
          s ∈ default [] (obj_get k (sources st))).
Proof.
  revert st. induction os as [|[k0 override] os IH]; intros st; simpl.
  - by intros [= <-].
  - intros H. apply bind_Ok in H as (st1 & Hstep & Hrest).
    destruct (apply_override_sources _ _ _ _ _ Hstep) as [Hnd1 Hget1].
    destruct (IH _ Hrest) as [Hnd Hget]. split; [by intros ?; apply Hnd, Hnd1 |].
    intros k s Hs. by rewrite Hget, Hget1.
Qed.

Lemma defines_keys w f ruleSet k :
  files w !! f = Some ruleSet →
  defines w f k = true ↔ k ∈ keys (entries_of (rules ruleSet)).
Proof.
  intros Hf. unfold defines. rewrite Hf.
  destruct (obj_get k (entries_of (rules ruleSet))) as [rule|] eqn:E; simpl.
  - split; [| done]. intros _.
    destruct (decide (k ∈ keys (entries_of (rules ruleSet)))) as [|Hn]; [done |].
    apply obj_get_None_keys in Hn. congruence.
  - apply obj_get_None_keys in E. split; [done | by intros ?].
Qed.

(** The entries of the sources map that are not override marks are the
    documents merged so far that define the rule. *)
Lemma merge_files_sources w rest P st st' :
  for_of (merge_file w) rest st = Ok st' →
  NoDup (keys (sources st)) →
  (∀ k s, includes "(override)" s = false →
          (s ∈ default [] (obj_get k (sources st)) ↔ s ∈ P ∧ defines w s k = true)) →
  NoDup (keys (sources st')) ∧
  (∀ k s, includes "(override)" s = false →
          (s ∈ default [] (obj_get k (sources st')) ↔
           s ∈ P ++ rest ∧ defines w s k = true)).
Proof.
  revert P st. induction rest as [|f rest IH]; intros P st; simpl.
  - intros [= <-] Hnd Hinv. by rewrite app_nil_r.
  - intros H Hnd Hinv. apply bind_Ok in H as (st1 & Hstep & Hrest).
    unfold merge_file, loadRuleSet in Hstep.
    destruct (files w !! f) as [ruleSet|] eqn:Hf; [| done]. simpl in Hstep.
    unfold merge_ruleSet in Hstep. apply bind_Ok in Hstep as (st0 & Hrules & Hover).
    destruct (merge_rules_sources _ _ _ _ Hrules) as [Hnd0 Hget0].
    destruct (apply_overrides_sources _ _ _ _ Hover) as [Hnd1 Hget1].
    replace (P ++ f :: rest) with ((P ++ [f]) ++ rest) by (by rewrite <- app_assoc).
    apply (IH _ _ Hrest); [by apply Hnd1, Hnd0 |].
    intros k s Hs. rewrite (Hget1 k s Hs), Hget0, (Hinv k s Hs).
    rewrite elem_of_app, list_elem_of_singleton. split.
    + intros [[? ?] | [-> Hk]]; [by split; [left |] |].
      split; [by right | by apply (defines_keys w f ruleSet)].
    + intros [[? | ->] Hdef]; [by left |]. right. split; [done |].
      by apply (defines_keys w f ruleSet).
Qed.

Lemma set_add_elem x y s : x ∈ ValidateCli.set_add y s ↔ x ∈ s ∨ x = y.
Proof.
  unfold ValidateCli.set_add. case_bool_decide.
  - split; [by left |]. by intros [? | ->].
  - by rewrite elem_of_app, list_elem_of_singleton.
Qed.

Lemma unique_sources_inner l acc :
  NoDup acc →
  let acc' :=
    fold_left (fun uniqueSources source =>
                 if includes "(override)" source then uniqueSources
                 else ValidateCli.set_add source uniqueSources) l acc in
  NoDup acc' ∧
  ∀ x, x ∈ acc' ↔ x ∈ acc ∨ (x ∈ l ∧ includes "(override)" x = false).
Proof.
  revert acc. induction l as [|s l IH]; intros acc Hnd; simpl.
  - split; [done |]. intros x. split; [by left |].
    intros [? | [?%elem_of_nil _]]; done.
  - destruct (includes "(override)" s) eqn:Hs.
    + destruct (IH acc Hnd) as [Hnd' Hel]. split; [done |].
      intros x. rewrite Hel, elem_of_cons. split; [naive_solver |].
      intros [? | [[-> | ?] Hx]]; [by left | congruence | by right].
    + destruct (IH (ValidateCli.set_add s acc)) as [Hnd' Hel].
      { by apply (meet_NoDup acc s). }
      split; [done |]. intros x. rewrite Hel, set_add_elem, elem_of_cons.
      naive_solver.
Qed.

Lemma unique_sources_outer ls acc :
  NoDup acc →
  let acc' :=
    fold_left
      (fun uniqueSources sourceList =>
         fold_left (fun uniqueSources source =>
                      if includes "(override)" source then uniqueSources
                      else ValidateCli.set_add source uniqueSources)
           sourceList uniqueSources) ls acc in
  NoDup acc' ∧
  ∀ x, x ∈ acc' ↔
       x ∈ acc ∨ ∃ l, l ∈ ls ∧ x ∈ l ∧ includes "(override)" x = false.
Proof.
  revert acc. induction ls as [|l ls IH]; intros acc Hnd; simpl.
  - split; [done |]. intros x. split; [by left |].
    intros [? | (l & ?%elem_of_nil & _)]; done.
  - destruct (unique_sources_inner l acc Hnd) as [Hnd1 Hel1].
    destruct (IH _ Hnd1) as [Hnd' Hel]. split; [done |].
    intros x. rewrite Hel, Hel1. split.
    + intros [[? | [? ?]] | (l' & ? & ? & ?)]; [by left | |].
      * right. exists l. split; [left | done].
      * right. exists l'. split; [by right | done].
    + intros [? | (l' & [-> | ?]%elem_of_cons & ? & ?)]; [by left; left | |].
      * left. by right.
      * right. by exists l'.
Qed.

(** X14. The inheritance chain of the report is not the chain: for a rule
    set that resolves, the report lists, without repetition, exactly the
    documents of the chain that define at least one rule under rules (and
    whose path does not contain the override mark). Documents that only
    override, or define nothing, are absent. *)
Theorem report_inheritance_chain w p chain r :
  resolveInheritanceChain w p = Ok chain → resolveRules w p = Ok r →
  ∃ cv, ValidateCli.validate_at w p = Ok cv ∧
    NoDup (ValidateCli.inheritanceChain (ValidateCli.info cv)) ∧
    ∀ f, f ∈ ValidateCli.inheritanceChain (ValidateCli.info cv) ↔
         f ∈ chain ∧ (∃ k, defines w f k = true) ∧ includes "(override)" f = false.
Proof.
  intros Hchain Hr. eexists. split; [by apply validate_at_Ok |].
  destruct (resolveRules_Ok _ _ _ Hchain) as (st & Hmerge & Hres).
  rewrite Hres in Hr. injection Hr as <-.
  unfold ValidateCli.report. rewrite report_conflicts_spec, check_rules_spec.
  cbn [ValidateCli.info ValidateCli.inheritanceChain resolved_sources].
  destruct (merge_files_sources w chain [] empty_merge st Hmerge) as [Hnd Hsrc].
  { constructor. }
  { intros k s _. simpl. split; [by intros ?%elem_of_nil | by intros [?%elem_of_nil _]]. }
  destruct (unique_sources_outer (values (sources st)) [] (NoDup_nil_2)) as [Hnd' Hel].
  split; [exact Hnd' |]. intros f. unfold ValidateCli.unique_sources. rewrite Hel.
  split.
  - intros [?%elem_of_nil | (l & Hl & Hf & Hplain)]; [done |].
    apply list_elem_of_fmap in Hl as ([k l'] & -> & Hkl). simpl in Hf.
    apply (obj_get_NoDup_elem _ _ _ Hnd) in Hkl.
    destruct (Hsrc k f Hplain) as [Hto _]. rewrite Hkl in Hto.
    destruct (Hto Hf) as [Hin Hdef]. split; [done |]. split; [by exists k | done].
  - intros (Hin & (k & Hdef) & Hplain). right.
    destruct (Hsrc k f Hplain) as [_ Hfrom].
    specialize (Hfrom (conj Hin Hdef)).
    destruct (obj_get k (sources st)) as [l|] eqn:E; [| by apply elem_of_nil in Hfrom].
    exists l. split; [| done].
    apply list_elem_of_fmap. exists (k, l). split; [done |]. by apply obj_get_Some_elem.
Qed.

Lemma report_inheritance_chain_witness :
  ∃ cv, ValidateCli.validate_at Examples.scenario_world "/project.json" = Ok cv ∧
    NoDup (ValidateCli.inheritanceChain (ValidateCli.info cv)) ∧
    ∀ f, f ∈ ValidateCli.inheritanceChain (ValidateCli.info cv) ↔
         f ∈ ["/base.json"; "/project.json"] ∧
         (∃ k, defines Examples.scenario_world f k = true) ∧
         includes "(override)" f = false.
Proof.
  apply (report_inheritance_chain Examples.scenario_world "/project.json"
           ["/base.json"; "/project.json"]
           {| resolved_rules :=
                [("critical-rule",
                  spread (Examples.rule_named "critical" "CRITICAL" true)
                         (Examples.patch_enabled false));
                 ("proj-rule", Examples.rule_named "proj" "HIGH" true)];
              resolved_sources :=
                [("critical-rule", ["/base.json"; "/project.json (override)"]);
                 ("proj-rule", ["/project.json"])];
              conflicts := [] |}).
  - vm_compute. reflexivity.
  - vm_compute. reflexivity.
Defined.

(** X15. A dangling override is reported twice: the command-line
    validator copies the errors of validateRules and then walks the
    conflicts again, so the message of every override of a rule that no
    earlier document defines occurs at two positions of its error list. *)
Theorem cli_reports_dangling_twice w p r k f :
  resolveRules w p = Ok r → dangling_override k f ∈ conflicts r →
  ∃ cv l1 l2 l3,
    ValidateCli.validate_at w p = Ok cv ∧
    ValidateCli.errors cv =
      l1 ++ conflict (dangling_override k f) :: l2 ++
      conflict (dangling_override k f) :: l3.
Proof.
  intros Hr Hin.
  set (marked := List.filter (fun c => includes "non-existent" (conflict c)) (conflicts r)).
  assert (Hm : dangling_override k f ∈ marked).
  { apply list_elem_of_In, filter_In. split; [by apply list_elem_of_In | done]. }
  apply list_elem_of_split in Hm as (m1 & m2 & Hm).
  assert (Hinvalid : valid (validate_resolved r) = false).
  { destruct (valid (validate_resolved r)) eqn:Hv; [| done].
    apply validate_resolved_valid in Hv. rewrite validate_resolved_errors in Hv.
    fold marked in Hv. rewrite Hm in Hv. by destruct m1. }
  eexists. exists (map conflict m1), (map conflict m2 ++ rule_set_errors (resolved_rules r) ++ map conflict m1).
  eexists. split; [by apply validate_at_Ok |].
  rewrite report_errors_exact, Hinvalid, validate_resolved_errors. fold marked.
  rewrite Hm, map_app. simpl. rewrite <- !app_assoc. simpl. reflexivity.
Qed.

Lemma cli_reports_dangling_twice_witness :
  ∃ cv l1 l2 l3,
    ValidateCli.validate_at Examples.dangling_world "/a.json" = Ok cv ∧
    ValidateCli.errors cv =
      l1 ++ conflict (dangling_override "ghost" "/a.json") :: l2 ++
      conflict (dangling_override "ghost" "/a.json") :: l3.
Proof.
  apply (cli_reports_dangling_twice Examples.dangling_world "/a.json"
           {| resolved_rules := [("r1", Examples.rule_named "one" "LOW" true)];
              resolved_sources := [("r1", ["/a.json"])];
              conflicts := [dangling_override "ghost" "/a.json"] |}).
  - vm_compute. reflexivity.
  - left.
Defined.

End ReportFacts.

(** ** From the rules file to the rule strings *)

Module RulesFileFacts.
Import JS RuleResolver ConstitutionalRules Notions ResolverFacts MergeFacts SortFacts.
Import LayerFacts.

Lemma candidate_exists w setting to_path p :
  candidate w setting to_path = Some p → existsSync w p = true.
Proof.
  unfold candidate. destruct setting as [s|]; [| done].
  destruct (truthy_string (Some s)); [| done].
  destruct (existsSync w (to_path s)) eqn:E; [| done]. by intros [= <-].
Qed.

Lemma loadConstitutionalRules_found w config p :
  getConstitutionalRulesPath w config = Some p → p ≠ "" →
  loadConstitutionalRules w config =
  match getEffectiveRules w p with
  | Ok effectiveRules => effectiveRules
  | Throw _ | OutOfFuel => []
  end.
Proof.
  intros Hp Hne. unfold loadConstitutionalRules. rewrite Hp. simpl.
  apply String.eqb_neq in Hne. by rewrite Hne.
Qed.

(** X16. Discovery returns only files that exist, and the environment
    wins: whatever path getConstitutionalRulesPath returns exists; when
    VIBE_CHECK_RULES_FILE is set, non-empty, and its resolved path exists,
    that path is returned whatever the configuration says; and nothing is
    returned only if the default file is absent as well. *)
Theorem rules_path_discovery w config :
  (∀ p, getConstitutionalRulesPath w config = Some p → existsSync w p = true) ∧
  (∀ s, env w !! "VIBE_CHECK_RULES_FILE" = Some s → s ≠ "" →
        existsSync w (path_resolve w [s]) = true →
        getConstitutionalRulesPath w config = Some (path_resolve w [s])) ∧
  (getConstitutionalRulesPath w config = None →
   existsSync w (path_join w [homedir w; ".vibe-check"; "constitutional-rules.json"]) = false).
Proof.
  unfold getConstitutionalRulesPath. split; [| split].
  - intros p.
    destruct (candidate w (env w !! "VIBE_CHECK_RULES_FILE") _) as [p1|] eqn:E1.
    { intros [= <-]. by eapply candidate_exists. }
    destruct (candidate w (config_field config rulesFile) _) as [p2|] eqn:E2.
    { intros [= <-]. by eapply candidate_exists. }
    destruct (candidate w (or_string _ _) _) as [p3|] eqn:E3.
    { intros [= <-]. by eapply candidate_exists. }
    destruct (existsSync w _) eqn:E4; [| done]. by intros [= <-].
  - intros s Hs Hne Hex. rewrite Hs. unfold candidate at 1. simpl.
    apply String.eqb_neq in Hne. rewrite Hne. simpl. by rewrite Hex.
  - destruct (candidate w (env w !! "VIBE_CHECK_RULES_FILE") _); [done |].
    destruct (candidate w (config_field config rulesFile) _); [done |].
    destruct (candidate w (or_string _ _) _); [done |].
    by destruct (existsSync w _).
Qed.

(** An unresolvable rules file loads as no rules. *)
Lemma broken_file_load w config p e :
  getConstitutionalRulesPath w config = Some p → p ≠ "" →
  resolveInheritanceChain w p = Throw e →
  loadConstitutionalRules w config = [] ∧
  loadConstitutionalRulesAsStrings w config = [].
Proof.
  intros Hp Hne Hthrow.
  assert (Hload : loadConstitutionalRules w config = []).
  { rewrite (loadConstitutionalRules_found _ _ _ Hp Hne).
    apply resolveRules_Throw in Hthrow.
    unfold getEffectiveRules. by rewrite Hthrow. }
  split; [done |]. unfold loadConstitutionalRulesAsStrings. by rewrite Hload.
Qed.

(** X17. A rules file that cannot be resolved goes unnoticed: when the
    discovered file exists but resolving its chain throws (a cycle, a
    missing parent), loadConstitutionalRules swallows the exception and
    returns no rules, the string form is empty as well, and
    validateConstitutionalRules of the same module still reports the file
    as valid, with its path and no error message. *)
Theorem broken_rules_file_unnoticed w config p e :
  getConstitutionalRulesPath w config = Some p → p ≠ "" →
  resolveInheritanceChain w p = Throw e →
  loadConstitutionalRules w config = [] ∧
  loadConstitutionalRulesAsStrings w config = [] ∧
  RulesFileCheck.validateConstitutionalRules w config =
    {| RulesFileCheck.valid := true;
       RulesFileCheck.path := Some p;
       RulesFileCheck.errorMessage := None |}.
Proof.
  intros Hp Hne Hthrow.
  destruct (broken_file_load _ _ _ _ Hp Hne Hthrow) as [Hload Hstrings].
  split; [done |]. split; [done |].
  unfold RulesFileCheck.validateConstitutionalRules. rewrite Hp. simpl.
  apply String.eqb_neq in Hne. by rewrite Hne.
Qed.

Lemma broken_rules_file_unnoticed_witness :
  loadConstitutionalRules Scenarios.broken_default_world None = [] ∧
  loadConstitutionalRulesAsStrings Scenarios.broken_default_world None = [] ∧
  RulesFileCheck.validateConstitutionalRules Scenarios.broken_default_world None =
    {| RulesFileCheck.valid := true;
       RulesFileCheck.path := Some "/home/user/.vibe-check/constitutional-rules.json";
       RulesFileCheck.errorMessage := None |}.
Proof.
  apply (broken_rules_file_unnoticed Scenarios.broken_default_world None
           "/home/user/.vibe-check/constitutional-rules.json"
           (CircularDependency "/home/user/.vibe-check/constitutional-rules.json")).
  - vm_compute. reflexivity.
  - discriminate.
  - vm_compute. reflexivity.
Defined.

(** X18. What is loaded from a resolvable rules file: the rules returned
    by loadConstitutionalRules are a rearrangement of the enabled rules of
    the merged set, whatever their severities are (an unknown severity
    loses no rule), every one of them is enabled, and the string form has
    one string per enabled rule. *)
Theorem loaded_rules_are_enabled_rules w config p r :
  getConstitutionalRulesPath w config = Some p → p ≠ "" →
  resolveRules w p = Ok r →
  loadConstitutionalRules w config ≡ₚ enabled_rules (resolved_rules r) ∧
  (∀ rule, rule ∈ loadConstitutionalRules w config → enabled rule = Some true) ∧
  length (loadConstitutionalRulesAsStrings w config) =
    length (enabled_rules (resolved_rules r)).
Proof.
  intros Hp Hne Hr.
  assert (Hload : loadConstitutionalRules w config = effective (resolved_rules r)).
  { rewrite (loadConstitutionalRules_found _ _ _ Hp Hne).
    unfold getEffectiveRules. by rewrite Hr. }
  assert (Hperm : loadConstitutionalRules w config ≡ₚ enabled_rules (resolved_rules r)).
  { rewrite Hload. unfold effective.
    rewrite (sort_ext by_severity _ _ by_severity_key). apply sort_perm. }
  split; [done |]. split.
  - intros rule Hin. rewrite Hperm in Hin.
    apply list_elem_of_In, filter_In in Hin as [_ Hen].
    destruct (enabled rule) as [[|]|]; done.
  - unfold loadConstitutionalRulesAsStrings, rulesToStrings.
    by rewrite length_map, Hperm.
Qed.

Lemma loaded_rules_are_enabled_rules_witness :
  loadConstitutionalRules Scenarios.default_world None ≡ₚ
    enabled_rules (resolved_rules Scenarios.default_resolved) ∧
  (∀ rule, rule ∈ loadConstitutionalRules Scenarios.default_world None →
           enabled rule = Some true) ∧
  length (loadConstitutionalRulesAsStrings Scenarios.default_world None) =
    length (enabled_rules (resolved_rules Scenarios.default_resolved)).
Proof.
  apply (loaded_rules_are_enabled_rules Scenarios.default_world None
           "/home/user/.vibe-check/constitutional-rules.json").
  - vm_compute. reflexivity.
  - discriminate.
  - vm_compute. reflexivity.
Defined.

End RulesFileFacts.

(** ** The session store, operation by operation *)

Module SessionFacts.
Import JS RuleResolver ConstitutionalRules Constitution Notions StoreNotions.
Import ResolverFacts LayerFacts RulesFileFacts StoreFacts.

(** The list after a run of appends, for any starting length. *)
Lemma fold_push_window rs l :
  fold_left (fun l rule => push_capped rule l) rs l =
  drop (length l + length rs - max MAX_RULES_PER_SESSION (length l)) (l ++ rs).
Proof.
  revert l. induction rs as [|r rs IH]; intros l.
  - simpl. rewrite app_nil_r.
    replace (length l + 0 - _) with 0 by lia. done.
  - cbn [fold_left]. rewrite IH. unfold push_capped.
    destruct (Nat.leb_spec MAX_RULES_PER_SESSION (length l)) as [Hfull | Hroom].
    + destruct l as [|x t]; [unfold MAX_RULES_PER_SESSION in Hfull; simpl in Hfull; lia |].
      cbn [tail length] in *. rewrite length_app. cbn [length].
      replace (length t + 1 + length rs - max MAX_RULES_PER_SESSION (length t + 1))
        with (length rs) by lia.
      replace (S (length t) + S (length rs) - max MAX_RULES_PER_SESSION (S (length t)))
        with (S (length rs)) by lia.
      rewrite <- app_assoc. reflexivity.
    + rewrite length_app. cbn [length].
      replace (length l + 1 + length rs - max MAX_RULES_PER_SESSION (length l + 1))
        with (length l + S (length rs) - max MAX_RULES_PER_SESSION (length l)) by lia.
      rewrite <- app_assoc. reflexivity.
Qed.

(** X19. The rule list is a sliding window: for an existing session with
    a non-empty id, after any run of non-empty appended strings the rule
    list holds the newest strings of the old list followed by the appended
    ones, as many as the larger of fifty and the old length. A session at
    or below fifty rules keeps the last fifty; a session seeded with more
    than fifty keeps its length for ever. *)
Theorem rule_window w sessionId timed m entry :
  sessionId ≠ "" → Forall (fun tr => tr.2 ≠ "") timed →
  m !! sessionId = Some entry →
  ∃ entry', append_all w sessionId timed m !! sessionId = Some entry' ∧
    rules entry' =
      drop (length (rules entry) + length timed -
            max MAX_RULES_PER_SESSION (length (rules entry)))
           (rules entry ++ map snd timed) ∧
    length (rules entry') =
      min (length (rules entry) + length timed)
          (max MAX_RULES_PER_SESSION (length (rules entry))) ∧
    fileLoaded entry' = fileLoaded entry.
Proof.
  intros Hs Hne Hm.
  destruct (append_all_existing w _ _ _ _ Hs Hne Hm) as (entry' & Hlook & Hrules & Hfile).
  exists entry'. split; [done |].
  rewrite fold_push_window, length_map in Hrules.
  split; [done |]. split; [| done].
  rewrite Hrules, length_drop, length_app, length_map. lia.
Qed.

Lemma rule_window_witness :
  ∃ entry', append_all Examples.bare_world "session" [(1%Z, "b"); (2%Z, "c")]
              Scenarios.one_session !! "session" = Some entry' ∧
    rules entry' = drop (1 + 2 - max MAX_RULES_PER_SESSION 1) (["a"] ++ ["b"; "c"]) ∧
    length (rules entry') = min (1 + 2) (max MAX_RULES_PER_SESSION 1) ∧
    fileLoaded entry' = false.
Proof.
  apply (rule_window Examples.bare_world "session" [(1%Z, "b"); (2%Z, "c")]
           Scenarios.one_session
           {| rules := ["a"]; fileLoaded := false; updated := 0 |}).
  - discriminate.
  - repeat constructor; discriminate.
  - apply lookup_singleton_eq.
Defined.

(** X20. Sessions are isolated: reading, appending to or resetting one
    session leaves the entry of every other session as it was, and creates
    or removes none. *)
Theorem sessions_isolated w now sessionId other rule rs m :
  other ≠ sessionId →
  (getConstitution w now sessionId m).1 !! other = m !! other ∧
  updateConstitution w now sessionId rule m !! other = m !! other ∧
  resetConstitution now sessionId rs m !! other = m !! other.
Proof.
  intros Hne.
  assert (Hens : ensure_session w now sessionId m !! other = m !! other).
  { unfold ensure_session, initializeSessionConstitution.
    destruct (truthy_object (m !! sessionId)); [done |].
    destruct (truthy_string _); by rewrite lookup_insert_ne. }
  split; [| split].
  - unfold getConstitution.
    destruct (ensure_session w now sessionId m !! sessionId); simpl; [| done].
    by rewrite lookup_insert_ne.
  - unfold updateConstitution. destruct (_ || _); [done |].
    destruct (ensure_session w now sessionId m !! sessionId); [| done].
    by rewrite lookup_insert_ne.
  - unfold resetConstitution. destruct (negb _); [done |].
    by rewrite lookup_insert_ne.
Qed.

Lemma sessions_isolated_witness :
  (getConstitution Examples.bare_world 5 "other" Scenarios.one_session).1 !! "session" =
    Scenarios.one_session !! "session" ∧
  updateConstitution Examples.bare_world 5 "other" "b" Scenarios.one_session !! "session" =
    Scenarios.one_session !! "session" ∧
  resetConstitution 5 "other" ["c"] Scenarios.one_session !! "session" =
    Scenarios.one_session !! "session".
Proof.
  apply (sessions_isolated Examples.bare_world 5 "other" "session" "b" ["c"]
           Scenarios.one_session).
  discriminate.
Defined.

(** X21. A reset replaces the session: for a non-empty session id, after
    resetConstitution the next read returns the first fifty of the given
    rules and nothing else, whatever the session held before and whatever
    rules file exists; the entry is marked as not loaded from a file. *)
Theorem reset_replaces w now now' sessionId rs m :
  sessionId ≠ "" →
  (getConstitution w now' sessionId (resetConstitution now sessionId rs m)).2 =
    take MAX_RULES_PER_SESSION rs ∧
  (getConstitution w now' sessionId (resetConstitution now sessionId rs m)).1
    !! sessionId =
    Some {| rules := take MAX_RULES_PER_SESSION rs; fileLoaded := false;
            updated := now' |}.
Proof.
  intros Hs. unfold resetConstitution. simpl.
  apply String.eqb_neq in Hs. rewrite Hs. simpl.
  erewrite getConstitution_existing; [| apply lookup_insert_eq]. simpl.
  split; [done |]. apply lookup_insert_eq.
Qed.

Lemma reset_replaces_witness :
  (getConstitution Examples.crowded_world 2 "session"
     (resetConstitution 1 "session" ["x"; "y"] Scenarios.one_session)).2 =
    take MAX_RULES_PER_SESSION ["x"; "y"] ∧
  (getConstitution Examples.crowded_world 2 "session"
     (resetConstitution 1 "session" ["x"; "y"] Scenarios.one_session)).1 !! "session" =
    Some {| rules := take MAX_RULES_PER_SESSION ["x"; "y"]; fileLoaded := false;
            updated := 2 |}.
Proof.
  apply (reset_replaces Examples.crowded_world 1 2 "session" ["x"; "y"]
           Scenarios.one_session).
  discriminate.
Defined.

(** The time stamp of the session after each operation. *)
Lemma getConstitution_stamp w now sessionId m :
  ∃ entry, (getConstitution w now sessionId m).1 !! sessionId = Some entry ∧
           updated entry = now.
Proof.
  unfold getConstitution.
  destruct (m !! sessionId) as [e|] eqn:Hm.
  - rewrite (ensure_session_lookup _ _ _ _ _ Hm), Hm. simpl.
    rewrite lookup_insert_eq. by eexists.
  - rewrite (ensure_session_fresh _ _ _ _ Hm), lookup_insert_eq. simpl.
    rewrite lookup_insert_eq. by eexists.
Qed.

Lemma updateConstitution_stamp w now sessionId rule m :
  sessionId ≠ "" → rule ≠ "" →
  ∃ entry, updateConstitution w now sessionId rule m !! sessionId = Some entry ∧
           updated entry = now.
Proof.
  intros Hs Hr. unfold updateConstitution. simpl.
  apply String.eqb_neq in Hs, Hr. rewrite Hs, Hr. simpl.
  destruct (m !! sessionId) as [e|] eqn:Hm.
  - rewrite (ensure_session_lookup _ _ _ _ _ Hm), Hm.
    rewrite lookup_insert_eq. by eexists.
  - rewrite (ensure_session_fresh _ _ _ _ Hm), lookup_insert_eq.
    rewrite lookup_insert_eq. by eexists.
Qed.

(** X22. Every access is a touch: after a read, a successful append or a
    reset at time [now], a sweep at any time up to one hour later keeps the
    session, however long it had been idle before. Reading a session is
    enough to keep it alive. *)
Theorem touch_keeps_alive w now now' sessionId rule rs m :
  (now' - now ≤ SESSION_TTL_MS)%Z → sessionId ≠ "" → rule ≠ "" →
  is_Some (cleanup now' (getConstitution w now sessionId m).1 !! sessionId) ∧
  is_Some (cleanup now' (updateConstitution w now sessionId rule m) !! sessionId) ∧
  is_Some (cleanup now' (resetConstitution now sessionId rs m) !! sessionId).
Proof.
  intros Hfresh Hs Hr.
  assert (Hkeep : ∀ m' entry, m' !! sessionId = Some entry → updated entry = now →
            is_Some (cleanup now' m' !! sessionId)).
  { intros m' entry Hm' Hup. rewrite cleanup_lookup, Hm'. unfold stale. rewrite Hup.
    destruct (Z.ltb_spec SESSION_TTL_MS (now' - now)); [lia | by eexists]. }
  split; [| split].
  - destruct (getConstitution_stamp w now sessionId m) as (entry & Hlook & Hup).
    by eapply Hkeep.
  - destruct (updateConstitution_stamp w now sessionId rule m Hs Hr) as (entry & Hlook & Hup).
    by eapply Hkeep.
  - apply (Hkeep _ {| rules := take MAX_RULES_PER_SESSION rs; fileLoaded := false;
                      updated := now |}); [| done].
    unfold resetConstitution. simpl.
    apply String.eqb_neq in Hs. rewrite Hs. simpl. apply lookup_insert_eq.
Qed.

Lemma touch_keeps_alive_witness :
  is_Some (cleanup 3600005
             (getConstitution Examples.bare_world 5 "session" Scenarios.one_session).1
             !! "session") ∧
  is_Some (cleanup 3600005
             (updateConstitution Examples.bare_world 5 "session" "b" Scenarios.one_session)
             !! "session") ∧
  is_Some (cleanup 3600005
             (resetConstitution 5 "session" ["c"] Scenarios.one_session) !! "session").
Proof.
  apply (touch_keeps_alive Examples.bare_world 5 3600005 "session" "b" ["c"]
           Scenarios.one_session).
  - unfold SESSION_TTL_MS. lia.
  - discriminate.
  - discriminate.
Defined.

(** X23. The sweep only removes: it never changes or adds an entry, a
    second sweep at the same time removes nothing more, and whatever a
    later sweep keeps an earlier one keeps too. *)
Theorem cleanup_only_removes now m :
  cleanup now m ⊆ m ∧
  cleanup now (cleanup now m) = cleanup now m ∧
  (∀ earlier, (earlier ≤ now)%Z → cleanup now m ⊆ cleanup earlier m).
Proof.
  split; [| split].
  - apply map_filter_subseteq.
  - apply map_eq. intros sid. rewrite !cleanup_lookup.
    destruct (m !! sid) as [entry|]; [| done].
    destruct (stale now entry) eqn:E; [done |]. by rewrite E.
  - intros earlier Hle. apply map_subseteq_spec. intros sid entry.
    rewrite !cleanup_lookup. destruct (m !! sid) as [e|]; [| done].
    unfold stale.
    destruct (Z.ltb_spec SESSION_TTL_MS (now - updated e)); [done |].
    destruct (Z.ltb_spec SESSION_TTL_MS (earlier - updated e)); [lia | done].
Qed.

(** X24. The guards differ: an append with an empty session id or an
    empty rule string, and a reset with an empty session id, leave the
    store untouched (the session is not even initialised), while a read has
    no guard: reading the empty session id creates an entry under it. *)
Theorem empty_id_guards w now rule rs sessionId m :
  updateConstitution w now "" rule m = m ∧
  updateConstitution w now sessionId "" m = m ∧
  resetConstitution now "" rs m = m ∧
  is_Some ((getConstitution w now "" m).1 !! "").
Proof.
  split; [done |]. split.
  { unfold updateConstitution. simpl. by rewrite orb_true_r. }
  split; [done |].
  destruct (getConstitution_stamp w now "" m) as (entry & Hlook & _). by eexists.
Qed.

(** X25. A session started while the rules file is broken: when the
    default rules file exists but its chain does not resolve, the first
    access of a session stores an entry with no rules that is nevertheless
    marked as loaded from the file, and the read returns the empty list. *)
Theorem broken_file_session w now sessionId m p e :
  m !! sessionId = None →
  getConstitutionalRulesPath w None = Some p → p ≠ "" →
  resolveInheritanceChain w p = Throw e →
  getConstitution w now sessionId m =
  (<[sessionId := {| rules := []; fileLoaded := true; updated := now |}]> m, []).
Proof.
  intros Hm Hp Hne Hthrow.
  destruct (broken_file_load w None p e Hp Hne Hthrow) as [_ Hstrings].
  unfold getConstitution.
  rewrite (ensure_session_fresh _ _ _ _ Hm), lookup_insert_eq, Hp. simpl.
  apply String.eqb_neq in Hne. rewrite Hne, Hstrings. simpl.
  by rewrite insert_insert_eq.
Qed.

Lemma broken_file_session_witness :
  getConstitution Scenarios.broken_default_world 7 "session" ∅ =
  (<["session" := {| rules := []; fileLoaded := true; updated := 7 |}]> ∅, []).
Proof.
  apply (broken_file_session Scenarios.broken_default_world 7 "session" ∅
           "/home/user/.vibe-check/constitutional-rules.json"
           (CircularDependency "/home/user/.vibe-check/constitutional-rules.json")).
  - apply lookup_empty.
  - vm_compute. reflexivity.
  - discriminate.
  - vm_compute. reflexivity.
Defined.

End SessionFacts.

(** ** The watcher against the resolver *)

Module WatcherFacts.
Import JS RuleResolver ConstitutionalRules Notions HotReload.
Import ResolverFacts DiamondFacts ChainFacts.


Lemma watch_step fuel w rulesPath watched :
  watchInheritanceChain_fuel (S fuel) w rulesPath watched =
  match files w !! rulesPath with
  | None => Ok watched
  | Some parsed =>
      match extends parsed with
      | Some parents =>
          for_of
            (fun extendPath watched =>
               if existsSync w (path_resolve w [path_dirname w rulesPath; extendPath])
               then watchInheritanceChain_fuel fuel w
                      (path_resolve w [path_dirname w rulesPath; extendPath])
                      (watched ++ [path_resolve w [path_dirname w rulesPath; extendPath]])
               else Ok watched)
            parents watched
      | None => Ok watched
      end
  end.
Proof. reflexivity. Qed.


(** *** Paths of the extends graph *)






(** What the watcher registers below a document that resolves. *)
Lemma watch_of_resolved fuel w p visited chain :
  resolve_idempotent w →
  resolveInheritanceChain_fuel fuel w p visited = Ok chain →
  ∀ watched, ∃ out,
    watchInheritanceChain_fuel fuel w (absolute w p) watched = Ok (watched ++ out) ∧
    chain ≡ₚ absolute w p :: out.
Proof.
  intros Hidem. revert p visited chain.
  induction fuel as [|fuel IH]; intros p visited chain; [done |].
  intros Hok watched.
  apply resolve_Ok_inv in Hok as (_ & ruleSet & Hfile & Hcase).
  rewrite watch_step, Hfile.
  destruct Hcase as [[Hleaf ->] | (parents & chains & Hext & _ & HF & ->)].
  - exists []. rewrite app_nil_r. split; [| done].
    destruct Hleaf as [-> | ->]; done.
  - rewrite Hext.
    assert (Hloop : ∀ watched, ∃ out,
      for_of
        (fun extendPath watched =>
           if existsSync w (path_resolve w [path_dirname w (absolute w p); extendPath])
           then watchInheritanceChain_fuel fuel w
                  (path_resolve w [path_dirname w (absolute w p); extendPath])
                  (watched ++ [path_resolve w [path_dirname w (absolute w p); extendPath]])
           else Ok watched)
        parents watched = Ok (watched ++ out) ∧ concat chains ≡ₚ out).
    { clear Hext Hfile. induction HF as [|pp c parents chains Hc HF IHF]; intros wa.
      - exists []. by rewrite app_nil_r.
      - pose proof (resolve_Ok_present _ _ _ _ _ _ Hc (rtc_refl _ _)) as [doc Hdoc].
        assert (Habs : absolute w (path_resolve w [path_dirname w (absolute w p); pp]) =
                       path_resolve w [path_dirname w (absolute w p); pp]) by apply Hidem.
        rewrite Habs in Hdoc.
        destruct (IH _ _ _ Hc (wa ++ [path_resolve w [path_dirname w (absolute w p); pp]]))
          as (out1 & Hw1 & Hperm1).
        rewrite Habs in Hw1, Hperm1.
        destruct (IHF ((wa ++ [path_resolve w [path_dirname w (absolute w p); pp]]) ++ out1))
          as (out2 & Hw2 & Hperm2).
        exists (path_resolve w [path_dirname w (absolute w p); pp] :: out1 ++ out2).
        split.
        + cbn [for_of]. unfold existsSync at 1. rewrite Hdoc. cbn [truthy_object].
          rewrite Hw1. cbn [bind]. rewrite Hw2. f_equal.
          rewrite <- !app_assoc. reflexivity.
        + cbn [concat]. rewrite Hperm1, Hperm2. reflexivity. }
    destruct (Hloop watched) as (out & Hout & Hperm).
    exists out. split; [done |].
    rewrite <- Hperm. symmetry. apply Permutation_cons_append.
Qed.



(** X27. On a rule set that resolves, the watcher terminates and covers
    the chain: together with the watched rules file itself, the paths handed
    to fs.watch are a rearrangement of the resolved chain, one watcher per
    chain entry, so a document that occurs twice in the chain is watched
    twice. *)
Theorem watcher_covers_chain w p chain :
  resolve_idempotent w →
  resolveInheritanceChain w p = Ok chain →
  ∃ fuel out,
    watchInheritanceChain_fuel fuel w (absolute w p) [] = Ok out ∧
    chain ≡ₚ absolute w p :: out.
Proof.
  intros Hidem Hok. exists (S (size (files w))).
  destruct (watch_of_resolved _ _ _ _ _ Hidem Hok []) as (out & Hw & Hperm).
  by exists out.
Qed.

Lemma watcher_covers_chain_witness :
  ∃ fuel out,
    watchInheritanceChain_fuel fuel Examples.diamond_world
      (absolute Examples.diamond_world "/a.json") [] = Ok out ∧
    ["/d.json"; "/b.json"; "/d.json"; "/c.json"; "/a.json"] ≡ₚ
      absolute Examples.diamond_world "/a.json" :: out.
Proof.
  apply (watcher_covers_chain Examples.diamond_world "/a.json").
  - intros segments. reflexivity.
  - vm_compute. reflexivity.
Defined.

End WatcherFacts.
